(** * Babbla / VoiceCLI: chunker, phrase cache, metrics and streaming controller

    A shallow embedding of the Python sources
      - [src/babbla/chunker.py]
      - [src/babbla/cache.py]
      - [src/babbla/metrics.py]
      - [src/babbla/wav_saver.py]
      - [src/voicecli/playback.py]
      - [src/voicecli/streaming_controller.py]
    together with the properties checked against them.

    Conventions.
    - Python [str] values are lists of code points.  A code point is an
      [ascii] (the Latin-1 range 0..255), which is enough to exercise every
      branch of the chunker; [is_space] is Python's [str.isspace] on that
      range.
    - Python [int] is [Z]; [float] timestamps and delays are exact rationals
      [Q] (rounding of binary floating point is not modelled).
    - Exceptions are values of [exn]; a computation that may raise returns a
      [result].
    - The controller's collaborators (provider, playback sink, cache, clock,
      sleep, random source) are an [env] of answer functions, and the calls
      made on them are recorded in a trace.  Calls to [logger] and
      [event_logger] have no bearing on the properties below and are left
      out. *)

From Stdlib Require Import ZArith QArith Qround Qminmax Qpower Lqa Lia Bool Ascii String List.
From Stdlib Require Import Strings.Byte Numbers.DecimalString.
From stdpp Require Import base option list sorting strings gmap.

Open Scope Z_scope.

(** ** Python exceptions *)

Inductive exn : Type :=
| ValueError
| KeyError
| TypeError
| JSONDecodeError          (* subclass of ValueError *)
| FileNotFoundError        (* subclass of OSError *)
| PermissionError          (* subclass of OSError *)
| OSError
| RecursionError           (* subclass of RuntimeError *)
| RuntimeError
| AudioDeviceError
| ProviderAuthError
| ProviderConnectionError
| ProviderNetworkError
| ProviderRateLimitError (retry_after : option Q).

Inductive result (A : Type) : Type :=
| Ok (a : A)
| Raise (e : exn).
Arguments Ok {A} a.
Arguments Raise {A} e.

Definition is_ok {A} (r : result A) : bool :=
  match r with Ok _ => true | Raise _ => false end.

(** ** Strings as lists of code points *)

Abbreviation str := (list ascii).

Definition s (x : string) : str := list_ascii_of_string x.

Definition len (x : str) : Z := Z.of_nat (length x).

(** [str.isspace] on the code points 0..255: TAB..CR, FS..US, SPACE, NEL,
    NBSP. *)
Definition is_space (c : ascii) : bool :=
  let n := nat_of_ascii c in
  ((9 <=? n)%nat && (n <=? 13)%nat) || ((28 <=? n)%nat && (n <=? 32)%nat)
  || (n =? 133)%nat || (n =? 160)%nat.

Definition space : ascii := " "%char.
Definition hyphen : ascii := "-"%char.

(** [sep.join(parts)] *)
Fixpoint join (sep : str) (parts : list str) : str :=
  match parts with
  | [] => []
  | [x] => x
  | x :: rest => x ++ sep ++ join sep rest
  end.

(** The fields of [x] delimited by the characters satisfying [p]; this is
    [x.split(" ")] for [p = (= " ")]: empty fields are kept. *)
Fixpoint fields (p : ascii -> bool) (x : str) : list str :=
  match x with
  | [] => [[]]
  | c :: x' =>
      if p c then [] :: fields p x'
      else match fields p x' with
           | [] => [[c]]
           | f :: fs => (c :: f) :: fs
           end
  end.

Definition nonempty (x : str) : bool :=
  match x with [] => false | _ => true end.

(** [x.split()]: maximal runs of non-whitespace. *)
Definition split_whitespace (x : str) : list str :=
  filter (fun f => nonempty f = true) (fields is_space x).

Fixpoint lstrip (x : str) : str :=
  match x with
  | c :: x' => if is_space c then lstrip x' else x
  | [] => []
  end.

(** [x.strip()] *)
Definition strip (x : str) : str := rev (lstrip (rev (lstrip x))).

Module Chunker.

(** [SENTENCE_SPLIT_REGEX = re.compile(r"(?<=[.!?])\s+")] *)
Definition is_terminator (c : ascii) : bool :=
  (Ascii.eqb c "."%char) || (Ascii.eqb c "!"%char) || (Ascii.eqb c "?"%char).

Inductive scan : Type :=
| AtStart                 (* no character before the cursor *)
| After (prev : ascii)    (* previous character, outside a match *)
| InMatch.                (* inside a run matched by \s+ *)

Definition cons_head (c : ascii) (pieces : list str) : list str :=
  match pieces with
  | [] => [[c]]
  | p :: ps => (c :: p) :: ps
  end.

(** [SENTENCE_SPLIT_REGEX.split(x)]: a match starts at a whitespace
    character directly preceded by one of [.!?] and extends over the whole
    whitespace run; the text between matches is returned. *)
Fixpoint regex_split (st : scan) (x : str) : list str :=
  match x with
  | [] => [[]]
  | c :: x' =>
      match st with
      | InMatch =>
          if is_space c then regex_split InMatch x'
          else cons_head c (regex_split (After c) x')
      | After p =>
          if is_terminator p && is_space c then [] :: regex_split InMatch x'
          else cons_head c (regex_split (After c) x')
      | AtStart => cons_head c (regex_split (After c) x')
      end
  end.

Definition sentence_split (x : str) : list str := regex_split AtStart x.

(** [_normalize_whitespace] *)
Definition _normalize_whitespace (text : str) : str :=
  join [space] (split_whitespace (strip text)).

Definition singletons (x : str) : list str := map (fun c => [c]) x.

(** The [while index < len(token)] loop of [_split_token]; [fuel] bounds the
    number of iterations, and [length token] of it is enough whenever
    [slice_len >= 1] (lemma [split_loop_slices]). *)
Fixpoint split_loop (fuel : nat) (token : str) (max_chars : Z)
    (slice_len index : nat) : list str :=
  match fuel with
  | O => []
  | S fuel' =>
      if (index <? length token)%nat then
        let end_ := (index + slice_len)%nat in
        let chunk := take slice_len (drop index token) in   (* token[index:end] *)
        let index' := end_ in
        let yielded :=
          if (index' <? length token)%nat then [chunk ++ [hyphen]]
          else if len chunk >? max_chars then singletons chunk
               else [chunk] in
        yielded ++ split_loop fuel' token max_chars slice_len index'
      else []
  end.

(** [_split_token] (the generator's output, as a list) *)
Definition _split_token (token : str) (max_chars : Z) : list str :=
  if len token <=? max_chars then [token]
  else if max_chars <=? 1 then singletons token
  else
    let slice_len := Z.to_nat (max_chars - 1) in
    split_loop (length token) token max_chars slice_len 0.

(** One iteration of the inner [for fragment in ...] loop of
    [_split_sentence], on the pair [(results, current)]. *)
Definition pack_step (max_chars : Z) (acc : list str * str) (fragment : str)
    : list str * str :=
  let '(results, current) := acc in
  if negb (nonempty current) then (results, fragment)
  else
    let candidate_len := len current + 1 + len fragment in
    if (candidate_len <=? max_chars)
       || (candidate_len - max_chars <? len fragment)
    then (results, current ++ [space] ++ fragment)
    else (results ++ [current], fragment).

Definition fragments_of (sentence : str) (max_chars : Z) : list str :=
  flat_map (fun token => if nonempty token then _split_token token max_chars else [])
           (fields (Ascii.eqb space) sentence).

(** [_split_sentence] *)
Definition _split_sentence (sentence : str) (max_chars : Z) : list str :=
  let '(results, current) :=
    fold_left (pack_step max_chars) (fragments_of sentence max_chars) ([], []) in
  if nonempty current then results ++ [current] else results.

(** [chunk_text] *)
Definition chunk_text (text : str) (max_chars : Z) : result (list str) :=
  if max_chars <=? 0 then Raise ValueError
  else
    let normalized := _normalize_whitespace text in
    if negb (nonempty normalized) then Ok []
    else
      let raw_sentences := map strip (sentence_split normalized) in
      Ok (flat_map (fun sentence =>
                      if nonempty sentence then _split_sentence sentence max_chars
                      else [])
                   raw_sentences).

(** The slicing the specification describes for a token longer than
    [max_chars]: slices of fixed width [n = max_chars - 1], piece [i] being
    [token[i*n : (i+1)*n]], every piece but the last one followed by a
    hyphen. *)
Definition slice (n : nat) (token : str) (i : nat) : str :=
  take n (drop (i * n) token).

Definition slice_count (n : nat) (token : str) : nat :=
  ((length token + n - 1) / n)%nat.

Definition hyphenated_slices (token : str) (max_chars : Z) : list str :=
  let n := Z.to_nat (max_chars - 1) in
  let k := slice_count n token in
  map (fun i => if (S i <? k)%nat then slice n token i ++ [hyphen]
                else slice n token i)
      (seq 0 k).

(** One iteration of the loop of [_pack_chunks], on [(chunks, current)]. *)
Definition strict_pack_step (max_chars : Z) (acc : list str * str) (part : str)
    : list str * str :=
  let '(chunks, current) := acc in
  if negb (nonempty current) then (chunks, part)
  else
    let candidate_length := len current + 1 + len part in
    if candidate_length <=? max_chars then (chunks, current ++ [space] ++ part)
    else (chunks ++ [current], part).

(** [_pack_chunks] *)
Definition _pack_chunks (sentence_parts : list str) (max_chars : Z) : list str :=
  let '(chunks, current) :=
    fold_left (strict_pack_step max_chars) sentence_parts ([], []) in
  if nonempty current then chunks ++ [current] else chunks.

(** A word: at least one character, none of them satisfying [p]. *)
Definition word (p : ascii -> bool) (x : str) : Prop :=
  nonempty x = true /\ Forall (fun c => p c = false) x.

(** A run of whitespace. *)
Definition whitespace (g : str) : Prop := Forall (fun c => is_space c = true) g.

(** A text seen as leading whitespace followed by words, each with the
    whitespace after it. *)
Definition laid_out (lead : str) (pairs : list (str * str)) : str :=
  lead ++ concat (map (fun wg => fst wg ++ snd wg) pairs).

(** Every word but the last is followed by some whitespace. *)
Fixpoint separated (pairs : list (str * str)) : Prop :=
  match pairs with
  | [] => True
  | wg :: rest =>
      match rest with
      | [] => True
      | _ :: _ => snd wg <> [] /\ separated rest
      end
  end.

Definition layout (lead : str) (pairs : list (str * str)) : Prop :=
  whitespace lead
  /\ Forall (fun wg => word is_space (fst wg) /\ whitespace (snd wg)) pairs
  /\ separated pairs.

(** The state of a packing loop, seen as groups of fragments: the completed
    pieces are the joined [groups], the accumulator is the joined [group],
    and together they hold the fragments consumed so far, in order. *)
Definition groups_of (done_ : list str) (acc : list str * str)
    (groups : list (list str)) (group : list str) : Prop :=
  fst acc = map (join [space]) groups
  /\ snd acc = join [space] group
  /\ concat groups ++ group = done_
  /\ Forall (fun g => g <> []) groups.

(** Invariant of the packing loop of [_split_sentence]: the completed
    pieces and the accumulator stay within [bound]. *)
Definition packed_within (bound : Z) (acc : list str * str) : Prop :=
  Forall (fun c => len c <= bound) (fst acc) /\ len (snd acc) <= bound.

End Chunker.

(** ** Latency metrics ([metrics.py]) *)

Module Metrics.

Record ChunkMetrics : Type := {
  chunk_index : Z;
  char_len : Z;
  request_start : Q;
  first_frame : Q;
  playback_start : Q;
  chunk_complete : Q
}.

(** [max(a, b)] on floats: [b] when [b > a], else [a]. *)
Definition fmax (a b : Q) : Q := if Qle_bool b a then a else b.

(** [round(x)]: nearest integer, ties to the even one. *)
Definition round_half_even (x : Q) : Z :=
  let f := Qfloor x in
  let d := (x - inject_Z f)%Q in
  match (d ?= 1 # 2)%Q with
  | Lt => f
  | Gt => f + 1
  | Eq => if Z.even f then f else f + 1
  end.

(** [round(x, 6)] *)
Definition round6 (x : Q) : Q :=
  (inject_Z (round_half_even (x * 1000000)) / 1000000)%Q.

Definition synthesis_latency_ms (m : ChunkMetrics) : Q :=
  round6 (fmax 0 ((first_frame m - request_start m) * 1000))%Q.

Definition startup_latency_ms (m : ChunkMetrics) : Q :=
  round6 (fmax 0 ((playback_start m - request_start m) * 1000))%Q.

Definition buffer_fill_latency_ms (m : ChunkMetrics) : Q :=
  round6 (fmax 0 ((playback_start m - first_frame m) * 1000))%Q.

Fixpoint insert_sorted (x : Q) (l : list Q) : list Q :=
  match l with
  | [] => [x]
  | y :: l' => if Qle_bool y x then y :: insert_sorted x l' else x :: l
  end.

(** [sorted(values)] (stable) *)
Definition sorted (values : list Q) : list Q :=
  fold_left (fun acc x => insert_sorted x acc) values [].

(** [_percentile] *)
Definition _percentile (values : list Q) (percentile : Q) : Q :=
  if decide (values = []) then 0%Q
  else
    let ordered := sorted values in
    let rank := (percentile * inject_Z (Z.of_nat (length ordered) - 1))%Q in
    let lower := Qfloor rank in
    let upper := Qceiling rank in
    if lower =? upper then nth (Z.to_nat (Qfloor rank)) ordered 0%Q
    else
      let weight := (rank - inject_Z lower)%Q in
      (nth (Z.to_nat lower) ordered 0 * (1 - weight)
       + nth (Z.to_nat upper) ordered 0 * weight)%Q.

Record summary : Type := {
  p95_first_frame_ms : Q;
  p95_startup_ms : Q;
  avg_inter_chunk_gap_ms : Q
}.

Fixpoint gaps (metrics : list ChunkMetrics) : list Q :=
  match metrics with
  | prev :: ((next :: _) as rest) =>
      fmax 0 ((playback_start next - chunk_complete prev) * 1000)%Q :: gaps rest
  | _ => []
  end.

Definition qsum (l : list Q) : Q := fold_left Qplus l 0%Q.

(** [summarise_metrics] *)
Definition summarise_metrics (metrics : list ChunkMetrics) : summary :=
  if decide (metrics = []) then
    {| p95_first_frame_ms := 0; p95_startup_ms := 0; avg_inter_chunk_gap_ms := 0 |}
  else
    let first_frame_latencies := map synthesis_latency_ms metrics in
    let startup_latencies := map startup_latency_ms metrics in
    let g := gaps metrics in
    {| p95_first_frame_ms := _percentile first_frame_latencies (95 # 100);
       p95_startup_ms := _percentile startup_latencies (95 # 100);
       avg_inter_chunk_gap_ms :=
         if decide (g = []) then 0%Q
         else (qsum g / inject_Z (Z.of_nat (length g)))%Q |}.

End Metrics.

(** ** Phrase cache ([cache.py]) *)

Module Cache.

(** A [datetime]: the wall-clock fields as microseconds since the epoch, and
    the UTC offset (microseconds) when the value is timezone-aware. *)
Record datetime : Type := {
  wall : Z;
  tzoffset : option Z
}.

(** [dt.replace(tzinfo=timezone.utc)] *)
Definition replace_utc (dt : datetime) : datetime :=
  {| wall := wall dt; tzoffset := Some 0 |}.

(** The instant an aware datetime denotes, in UTC microseconds. *)
Definition instant (dt : datetime) : Z :=
  wall dt - default 0 (tzoffset dt).

(** [datetime.now(timezone.utc)] for the wall-clock reading [now]. *)
Definition utc (now : Z) : datetime := {| wall := now; tzoffset := Some 0 |}.

Record CachedItem : Type := {
  pcm : list byte;
  sample_rate : Z;
  created_at : datetime
}.

(** The file system under the cache directory.  A file whose [readable] flag
    is off makes [read_text]/[read_bytes] raise [PermissionError]; one whose
    [removable] flag is off (a read-only parent directory) makes [unlink]
    raise [PermissionError]. *)
Record file : Type := {
  data : list byte;
  readable : bool;
  removable : bool
}.

Abbreviation fs := (gmap string file).

Definition plain (b : list byte) : file :=
  {| data := b; readable := true; removable := true |}.

(** [path.exists()] *)
Definition exists_ (d : fs) (path : string) : bool :=
  match d !! path with Some _ => true | None => false end.

(** [path.read_bytes()] / [path.read_text(...)] before decoding *)
Definition read (d : fs) (path : string) : result (list byte) :=
  match d !! path with
  | None => Raise FileNotFoundError
  | Some f => if readable f then Ok (data f) else Raise PermissionError
  end.

(** [path.write_bytes(b)] / [path.write_text(...)]: creates the file, or
    replaces the content of an existing one, whose permissions stay. *)
Definition write (d : fs) (path : string) (b : list byte) : fs :=
  match d !! path with
  | None => <[path := plain b]> d
  | Some f => <[path := {| data := b; readable := readable f; removable := removable f |}]> d
  end.

(** [path.unlink()] *)
Definition unlink (d : fs) (path : string) : result unit * fs :=
  match d !! path with
  | None => (Raise FileNotFoundError, d)
  | Some f => if removable f then (Ok tt, delete path d) else (Raise PermissionError, d)
  end.

(** The library calls around the metadata document.  [parse_meta] stands
    for lines 58-60 of [get] applied to the bytes of the metadata file,
    [json.loads(text)], [datetime.fromisoformat(data["created_at"])] and
    [int(data["sample_rate"])]: it returns the two values or the exception
    Python raises ([JSONDecodeError] for invalid JSON, [KeyError] for a
    missing key, [ValueError] for a bad timestamp or number, [TypeError] when
    the document is not an object or a field has the wrong type).
    [render_meta created_at sample_rate byte_len] is the UTF-8 text of the
    [json.dumps] call in [put]. *)
Record codec : Type := {
  parse_meta : list byte -> result (datetime * Z);
  render_meta : datetime -> Z -> Z -> list byte
}.

Record PhraseCache : Type := {
  cache_dir : string;
  ttl : Z               (* [timedelta(seconds=ttl_seconds)], in microseconds *)
}.

(** [_paths_for_key] *)
Definition _paths_for_key (self : PhraseCache) (key : string) : string * string :=
  let shard := substring 0 2 key in
  let bucket := (cache_dir self ++ "/" ++ shard)%string in
  let pcm_path := (bucket ++ "/" ++ (key ++ ".pcm"))%string in
  let meta_path := (bucket ++ "/" ++ (key ++ ".json"))%string in
  (pcm_path, meta_path).

(** [_is_expired], with [now] the reading of [datetime.now(timezone.utc)] *)
Definition _is_expired (self : PhraseCache) (now : Z) (created_at : datetime) : bool :=
  now - instant created_at >? ttl self.

Definition is_FileNotFoundError (e : exn) : bool :=
  match e with FileNotFoundError => true | _ => false end.

Definition is_OSError (e : exn) : bool :=
  match e with FileNotFoundError | PermissionError | OSError => true | _ => false end.

Definition is_ValueError (e : exn) : bool :=
  match e with ValueError | JSONDecodeError => true | _ => false end.

Definition is_KeyError (e : exn) : bool :=
  match e with KeyError => true | _ => false end.

(** [_remove_files]: only [FileNotFoundError] is handled. *)
Fixpoint remove_paths (d : fs) (paths : list string) : result unit * fs :=
  match paths with
  | [] => (Ok tt, d)
  | path :: rest =>
      match unlink d path with
      | (Ok _, d') => remove_paths d' rest
      | (Raise e, d') =>
          if is_FileNotFoundError e then remove_paths d' rest
          else (Raise e, d')
      end
  end.

Definition _remove_files (d : fs) (pcm_path meta_path : string) : result unit * fs :=
  remove_paths d [pcm_path; meta_path].

(** The three places of [get] that run [_remove_files] and [return None]. *)
Definition drop_entry (d : fs) (pcm_path meta_path : string)
    : result (option CachedItem) * fs :=
  match _remove_files d pcm_path meta_path with
  | (Ok _, d') => (Ok None, d')
  | (Raise e, d') => (Raise e, d')
  end.

(** [PhraseCache.get] *)
Definition get (c : codec) (self : PhraseCache) (now : Z) (d : fs) (key : string)
    : result (option CachedItem) * fs :=
  let '(pcm_path, meta_path) := _paths_for_key self key in
  if negb (exists_ d meta_path) || negb (exists_ d pcm_path) then (Ok None, d)
  else
    let parsed :=
      match read d meta_path with
      | Ok text => parse_meta c text
      | Raise e => Raise e
      end in
    match parsed with
    | Raise e =>
        if is_OSError e || is_KeyError e || is_ValueError e
        then drop_entry d pcm_path meta_path
        else (Raise e, d)
    | Ok (created, rate) =>
        let created :=
          match tzoffset created with
          | None => replace_utc created
          | Some _ => created
          end in
        if _is_expired self now created then drop_entry d pcm_path meta_path
        else
          match read d pcm_path with
          | Raise e =>
              if is_OSError e then drop_entry d pcm_path meta_path
              else (Raise e, d)
          | Ok pcm_bytes =>
              (Ok (Some {| pcm := pcm_bytes; sample_rate := rate; created_at := created |}), d)
          end
    end.

(** [PhraseCache.put], with [now] the reading of [datetime.now(timezone.utc)] *)
Definition put (c : codec) (self : PhraseCache) (now : Z) (d : fs)
    (key : string) (pcm_bytes : list byte) (rate : Z) : fs :=
  let '(pcm_path, meta_path) := _paths_for_key self key in
  let d1 := write d pcm_path pcm_bytes in
  write d1 meta_path (render_meta c (utc now) rate (Z.of_nat (length pcm_bytes))).

Definition pcm_path_of (self : PhraseCache) (key : string) : string :=
  fst (_paths_for_key self key).

Definition meta_path_of (self : PhraseCache) (key : string) : string :=
  snd (_paths_for_key self key).

(** [path] does not hold a file that cannot be unlinked. *)
Definition removable_at (d : fs) (path : string) : Prop :=
  match d !! path with Some f => removable f = true | None => True end.

(** [path] is free, or holds a file that can be read and unlinked. *)
Definition healthy_at (d : fs) (path : string) : Prop :=
  match d !! path with
  | Some f => readable f = true /\ removable f = true
  | None => True
  end.

(** The read-path failures of [get] for an entry whose two files exist:
    the metadata cannot be read; it is read but [parse_meta] raises an
    exception of a class that [get] handles; its age exceeds the TTL; or the
    entry is current but the audio file cannot be read. *)
Inductive read_failure (c : codec) (self : PhraseCache) (now : Z) (d : fs)
    (key : string) : Prop :=
| meta_unreadable e :
    read d (meta_path_of self key) = Raise e ->
    read_failure c self now d key
| meta_malformed text e :
    read d (meta_path_of self key) = Ok text ->
    parse_meta c text = Raise e ->
    is_OSError e || is_KeyError e || is_ValueError e = true ->
    read_failure c self now d key
| entry_expired text created rate :
    read d (meta_path_of self key) = Ok text ->
    parse_meta c text = Ok (created, rate) ->
    now - (wall created - default 0 (tzoffset created)) > ttl self ->
    read_failure c self now d key
| audio_unreadable text created rate e :
    read d (meta_path_of self key) = Ok text ->
    parse_meta c text = Ok (created, rate) ->
    read d (pcm_path_of self key) = Raise e ->
    read_failure c self now d key.

(** [x.endswith(suffix)] *)
Definition ends_with (suffix x : string) : bool :=
  bool_decide (list_ascii_of_string suffix `suffix_of` list_ascii_of_string x).

(** The files that [self.cache_dir.rglob("*.json")] yields: those below the
    cache directory whose name ends in [.json].  The order in which a
    directory is listed is the operating system's; here it is that of the
    map. *)
Definition is_meta_file (self : PhraseCache) (path : string) : bool :=
  String.prefix (cache_dir self ++ "/") path && ends_with ".json" path.

Definition rglob_json (self : PhraseCache) (d : fs) : list string :=
  filter (fun path => is_meta_file self path = true) (map fst (map_to_list d)).

(** [meta_file.with_suffix(".pcm")] for a path whose name ends in [.json]:
    the suffix is replaced, except that a file named just [.json] has no
    suffix in the eyes of [pathlib], and gets one appended. *)
Definition with_suffix_pcm (meta_file : string) : string :=
  if ends_with "/.json" meta_file then (meta_file ++ ".pcm")%string
  else
    let l := list_ascii_of_string meta_file in
    (string_of_list_ascii (take (length l - 5) l) ++ ".pcm")%string.

(** A key without dots and slashes, as the hexadecimal digests of
    [make_cache_key] are. *)
Definition plain_key (key : string) : bool :=
  forallb (fun c => negb (Ascii.eqb c "."%char) && negb (Ascii.eqb c "/"%char))
          (list_ascii_of_string key).

(** [datetime.fromtimestamp(0, tz=timezone.utc)] *)
Definition epoch : datetime := utc 0.

(** The body of the loop of [_evict_expired] for one metadata file.
    [parse_created] stands for [json.loads(text)] followed by
    [datetime.fromisoformat(data.get("created_at", ""))] on the bytes of
    the file: a missing key makes it raise [ValueError], a document that is
    not an object makes it raise an exception that is not handled here.
    [now] is the reading of [datetime.now(timezone.utc)]. *)
Definition examine (parse_created : list byte -> result datetime)
    (self : PhraseCache) (now : Z) (d : fs) (meta_file : string) : result unit * fs :=
  let parsed :=
    match read d meta_file with
    | Ok text => parse_created text
    | Raise e => Raise e
    end in
  let created_at :=
    match parsed with
    | Ok created => Ok created
    | Raise e => if is_OSError e || is_ValueError e then Ok epoch else Raise e
    end in
  match created_at with
  | Raise e => (Raise e, d)
  | Ok created =>
      let created :=
        match tzoffset created with
        | None => replace_utc created
        | Some _ => created
        end in
      if _is_expired self now created
      then _remove_files d (with_suffix_pcm meta_file) meta_file
      else (Ok tt, d)
  end.

(** [_evict_expired] over the files [meta_files] that [rglob] yields;
    [now path] is the clock reading when [path] is examined. *)
Fixpoint _evict_expired (parse_created : list byte -> result datetime)
    (self : PhraseCache) (now : string -> Z) (d : fs) (meta_files : list string)
    : result unit * fs :=
  match meta_files with
  | [] => (Ok tt, d)
  | meta_file :: rest =>
      match examine parse_created self (now meta_file) d meta_file with
      | (Ok _, d') => _evict_expired parse_created self now d' rest
      | (Raise e, d') => (Raise e, d')
      end
  end.

(** [PhraseCache.__init__]; the directory itself is not part of the
    model, so that [mkdir] leaves no trace. *)
Definition init (parse_created : list byte -> result datetime) (dir : string)
    (ttl_seconds : Z) (now : string -> Z) (d : fs) : result PhraseCache * fs :=
  let self := {| cache_dir := dir; ttl := ttl_seconds * 1000000 |} in
  match _evict_expired parse_created self now d (rglob_json self d) with
  | (Ok _, d') => (Ok self, d')
  | (Raise e, d') => (Raise e, d')
  end.

(** A metadata file is [current] when it can be read and holds a creation
    time that has not expired at [now]. *)
Definition current (parse_created : list byte -> result datetime)
    (self : PhraseCache) (now : Z) (d : fs) (meta_file : string) : Prop :=
  exists text created,
    read d meta_file = Ok text
    /\ parse_created text = Ok created
    /\ now - (wall created - default 0 (tzoffset created)) <= ttl self.

(** *** Sample data

    A line-oriented stand-in for the JSON metadata document,
    [created_at,sample_rate,byte_len] in decimal, with the timestamp in UTC
    microseconds. *)
Definition decimal (z : Z) : string := NilZero.string_of_int (Z.to_int z).

Definition of_decimal (x : str) : option Z :=
  Z.of_int <$> NilZero.int_of_string (string_of_list_ascii x).

Definition sample_codec : codec := {|
  parse_meta := fun text =>
    match fields (Ascii.eqb ","%char) (map ascii_of_byte text) with
    | [a; b; _] =>
        match of_decimal a, of_decimal b with
        | Some created, Some rate => Ok (utc created, rate)
        | _, _ => Raise ValueError
        end
    | _ => Raise JSONDecodeError
    end;
  render_meta := fun created rate byte_len =>
    list_byte_of_string
      (decimal (instant created) ++ "," ++ decimal rate ++ "," ++ decimal byte_len)
|}.

Definition sample_cache : PhraseCache :=
  {| cache_dir := "cache"; ttl := 60 * 1000000 |}.

(** An entry whose metadata file cannot be read and whose audio file cannot
    be unlinked. *)
Definition locked_entry : fs :=
  <[ "cache/ab/abc123.pcm"%string :=
       {| data := [x00; x01]; readable := true; removable := false |} ]>
  (<[ "cache/ab/abc123.json"%string :=
       {| data := []; readable := false; removable := true |} ]> ∅).

End Cache.

(** ** Streaming controller ([streaming_controller.py]) *)

Module Controller.

Import Metrics.

(** [AudioFrame] and the values a provider's stream may yield. *)
Record AudioFrame : Type := {
  frame_pcm : list byte;
  frame_rate : Z
}.

Inductive item : Type :=
| Frame (f : AudioFrame)
| NotAFrame.

(** The keys of [cache_params] / [provider_settings] that the controller
    reads; [None] is an absent key. *)
Record settings : Type := {
  voice_id : option string;
  model_id : option string;
  stability : option Q;
  similarity : option Q;
  stability_boost : option Q;
  similarity_boost : option Q
}.

Definition no_settings : settings :=
  {| voice_id := None; model_id := None; stability := None; similarity := None;
     stability_boost := None; similarity_boost := None |}.

Definition override {A} (old new : option A) : option A :=
  match new with Some v => Some v | None => old end.

(** [params = dict(a); params.update(b)] *)
Definition update (a b : settings) : settings :=
  {| voice_id := override (voice_id a) (voice_id b);
     model_id := override (model_id a) (model_id b);
     stability := override (stability a) (stability b);
     similarity := override (similarity a) (similarity b);
     stability_boost := override (stability_boost a) (stability_boost b);
     similarity_boost := override (similarity_boost a) (similarity_boost b) |}.

(** The attributes of a [StreamingController] instance; [cache_enabled]
    says whether [self.cache] is set. *)
Record controller : Type := {
  metrics : list ChunkMetrics;
  cache_enabled : bool;
  cache_params : settings;
  max_retries : Z;
  prebuffer_ms : Z;
  chunk_max_chars : Z;
  _recent_metrics : list ChunkMetrics;
  _recent_underruns : list bool;
  _pending_underrun : bool
}.

(** Calls made on the collaborators, in program order. *)
Inductive event : Type :=
| Connect                                   (* provider.connect() *)
| Start (rate : Z)                          (* playback.start(sample_rate) *)
| Stream (chunk : str) (index : Z)          (* provider.stream(chunk, settings) *)
| Submit (f : AudioFrame)                   (* playback.submit(frame) *)
| FlushAndClose                             (* playback.flush_and_close() *)
| Close                                     (* provider.close() *)
| CacheGet (key : string)                   (* cache.get(key) *)
| CachePut (key : string) (b : list byte) (rate : Z)   (* cache.put(...) *)
| Clock                                     (* self._clock() *)
| Sleep (delay : Q).                        (* self._sleep(delay) *)

(** The collaborators.  Each answer may depend on the calls made so far.  A
    stream is the finite list of values the iterator yields, followed by the
    exception that ends it, if any. *)
Record env : Type := {
  e_chunker : str -> Z -> result (list str);
  e_connect : list event -> result unit;
  e_start : list event -> Z -> result unit;
  e_stream : list event -> str -> Z -> list item * option exn;
  e_submit : list event -> AudioFrame -> result unit;
  e_underrun : list event -> bool;   (* the sink calls register_underrun() *)
  e_flush_and_close : list event -> result unit;
  e_close : list event -> result unit;
  e_cache_get : list event -> string -> result (option Cache.CachedItem);
  e_cache_put : list event -> string -> list byte -> Z -> result unit;
  e_clock : list event -> Q;
  e_uniform : list event -> Q;       (* random.uniform(0.0, 0.1) *)
  e_sha256 : string * string * Q * Q * str -> string
}.

(** *** A state-and-exception monad over the controller and the call trace *)

Record world : Type := {
  self : controller;
  trace : list event
}.

Inductive outcome (A : Type) : Type :=
| Returns (a : A)
| Raises (e : exn)
| OutOfFuel.
Arguments Returns {A} a.
Arguments Raises {A} e.
Arguments OutOfFuel {A}.

Definition M (A : Type) : Type := world -> outcome A * world.

Definition ret {A} (a : A) : M A := fun w => (Returns a, w).
Definition raise {A} (e : exn) : M A := fun w => (Raises e, w).

Definition bind {A B} (m : M A) (k : A -> M B) : M B := fun w =>
  match m w with
  | (Returns a, w') => k a w'
  | (Raises e, w') => (Raises e, w')
  | (OutOfFuel, w') => (OutOfFuel, w')
  end.

Notation "x <- m ;; k" := (bind m (fun x => k))
  (at level 100, m at next level, k at level 200, right associativity).
Notation "m ;; k" := (bind m (fun _ => k))
  (at level 100, k at level 200, right associativity).

(** [try: body finally: fin] *)
Definition try_finally {A} (body : M A) (fin : M unit) : M A := fun w =>
  match body w with
  | (OutOfFuel, w') => (OutOfFuel, w')
  | (r, w') =>
      match fin w' with
      | (Returns _, w'') => (r, w'')
      | (Raises e, w'') => (Raises e, w'')
      | (OutOfFuel, w'') => (OutOfFuel, w'')
      end
  end.

Definition of_result {A} (r : result A) : outcome A :=
  match r with Ok a => Returns a | Raise e => Raises e end.

(** A call on a collaborator: the answer is computed from the calls made so
    far, and the call is appended to the trace. *)
Definition push (ev : event) (w : world) : world :=
  {| self := self w; trace := trace w ++ [ev] |}.

Definition call {A} (ev : event) (answer : list event -> result A) : M A := fun w =>
  (of_result (answer (trace w)), push ev w).

Definition get_self : M controller := fun w => (Returns (self w), w).

Definition modify (f : controller -> controller) : M unit := fun w =>
  (Returns tt, {| self := f (self w); trace := trace w |}).

Definition set_metrics (v : list ChunkMetrics) (c : controller) : controller :=
  {| metrics := v; cache_enabled := cache_enabled c; cache_params := cache_params c;
     max_retries := max_retries c; prebuffer_ms := prebuffer_ms c;
     chunk_max_chars := chunk_max_chars c; _recent_metrics := _recent_metrics c;
     _recent_underruns := _recent_underruns c; _pending_underrun := _pending_underrun c |}.

Definition set_prebuffer_ms (v : Z) (c : controller) : controller :=
  {| metrics := metrics c; cache_enabled := cache_enabled c; cache_params := cache_params c;
     max_retries := max_retries c; prebuffer_ms := v;
     chunk_max_chars := chunk_max_chars c; _recent_metrics := _recent_metrics c;
     _recent_underruns := _recent_underruns c; _pending_underrun := _pending_underrun c |}.

Definition set_chunk_max_chars (v : Z) (c : controller) : controller :=
  {| metrics := metrics c; cache_enabled := cache_enabled c; cache_params := cache_params c;
     max_retries := max_retries c; prebuffer_ms := prebuffer_ms c;
     chunk_max_chars := v; _recent_metrics := _recent_metrics c;
     _recent_underruns := _recent_underruns c; _pending_underrun := _pending_underrun c |}.

Definition set_recent_metrics (v : list ChunkMetrics) (c : controller) : controller :=
  {| metrics := metrics c; cache_enabled := cache_enabled c; cache_params := cache_params c;
     max_retries := max_retries c; prebuffer_ms := prebuffer_ms c;
     chunk_max_chars := chunk_max_chars c; _recent_metrics := v;
     _recent_underruns := _recent_underruns c; _pending_underrun := _pending_underrun c |}.

Definition set_recent_underruns (v : list bool) (c : controller) : controller :=
  {| metrics := metrics c; cache_enabled := cache_enabled c; cache_params := cache_params c;
     max_retries := max_retries c; prebuffer_ms := prebuffer_ms c;
     chunk_max_chars := chunk_max_chars c; _recent_metrics := _recent_metrics c;
     _recent_underruns := v; _pending_underrun := _pending_underrun c |}.

Definition set_pending_underrun (v : bool) (c : controller) : controller :=
  {| metrics := metrics c; cache_enabled := cache_enabled c; cache_params := cache_params c;
     max_retries := max_retries c; prebuffer_ms := prebuffer_ms c;
     chunk_max_chars := chunk_max_chars c; _recent_metrics := _recent_metrics c;
     _recent_underruns := _recent_underruns c; _pending_underrun := v |}.

(** *** Pure helpers *)

(** [int(x)] on a float: truncation toward zero. *)
Definition py_int (x : Q) : Z := Z.quot (Qnum x) (Z.pos (Qden x)).

(** [round(x, 4)] *)
Definition round4 (x : Q) : Q :=
  (inject_Z (round_half_even (x * 10000)) / 10000)%Q.

(** [make_cache_key]: SHA-256 of the canonical JSON of the five fields. *)
Definition make_cache_key (e : env) (voice model : string) (stab sim : Q)
    (chunk_text : str) : string :=
  e_sha256 e (voice, model, round4 stab, round4 sim, chunk_text).

(** [_compute_cache_key] *)
Definition _compute_cache_key (e : env) (c : controller) (chunk : str)
    (sett : settings) : option string :=
  if negb (cache_enabled c) then None
  else
    let params := update (cache_params c) sett in
    let voice := default EmptyString (voice_id params) in
    let model := default EmptyString (model_id params) in
    let stab := default (default 0%Q (stability_boost params)) (stability params) in
    let sim := default (default 0%Q (similarity_boost params)) (similarity params) in
    if String.eqb voice EmptyString || String.eqb model EmptyString then None
    else Some (make_cache_key e voice model stab sim chunk).

(** [_compute_backoff]; [jitter] is the value drawn by
    [random.uniform(0.0, 0.1)].  [if retry_after:] is false for [None] and
    for [0.0]. *)
Definition _compute_backoff (attempt : Z) (retry_after : option Q) (jitter : Q) : Q :=
  let base := ((3 # 10) * 2 ^ (attempt - 1))%Q in
  match retry_after with
  | Some r => if Qeq_bool r 0 then (base + jitter)%Q else (fmax r base + jitter)%Q
  | None => (base + jitter)%Q
  end.

Definition count_true (l : list bool) : Z :=
  Z.of_nat (length (filter (fun b => b = true) l)).

(** [l[-5:]] *)
Definition last5 {A} (l : list A) : list A := drop (length l - 5) l.

(** [_apply_adaptive_logic] *)
Definition _apply_adaptive_logic (c : controller) : controller :=
  let c1 :=
    if (count_true (_recent_underruns c) >? 2) && (prebuffer_ms c <? 200) then
      let new_prebuffer := Z.min 200 (prebuffer_ms c + 20) in
      if negb (new_prebuffer =? prebuffer_ms c) then set_prebuffer_ms new_prebuffer c
      else c
    else c in
  if (5 <=? Z.of_nat (length (_recent_metrics c1))) then
    let recent := last5 (_recent_metrics c1) in
    let summary := summarise_metrics recent in
    if Qle_bool (p95_first_frame_ms summary) 600 then c1
    else
      let new_chunk := Z.max 80 (py_int (inject_Z (chunk_max_chars c1) * (8 # 10))) in
      if new_chunk <? chunk_max_chars c1 then set_chunk_max_chars new_chunk c1
      else c1
  else c1.

(** [list.pop(0)] when the list is longer than 5 *)
Definition cap5 {A} (l : list A) : list A :=
  if (5 <? length l)%nat then tail l else l.

(** [_record_metric].  Its first statement calls [_record_metric] itself
    with the same arguments; [depth] is the number of stack frames the
    interpreter still allows, and a call at depth [0] raises
    [RecursionError]. *)
Fixpoint _record_metric (depth : nat) (metric : ChunkMetrics) (underrun : bool)
    : M unit :=
  match depth with
  | O => raise RecursionError
  | S depth' =>
      _record_metric depth' metric underrun ;;
      modify (fun c => set_recent_metrics (_recent_metrics c ++ [metric]) c) ;;
      modify (fun c => set_recent_underruns (_recent_underruns c ++ [underrun]) c) ;;
      modify (fun c => set_recent_metrics (cap5 (_recent_metrics c)) c) ;;
      modify (fun c => set_recent_underruns (cap5 (_recent_underruns c)) c) ;;
      modify _apply_adaptive_logic
  end.

(** [register_underrun] *)
Definition register_underrun : M unit := modify (set_pending_underrun true).

(** [_consume_pending_underrun] *)
Definition _consume_pending_underrun : M bool :=
  c <- get_self ;;
  modify (set_pending_underrun false) ;;
  ret (_pending_underrun c).

(** *** Calls on the collaborators *)

Definition clock (e : env) : M Q := call Clock (fun t => Ok (e_clock e t)).

(** [self.playback.submit(frame)]; the sink may signal an underrun while
    the frame is written. *)
Definition submit (e : env) (f : AudioFrame) : M unit :=
  w0 <- (fun w => (Returns (trace w), w)) ;;
  call (Submit f) (fun t => e_submit e t f) ;;
  if e_underrun e w0 then register_underrun else ret tt.

Fixpoint submit_all (e : env) (frames : list AudioFrame) : M unit :=
  match frames with
  | [] => ret tt
  | f :: rest => submit e f ;; submit_all e rest
  end.

(** [range(0, stop, step)] for [step > 0] *)
Definition range_step (stop step : nat) : list nat :=
  map (fun i => (i * step)%nat) (seq 0 ((stop + step - 1) / step)).

(** [_play_cached_item] *)
Definition _play_cached_item (e : env) (cached : Cache.CachedItem) (sample_rate : Z)
    : M unit :=
  let slice_samples := Z.max 1 (py_int (inject_Z sample_rate * (1 # 10))) in
  let bytes_per_sample := 2 in
  let chunk_size := Z.to_nat (slice_samples * bytes_per_sample) in
  let frames :=
    flat_map (fun offset =>
                let frame_bytes := take chunk_size (drop offset (Cache.pcm cached)) in
                match frame_bytes with
                | [] => []
                | _ => [{| frame_pcm := frame_bytes; frame_rate := sample_rate |}]
                end)
             (range_step (length (Cache.pcm cached)) chunk_size) in
  submit_all e frames.

(** The body of [for frame in self.provider.stream(...)], threaded over
    [(first_frame_ts, playback_start_ts, buffered_audio)]. *)
Fixpoint stream_loop (e : env) (items : list item)
    (st : option Q * option Q * list byte) : M (option Q * option Q * list byte) :=
  match items with
  | [] => ret st
  | NotAFrame :: _ => raise TypeError
  | Frame f :: rest =>
      let '(first_frame_ts, playback_start_ts, buffered_audio) := st in
      now <- clock e ;;
      let first_frame_ts := match first_frame_ts with None => Some now | v => v end in
      let playback_start_ts := match playback_start_ts with None => Some now | v => v end in
      submit e f ;;
      stream_loop e rest (first_frame_ts, playback_start_ts, buffered_audio ++ frame_pcm f)
  end.

(** [x or y] for an optional float [x]: [None] and [0.0] are false. *)
Definition or_else (x : option Q) (y : Q) : Q :=
  match x with
  | Some v => if Qeq_bool v 0 then y else v
  | None => y
  end.

(** The truth value of [cache_key and self.cache]. *)
Definition usable_key (c : controller) (cache_key : option string) : option string :=
  match cache_key with
  | Some k => if negb (String.eqb k EmptyString) && cache_enabled c then Some k else None
  | None => None
  end.

(** [_process_chunk] from [request_start = self._clock()] on: the cache-miss
    path. *)
Definition synthesize (e : env) (index : Z) (chunk : str) (sample_rate : Z)
    (key : option string) : M (ChunkMetrics * bool) :=
  request_start <- clock e ;;
  stream <- call (Stream chunk index) (fun t => Ok (e_stream e t chunk index)) ;;
  let '(items, failure) := stream in
  st <- stream_loop e items (None, None, []) ;;
  match failure with Some ex => raise ex | None => ret tt end ;;
  let '(first_frame_ts, playback_start_ts, buffered_audio) := st in
  chunk_complete <- clock e ;;
  match key, buffered_audio with
  | Some k, _ :: _ => call (CachePut k buffered_audio sample_rate)
                           (fun t => e_cache_put e t k buffered_audio sample_rate)
  | _, _ => ret tt
  end ;;
  underrun_flag <- _consume_pending_underrun ;;
  ret ({| chunk_index := index;
          char_len := len chunk;
          request_start := request_start;
          first_frame := or_else first_frame_ts chunk_complete;
          playback_start := or_else playback_start_ts chunk_complete;
          chunk_complete := chunk_complete |}, underrun_flag).

(** [_process_chunk] inside [if cached:]: the cache-hit path. *)
Definition replay (e : env) (index : Z) (chunk : str) (sample_rate : Z)
    (cached : Cache.CachedItem) : M (ChunkMetrics * bool) :=
  request_start <- clock e ;;
  _play_cached_item e cached sample_rate ;;
  chunk_complete <- clock e ;;
  underrun_flag <- _consume_pending_underrun ;;
  ret ({| chunk_index := index;
          char_len := len chunk;
          request_start := request_start;
          first_frame := request_start;
          playback_start := request_start;
          chunk_complete := chunk_complete |}, underrun_flag).

(** [_process_chunk] *)
Definition _process_chunk (e : env) (index : Z) (chunk : str) (sample_rate : Z)
    (provider_settings : option settings) : M (ChunkMetrics * bool) :=
  c <- get_self ;;
  let base_settings := default no_settings provider_settings in
  let cache_key := _compute_cache_key e c chunk base_settings in
  match usable_key c cache_key with
  | Some k =>
      cached <- call (CacheGet k) (fun t => e_cache_get e t k) ;;
      match cached with
      | Some hit => replay e index chunk sample_rate hit
      | None => synthesize e index chunk sample_rate (Some k)
      end
  | None => synthesize e index chunk sample_rate None
  end.

(** [getattr(exc, "retry_after", None)] *)
Definition retry_after_of (ex : exn) : option Q :=
  match ex with
  | ProviderRateLimitError r => r
  | _ => None
  end.

Definition is_transient (ex : exn) : bool :=
  match ex with
  | ProviderNetworkError | ProviderRateLimitError _ => true
  | _ => false
  end.

(** The body of the [try] in the retry loop: [_process_chunk], then
    [_record_metric] on its result. *)
Definition attempt (e : env) (depth : nat) (index : Z) (chunk : str)
    (sample_rate : Z) (provider_settings : option settings) : M unit :=
  r <- _process_chunk e index chunk sample_rate provider_settings ;;
  _record_metric depth (fst r) (snd r).

(** The [while True] retry loop around one chunk.  [fuel] bounds the number
    of iterations; [run] supplies enough of it. *)
Fixpoint attempt_loop (e : env) (depth fuel : nat) (attempts : Z) (index : Z)
    (chunk : str) (sample_rate : Z) (provider_settings : option settings) : M unit :=
  match fuel with
  | O => fun w => (OutOfFuel, w)
  | S fuel' => fun w =>
      match attempt e depth index chunk sample_rate provider_settings w with
      | (Returns _, w') => (Returns tt, w')                       (* break *)
      | (OutOfFuel, w') => (OutOfFuel, w')
      | (Raises ex, w') =>
          if is_transient ex then
            let attempts := attempts + 1 in
            if attempts >? max_retries (self w') then (Raises ex, w')
            else
              let delay :=
                _compute_backoff attempts (retry_after_of ex) (e_uniform e (trace w')) in
              (call (Sleep delay) (fun _ => Ok tt) ;;
               attempt_loop e depth fuel' attempts index chunk sample_rate
                            provider_settings) w'
          else (Raises ex, w')       (* auth, connection and any other error *)
      end
  end.

(** [for index, chunk in enumerate(chunks)] *)
Fixpoint chunk_loop (e : env) (depth : nat) (index : Z) (chunks : list str)
    (sample_rate : Z) (provider_settings : option settings) : M unit :=
  match chunks with
  | [] => ret tt
  | chunk :: rest =>
      c <- get_self ;;
      attempt_loop e depth (S (Z.to_nat (max_retries c))) 0 index chunk sample_rate
                   provider_settings ;;
      chunk_loop e depth (index + 1) rest sample_rate provider_settings
  end.

(** The [finally] clause of [run] *)
Definition release (e : env) : M unit :=
  call FlushAndClose (e_flush_and_close e) ;;
  call Close (e_close e).

(** [StreamingController.run].  In the source, the two assignments to
    [chunk_limit] and [chunks] share line 70 with the end of the signature,
    separated by the two characters backslash and n; they are read as the
    two statements they spell. *)
Definition run (e : env) (depth : nat) (text : str) (sample_rate : Z)
    (max_chars : option Z) (provider_settings : option settings)
    : M (list ChunkMetrics) :=
  c <- get_self ;;
  let chunk_limit := default (chunk_max_chars c) max_chars in
  chunks <- (fun w => (of_result (e_chunker e text chunk_limit), w)) ;;
  match chunks with
  | [] => ret (metrics c)
  | _ :: _ =>
      call Connect (e_connect e) ;;
      call (Start sample_rate) (fun t => e_start e t sample_rate) ;;
      try_finally
        (chunk_loop e depth 0 chunks sample_rate provider_settings)
        (release e) ;;
      c' <- get_self ;;
      ret (metrics c')
  end.

(** *** Auxiliary notions for the proofs *)


(** The first adjustment of [_apply_adaptive_logic], on its own. *)
Definition prebuffer_step (c : controller) : controller :=
  if (count_true (_recent_underruns c) >? 2) && (prebuffer_ms c <? 200) then
    if negb (Z.min 200 (prebuffer_ms c + 20) =? prebuffer_ms c)
    then set_prebuffer_ms (Z.min 200 (prebuffer_ms c + 20)) c
    else c
  else c.

(** The attributes that nothing in [run] assigns. *)
Definition config (c : controller) : Z * bool * settings * list ChunkMetrics :=
  (max_retries c, cache_enabled c, cache_params c, metrics c).

(** The world once [provider.connect()] and [playback.start(rate)] have
    been called. *)
Definition started (rate : Z) (w : world) : world := push (Start rate) (push Connect w).

(** A computation is [steady] when it never runs out of fuel, leaves the
    configuration alone and only appends to the trace. *)
Definition steady {A} (m : M A) : Prop :=
  forall w,
    fst (m w) <> OutOfFuel
    /\ config (self (snd (m w))) = config (self w)
    /\ trace w `prefix_of` trace (snd (m w)).

Definition is_cache_get (ev : event) : bool :=
  match ev with CacheGet _ => true | _ => false end.

Definition is_release (ev : event) : bool :=
  match ev with FlushAndClose | Close => true | _ => false end.

(** The calls of a trace that satisfy [p], in order. *)
Definition calls (p : event -> bool) (t : list event) : list event :=
  filter (fun ev => p ev = true) t.

(** A computation [appends p] when all it does to the trace is to append
    calls that satisfy [p]. *)
Definition appends (p : event -> bool) {A} (m : M A) : Prop :=
  forall w, exists rest,
    trace (snd (m w)) = trace w ++ rest /\ Forall (fun ev => p ev = true) rest.

Definition is_sleep (ev : event) : bool :=
  match ev with Sleep _ => true | _ => false end.

Definition is_cache_call (ev : event) : bool :=
  match ev with CacheGet _ | CachePut _ _ _ => true | _ => false end.

(** Calls that open or close the provider connection and the sink. *)
Definition is_lifecycle (ev : event) : bool :=
  match ev with Connect | Start _ | FlushAndClose | Close => true | _ => false end.

(** The calls [_process_chunk] can make. *)
Definition is_chunk_call (ev : event) : bool :=
  match ev with
  | Stream _ _ | Submit _ | CacheGet _ | CachePut _ _ _ | Clock => true
  | _ => false
  end.

(** The calls [_process_chunk] can make without a cache key. *)
Definition is_plain_call (ev : event) : bool :=
  match ev with Stream _ _ | Submit _ | Clock => true | _ => false end.

(** The calls of a replay from the cache. *)
Definition is_replay_call (ev : event) : bool :=
  match ev with Submit _ | Clock => true | _ => false end.

(** The calls the loop over the chunks can make. *)
Definition is_loop_call (ev : event) : bool := is_chunk_call ev || is_sleep ev.

(** The frames [_play_cached_item] submits. *)
Definition cached_frames (cached : Cache.CachedItem) (sample_rate : Z)
    : list AudioFrame :=
  let slice_samples := Z.max 1 (py_int (inject_Z sample_rate * (1 # 10))) in
  let chunk_size := Z.to_nat (slice_samples * 2) in
  flat_map (fun offset =>
              match take chunk_size (drop offset (Cache.pcm cached)) with
              | [] => []
              | frame_bytes => [{| frame_pcm := frame_bytes; frame_rate := sample_rate |}]
              end)
           (range_step (length (Cache.pcm cached)) chunk_size).

Definition is_cache_put (ev : event) : bool :=
  match ev with CachePut _ _ _ => true | _ => false end.

(** The cache lookup of [_process_chunk], made when there is a usable key. *)
Definition lookup (key : option string) : list event :=
  match key with Some k => [CacheGet k] | None => [] end.

(** The cache write of [_process_chunk], made when there is a usable key
    and some audio was buffered. *)
Definition store (key : option string) (audio : list byte) (sample_rate : Z)
    : list event :=
  match key, audio with
  | Some k, _ :: _ => [CachePut k audio sample_rate]
  | _, _ => []
  end.

(** The calls of a stream whose frames are all played. *)
Definition played (frames : list AudioFrame) : list event :=
  flat_map (fun f => [Clock; Submit f]) frames.

(** *** Sample data *)

(** A controller as [__init__] leaves it with the default arguments. *)
Definition sample_controller : controller :=
  {| metrics := []; cache_enabled := false; cache_params := no_settings;
     max_retries := 2; prebuffer_ms := 80; chunk_max_chars := 200;
     _recent_metrics := []; _recent_underruns := []; _pending_underrun := false |}.

(** A chunk whose first frame arrived one second after the request. *)
Definition slow_metric : ChunkMetrics :=
  {| chunk_index := 0; char_len := 50; request_start := 0; first_frame := 1;
     playback_start := 105 # 100; chunk_complete := 13 # 10 |}.

(** A controller with a phrase cache and the voice and model of the cache
    test. *)
Definition caching_controller : controller :=
  {| metrics := []; cache_enabled := true;
     cache_params := {| voice_id := Some "voice"%string; model_id := Some "model"%string;
                        stability := Some (5 # 10); similarity := Some (8 # 10);
                        stability_boost := None; similarity_boost := None |};
     max_retries := 2; prebuffer_ms := 80; chunk_max_chars := 200;
     _recent_metrics := []; _recent_underruns := []; _pending_underrun := false |}.

Definition fresh (c : controller) : world := {| self := c; trace := [] |}.

Definition is_stream (ev : event) : bool :=
  match ev with Stream _ _ => true | _ => false end.

Definition sample_frame : AudioFrame :=
  {| frame_pcm := [x00; x00]; frame_rate := 16000 |}.

(** A provider whose every stream is one frame. *)
Definition one_frame (t : list event) : list item * option exn :=
  ([Frame sample_frame], None).

(** The provider of the retry test: the first stream raises a rate-limit
    error with a hint of 50 ms, the later ones are one frame. *)
Definition flaky_once (t : list event) : list item * option exn :=
  match calls is_stream t with
  | [] => ([], Some (ProviderRateLimitError (Some (5 # 100))))
  | _ => ([Frame sample_frame], None)
  end.

(** Collaborators that succeed, around the given [playback.start] answer
    and provider streams; the cache is empty and the clock ticks once per
    call. *)
Definition sample_env (start : result unit)
    (stream : list event -> list item * option exn) : env :=
  {| e_chunker := Chunker.chunk_text;
     e_connect := fun _ => Ok tt;
     e_start := fun _ _ => start;
     e_stream := fun t _ _ => stream t;
     e_submit := fun _ _ => Ok tt;
     e_underrun := fun _ => false;
     e_flush_and_close := fun _ => Ok tt;
     e_close := fun _ => Ok tt;
     e_cache_get := fun _ _ => Ok None;
     e_cache_put := fun _ _ _ _ => Ok tt;
     e_clock := fun t => inject_Z (Z.of_nat (length t));
     e_uniform := fun _ => 5 # 100;
     e_sha256 := fun _ => "fingerprint"%string |}.

(** A cached phrase of three 16-bit samples. *)
Definition cached_phrase : Cache.CachedItem :=
  {| Cache.pcm := [x01; x00; x02; x00; x03; x00]; Cache.sample_rate := 10;
     Cache.created_at := Cache.utc 0 |}.

(** Collaborators that succeed, around a cache that answers every lookup
    with [cache_answer] and a provider whose every stream is [stream]. *)
Definition caching_env (cache_answer : option Cache.CachedItem)
    (stream : list item * option exn) : env :=
  {| e_chunker := Chunker.chunk_text;
     e_connect := fun _ => Ok tt;
     e_start := fun _ _ => Ok tt;
     e_stream := fun _ _ _ => stream;
     e_submit := fun _ _ => Ok tt;
     e_underrun := fun _ => false;
     e_flush_and_close := fun _ => Ok tt;
     e_close := fun _ => Ok tt;
     e_cache_get := fun _ _ => Ok cache_answer;
     e_cache_put := fun _ _ _ _ => Ok tt;
     e_clock := fun t => inject_Z (Z.of_nat (length t));
     e_uniform := fun _ => 5 # 100;
     e_sha256 := fun _ => "fingerprint"%string |}.

Definition underrun_controller : controller :=
  set_prebuffer_ms 190 (set_recent_underruns [true; true; true] sample_controller).

Definition slow_controller : controller :=
  set_chunk_max_chars 102 (set_recent_metrics (repeat slow_metric 5) sample_controller).

End Controller.

(** ** [wav_saver.py]: the streaming WAV writer

    The file at [self.path] is its content as seen through the open handle;
    the operating system is taken not to fail ([mkdir], [open], [write],
    [seek] and [close] raise nothing), so that the exceptions left are the
    ones the Python code itself can raise. *)

Module WavSaver.

(** Exceptions of the audio sinks: those of [exn], and [struct.error]. *)
Inductive error : Type :=
| Exn (e : exn)
| struct_error.

Inductive sink_result (A : Type) : Type :=
| Done (a : A)
| Fail (e : error).
Arguments Done {A} a.
Arguments Fail {A} e.

Definition to_byte (v : Z) : byte := default x00 (Byte.of_N (Z.to_N (v mod 256))).

(** The [n] low bytes of [v], least significant first. *)
Fixpoint le_bytes (n : nat) (v : Z) : list byte :=
  match n with
  | O => []
  | S n' => to_byte v :: le_bytes n' (v / 256)
  end.

(** [int.from_bytes(b, "little")] *)
Fixpoint le_value (b : list byte) : Z :=
  match b with
  | [] => 0
  | x :: rest => Z.of_N (Byte.to_N x) + 256 * le_value rest
  end.

(** [struct.pack("<I", v)] for [width = 4] and [struct.pack("<H", v)] for
    [width = 2]: [struct.error] when [v] does not fit. *)
Definition pack (width : nat) (v : Z) : sink_result (list byte) :=
  if (0 <=? v) && (v <? 2 ^ (8 * Z.of_nat width)) then Done (le_bytes width v)
  else Fail struct_error.

(** [struct.pack("<HHIIHH", a, b, c, d, e, f)] *)
Definition pack_HHIIHH (a b c d e f : Z) : sink_result (list byte) :=
  match pack 2 a, pack 2 b, pack 4 c, pack 4 d, pack 2 e, pack 2 f with
  | Done a', Done b', Done c', Done d', Done e', Done f' =>
      Done (a' ++ b' ++ c' ++ d' ++ e' ++ f')
  | _, _, _, _, _, _ => Fail struct_error
  end.

Definition RIFF : list byte := [x52; x49; x46; x46].
Definition WAVE : list byte := [x57; x41; x56; x45].
Definition fmt_ : list byte := [x66; x6d; x74; x20].
Definition data_ : list byte := [x64; x61; x74; x61].

(** A [WavSink]: [path] is the content of the file at [self.path] ([None]
    when there is no such file), [_fh] the position of the open handle. *)
Record WavSink : Type := {
  path : option (list byte);
  _fh : option nat;
  _sample_rate : option Z;
  _bytes_written : Z
}.

(** [WavSink(path)], where the file at [path] holds [existing]. *)
Definition new (existing : option (list byte)) : WavSink :=
  {| path := existing; _fh := None; _sample_rate := None; _bytes_written := 0 |}.

(** A computation on a sink, which may raise. *)
Definition W (A : Type) : Type := WavSink -> sink_result A * WavSink.

Definition bind {A B} (m : W A) (k : A -> W B) : W B := fun s =>
  match m s with
  | (Done a, s') => k a s'
  | (Fail e, s') => (Fail e, s')
  end.

Definition lift {A} (r : sink_result A) : W A := fun s => (r, s).

(** [self._fh.write(b)]: the bytes replace those at the position, the file
    growing as needed (with zeros up to the position, if it lies beyond the
    end). *)
Definition fh_write (b : list byte) : W unit := fun s =>
  match _fh s with
  | Some p =>
      let c := default [] (path s) in
      (Done tt,
       {| path := Some (take p c ++ replicate (p - length c) x00 ++ b
                        ++ drop (p + length b) c);
          _fh := Some (p + length b)%nat;
          _sample_rate := _sample_rate s;
          _bytes_written := _bytes_written s |})
  | None => (Done tt, s)
  end.

(** [self._fh.seek(p)] *)
Definition fh_seek (p : nat) : W unit := fun s =>
  (Done tt,
   {| path := path s; _fh := match _fh s with Some _ => Some p | None => None end;
      _sample_rate := _sample_rate s; _bytes_written := _bytes_written s |}).

(** [self._fh.seek(0, 2)] *)
Definition fh_seek_end : W unit := fun s =>
  fh_seek (length (default [] (path s))) s.

(** [_write_header_placeholder] *)
Definition _write_header_placeholder (sample_rate : Z) : W unit :=
  bind (fh_write RIFF) (fun _ =>
  bind (lift (pack 4 0)) (fun size =>
  bind (fh_write size) (fun _ =>
  bind (fh_write WAVE) (fun _ =>
  bind (fh_write fmt_) (fun _ =>
  bind (lift (pack 4 16)) (fun length_ =>
  bind (fh_write length_) (fun _ =>
  bind (lift (pack_HHIIHH 1 1 sample_rate (sample_rate * 2) 2 16)) (fun fields =>
  bind (fh_write fields) (fun _ =>
  bind (fh_write data_) (fun _ =>
  bind (lift (pack 4 0)) (fun size =>
  fh_write size))))))))))).

(** [_finalise_header] *)
Definition _finalise_header : W unit := fun s =>
  let data_chunk_size := _bytes_written s in
  let riff_chunk_size := 36 + data_chunk_size in
  bind (fh_seek 4) (fun _ =>
  bind (lift (pack 4 riff_chunk_size)) (fun size =>
  bind (fh_write size) (fun _ =>
  bind (fh_seek 40) (fun _ =>
  bind (lift (pack 4 data_chunk_size)) (fun size =>
  bind (fh_write size) (fun _ =>
  fh_seek_end)))))) s.

(** [WavSink.start]; [self.path.open("wb")] creates or empties the file. *)
Definition start (sample_rate : Z) : W unit := fun s =>
  match _fh s with
  | Some _ => (Fail (Exn RuntimeError), s)
  | None =>
      _write_header_placeholder sample_rate
        {| path := Some []; _fh := Some 0%nat; _sample_rate := Some sample_rate;
           _bytes_written := _bytes_written s |}
  end.

(** [WavSink.write] *)
Definition write (pcm_bytes : list byte) : W unit := fun s =>
  match _fh s, _sample_rate s with
  | Some _, Some _ =>
      match pcm_bytes with
      | [] => (Done tt, s)
      | _ :: _ =>
          bind (fh_write pcm_bytes) (fun _ s' =>
            (Done tt,
             {| path := path s'; _fh := _fh s'; _sample_rate := _sample_rate s';
                _bytes_written := _bytes_written s' + Z.of_nat (length pcm_bytes) |})) s
      end
  | _, _ => (Fail (Exn RuntimeError), s)
  end.

(** [WavSink.close] *)
Definition close : W unit := fun s =>
  match _fh s with
  | None => (Done tt, s)
  | Some _ =>
      bind _finalise_header (fun _ s' =>
        (Done tt,
         {| path := path s'; _fh := None; _sample_rate := None; _bytes_written := 0 |})) s
  end.

(** [write] for each of [chunks] in turn, up to the first one that raises. *)
Fixpoint write_all (chunks : list (list byte)) : W unit :=
  match chunks with
  | [] => lift (Done tt)
  | b :: rest => bind (write b) (fun _ => write_all rest)
  end.

(** The 44 bytes of a canonical header for [size] bytes of mono 16-bit
    audio at [sample_rate]. *)
Definition header (sample_rate size : Z) : list byte :=
  RIFF ++ le_bytes 4 (36 + size) ++ WAVE ++ fmt_ ++ le_bytes 4 16
  ++ le_bytes 2 1 ++ le_bytes 2 1 ++ le_bytes 4 sample_rate
  ++ le_bytes 4 (sample_rate * 2) ++ le_bytes 2 2 ++ le_bytes 2 16
  ++ data_ ++ le_bytes 4 size.

(** The header as [_write_header_placeholder] leaves it, both sizes zero. *)
Definition placeholder (sample_rate : Z) : list byte :=
  RIFF ++ le_bytes 4 0 ++ WAVE ++ fmt_ ++ le_bytes 4 16
  ++ le_bytes 2 1 ++ le_bytes 2 1 ++ le_bytes 4 sample_rate
  ++ le_bytes 4 (sample_rate * 2) ++ le_bytes 2 2 ++ le_bytes 2 16
  ++ data_ ++ le_bytes 4 0.

(** A sink that is open at the end of a file holding the placeholder header
    and then [audio], all of it counted. *)
Definition recording (sample_rate : Z) (audio : list byte) : WavSink :=
  {| path := Some (placeholder sample_rate ++ audio);
     _fh := Some (length (placeholder sample_rate ++ audio));
     _sample_rate := Some sample_rate;
     _bytes_written := Z.of_nat (length audio) |}.

(** [b[i:j]] *)
Definition bytes_slice (i j : nat) (b : list byte) : list byte :=
  take (j - i) (drop i b).

End WavSaver.

(** ** [playback.py]: the playback engine

    The [sounddevice] stream is outside the program: the calls made on it
    are recorded, and [fails] tells, from the calls made so far (the last
    one being the call at hand), whether that call raises
    [PortAudioError]. *)

Module Playback.

Import WavSaver.

Inductive device_call : Type :=
| RawOutputStream (samplerate : Z)     (* sd.RawOutputStream(...) *)
| StreamStart                          (* stream.start() *)
| StreamWrite (b : list byte)          (* stream.write(pcm_bytes) *)
| StreamStop                           (* stream.stop() *)
| StreamClose.                         (* stream.close() *)

(** A [PlaybackEngine]; [_stream] says whether [self._stream] is set. *)
Record PlaybackEngine : Type := {
  _stream : bool;
  stream_rate : option Z;              (* self._sample_rate *)
  _wav_sink : option WavSink;
  device : list device_call
}.

(** [PlaybackEngine(wav_path=...)] *)
Definition new_engine (wav : option WavSink) : PlaybackEngine :=
  {| _stream := false; stream_rate := None; _wav_sink := wav; device := [] |}.

(** The argument of [submit]: an [AudioFrame] or raw [bytes]. *)
Inductive payload : Type :=
| OfFrame (f : Controller.AudioFrame)
| OfBytes (b : list byte).

Definition E (A : Type) : Type := PlaybackEngine -> sink_result A * PlaybackEngine.

(** [PlaybackEngine.start] *)
Definition start (fails : list device_call -> bool) (sample_rate : Z) : E unit := fun p =>
  if _stream p then (Fail (Exn AudioDeviceError), p)
  else
    let d1 := device p ++ [RawOutputStream sample_rate] in
    if fails d1 then
      (Fail (Exn AudioDeviceError),
       {| _stream := false; stream_rate := stream_rate p; _wav_sink := _wav_sink p;
          device := d1 |})
    else
      let d2 := d1 ++ [StreamStart] in
      if fails d2 then
        (Fail (Exn AudioDeviceError),
         {| _stream := false; stream_rate := stream_rate p; _wav_sink := _wav_sink p;
            device := d2 |})
      else
        match _wav_sink p with
        | None =>
            (Done tt,
             {| _stream := true; stream_rate := Some sample_rate; _wav_sink := None;
                device := d2 |})
        | Some sink =>
            let '(r, sink') := WavSaver.start sample_rate sink in
            (r, {| _stream := true; stream_rate := Some sample_rate;
                   _wav_sink := Some sink'; device := d2 |})
        end.

(** [PlaybackEngine.submit] *)
Definition submit (fails : list device_call -> bool) (frame : payload) : E unit := fun p =>
  match _stream p, stream_rate p with
  | true, Some rate =>
      let checked :=
        match frame with
        | OfFrame f =>
            if negb (Controller.frame_rate f =? rate) then None
            else Some (Controller.frame_pcm f)
        | OfBytes b => Some b
        end in
      match checked with
      | None => (Fail (Exn AudioDeviceError), p)
      | Some pcm_bytes =>
          if negb (length pcm_bytes mod 2 =? 0)%nat then (Fail (Exn AudioDeviceError), p)
          else
            let d := device p ++ [StreamWrite pcm_bytes] in
            if fails d then
              (Fail (Exn AudioDeviceError),
               {| _stream := true; stream_rate := Some rate; _wav_sink := _wav_sink p;
                  device := d |})
            else
              match _wav_sink p with
              | None =>
                  (Done tt,
                   {| _stream := true; stream_rate := Some rate; _wav_sink := None;
                      device := d |})
              | Some sink =>
                  let '(r, sink') := WavSaver.write pcm_bytes sink in
                  (r, {| _stream := true; stream_rate := Some rate;
                         _wav_sink := Some sink'; device := d |})
              end
      end
  | _, _ => (Fail (Exn AudioDeviceError), p)
  end.

(** [PlaybackEngine.flush_and_close]; the [finally] clause runs on every
    path, and an exception of its own replaces the pending one. *)
Definition flush_and_close (fails : list device_call -> bool) : E unit := fun p =>
  if negb (_stream p) then (Done tt, p)
  else
    let d1 := device p ++ [StreamStop] in
    let '(r, d) :=
      if fails d1 then (Fail (Exn AudioDeviceError), d1)
      else
        let d2 := d1 ++ [StreamClose] in
        if fails d2 then (Fail (Exn AudioDeviceError), d2) else (Done tt, d2) in
    match _wav_sink p with
    | None =>
        (r, {| _stream := false; stream_rate := None; _wav_sink := None; device := d |})
    | Some sink =>
        let '(r', sink') := WavSaver.close sink in
        (match r' with Fail e => Fail e | Done _ => r end,
         {| _stream := false; stream_rate := None; _wav_sink := Some sink'; device := d |})
    end.

(** [PlaybackEngine.attach_wav], where the file at [path] holds [existing]. *)
Definition attach_wav (existing : option (list byte)) : E unit := fun p =>
  (Done tt,
   {| _stream := _stream p; stream_rate := stream_rate p;
      _wav_sink := Some (WavSaver.new existing); device := device p |}).

(** [submit] for each frame in turn, up to the first one that raises. *)
Fixpoint submit_all (fails : list device_call -> bool) (frames : list payload) : E unit :=
  match frames with
  | [] => fun p => (Done tt, p)
  | f :: rest => fun p =>
      match submit fails f p with
      | (Done _, p') => submit_all fails rest p'
      | (Fail e, p') => (Fail e, p')
      end
  end.

Definition payload_bytes (frame : payload) : list byte :=
  match frame with OfFrame f => Controller.frame_pcm f | OfBytes b => b end.

(** A payload fits a stream when, as a frame, it has the stream's sample
    rate, and it is a whole number of 16-bit samples. *)
Definition fits (rate : Z) (frame : payload) : bool :=
  match frame with
  | OfFrame f => Controller.frame_rate f =? rate
  | OfBytes _ => true
  end
  && Nat.even (length (payload_bytes frame)).

(** The checks of [submit], as one test: the engine is started and the
    payload fits its stream. *)
Definition acceptable (p : PlaybackEngine) (frame : payload) : bool :=
  _stream p
  && match stream_rate p with
     | Some rate => fits rate frame
     | None => false
     end.

(** The calls on the device of a whole session. *)
Definition session (sample_rate : Z) (frames : list payload) : list device_call :=
  [RawOutputStream sample_rate; StreamStart]
  ++ map (fun f => StreamWrite (payload_bytes f)) frames
  ++ [StreamStop; StreamClose].

(** A device that never raises. *)
Definition sound (d : list device_call) : bool := false.

End Playback.

(** * Properties *)

(** ** Chunker *)

Module ChunkerFacts.

Import Chunker.

Lemma len_app (x y : str) : len (x ++ y) = len x + len y.
Proof. unfold len. rewrite length_app. lia. Qed.

Lemma len_nonneg (x : str) : 0 <= len x.
Proof. unfold len. lia. Qed.

Lemma nonempty_len (x : str) : nonempty x = true <-> 1 <= len x.
Proof.
  unfold len. destruct x as [|c x]; simpl; split; intros H; try done; lia.
Qed.

(** Ceiling division: [i] is a valid slice index exactly when the slice
    starts inside the token. *)
Lemma slice_index_lt (n L i : nat) :
  (0 < n)%nat -> ((i * n < L)%nat <-> (i < (L + n - 1) / n)%nat).
Proof.
  intros Hn.
  pose proof (Nat.div_mod_eq (L + n - 1) n) as Hdm.
  pose proof (Nat.mod_upper_bound (L + n - 1) n ltac:(lia)) as Hr.
  set (q := ((L + n - 1) / n)%nat) in *.
  set (r := ((L + n - 1) mod n)%nat) in *.
  split; intros H; nia.
Qed.

Lemma slice_count_le (n : nat) (token : str) :
  (0 < n)%nat -> (slice_count n token <= length token)%nat.
Proof.
  intros Hn. unfold slice_count.
  destruct (Nat.le_gt_cases ((length token + n - 1) / n) (length token)) as [H|H];
    [done|].
  apply slice_index_lt in H; [|done]. nia.
Qed.

Lemma length_slice (n : nat) (token : str) (i : nat) :
  length (slice n token i) = Nat.min n (length token - i * n).
Proof. unfold slice. by rewrite length_take, length_drop. Qed.

(** The loop yields the hyphenated slices from slice [i] on. *)
Lemma split_loop_slices (fuel : nat) (token : str) (max_chars : Z) (n i : nat) :
  (0 < n)%nat -> Z.of_nat n < max_chars ->
  (i <= slice_count n token)%nat ->
  (slice_count n token - i <= fuel)%nat ->
  split_loop fuel token max_chars n (i * n) =
  map (fun j => if (S j <? slice_count n token)%nat then slice n token j ++ [hyphen]
                else slice n token j)
      (seq i (slice_count n token - i)).
Proof.
  intros Hn Hmax. revert i.
  induction fuel as [|fuel IH]; intros i Hi Hfuel.
  - replace (slice_count n token - i)%nat with 0%nat by lia. done.
  - simpl. destruct (Nat.ltb_spec (i * n) (length token)) as [Hlt|Hge].
    + assert (i < slice_count n token)%nat as Hik
        by (by apply slice_index_lt).
      replace (slice_count n token - i)%nat
        with (S (slice_count n token - S i))%nat by lia.
      simpl. fold (slice n token i).
      replace (i * n + n)%nat with (S i * n)%nat by lia.
      rewrite IH by lia.
      destruct (Nat.ltb_spec (S i * n) (length token)) as [Hnext|Hlast].
      * apply slice_index_lt in Hnext; [|done].
        fold (slice_count n token) in Hnext.
        destruct (Nat.ltb_spec (S i) (slice_count n token)); [done|lia].
      * assert (~ (S i < slice_count n token)%nat) as Hnot.
        { intros H. apply (slice_index_lt n (length token) (S i)) in H; lia. }
        destruct (Nat.ltb_spec (S i) (slice_count n token)); [lia|].
        assert ((len (slice n token i) >? max_chars) = false) as ->.
        { rewrite Z.gtb_ltb. apply Z.ltb_ge. unfold len. rewrite length_slice. lia. }
        done.
    + assert (~ (i < slice_count n token)%nat) as Hnot.
      { intros H. apply (slice_index_lt n (length token) i) in H; lia. }
      replace (slice_count n token - i)%nat with 0%nat by lia. done.
Qed.

Lemma slices_concat (n : nat) (token : str) (m i : nat) :
  (length token <= (i + m) * n)%nat ->
  concat (map (slice n token) (seq i m)) = drop (i * n) token.
Proof.
  revert i. induction m as [|m IH]; intros i Hlen; simpl.
  - symmetry. apply drop_ge. lia.
  - rewrite IH by lia. unfold slice.
    replace (S i * n)%nat with (i * n + n)%nat by lia.
    rewrite <- drop_drop. apply take_drop.
Qed.

Lemma slice_count_covers (n : nat) (token : str) :
  (0 < n)%nat -> (length token <= slice_count n token * n)%nat.
Proof.
  intros Hn.
  destruct (Nat.le_gt_cases (length token) (slice_count n token * n)) as [H|H];
    [done|].
  apply slice_index_lt in H; [|done]. unfold slice_count in *. lia.
Qed.

(** C9. For [max_chars >= 2], a token longer than [max_chars] is returned by
    [_split_token] as its fixed-width slices of length [max_chars - 1]
    (which concatenate to the token; all but the last have exactly that
    length, the last is non-empty and not longer), each non-final slice
    followed by a hyphen and the final one unchanged; a 36-character token
    with [max_chars = 10] gives exactly 4 pieces, the first three with a
    hyphen; for [max_chars <= 1] the token is returned one character per
    piece: there are as many pieces as characters, and piece [i] is the
    single character at position [i]. *)
Theorem split_token_long (token : str) (max_chars : Z) :
  max_chars < len token ->
  (2 <= max_chars ->
     let n := Z.to_nat (max_chars - 1) in
     let k := slice_count n token in
     _split_token token max_chars = hyphenated_slices token max_chars
     /\ concat (map (slice n token) (seq 0 k)) = token
     /\ (forall i, (S i < k)%nat -> length (slice n token i) = n)
     /\ (1 <= length (slice n token (k - 1)) <= n)%nat)
  /\ (max_chars <= 1 ->
      _split_token token max_chars = map (fun c => [c]) token
      /\ length (_split_token token max_chars) = length token
      /\ forall i c, token !! i = Some c -> _split_token token max_chars !! i = Some [c])
  /\ (max_chars = 10 -> length token = 36%nat ->
        _split_token token max_chars =
        [take 9 token ++ [hyphen];
         take 9 (drop 9 token) ++ [hyphen];
         take 9 (drop 18 token) ++ [hyphen];
         drop 27 token]).
Proof.
  intros Hlong.
  assert (forall m, 2 <= m -> m < len token ->
            _split_token token m = hyphenated_slices token m) as Hmain.
  { intros m Hm Hl. unfold _split_token.
    destruct (Z.leb_spec (len token) m); [lia|].
    destruct (Z.leb_spec m 1); [lia|].
    unfold hyphenated_slices.
    set (n := Z.to_nat (m - 1)).
    assert (0 < n)%nat by (unfold n; lia).
    pose proof (slice_count_le n token ltac:(done)).
    pose proof (split_loop_slices (length token) token m n 0) as Hs.
    rewrite Nat.sub_0_r in Hs. simpl in Hs.
    apply Hs; [done | unfold n; lia | lia | done]. }
  split; [|split].
  - intros Hm n k. split; [by apply Hmain|].
    assert (0 < n)%nat as Hn by (unfold n; lia).
    pose proof (slice_count_covers n token Hn) as Hcov. fold k in Hcov.
    assert (0 < k)%nat as Hk.
    { apply (slice_index_lt n (length token) 0); [done|]. unfold len in Hlong. lia. }
    split; [|split].
    + rewrite slices_concat by (simpl; lia). done.
    + intros i Hi. rewrite length_slice.
      apply (slice_index_lt n (length token) (S i)) in Hi; [|done]. lia.
    + rewrite length_slice.
      assert ((k - 1) * n < length token)%nat
        by (apply slice_index_lt; [done|]; fold (slice_count n token); fold k; lia).
      nia.
  - intros Hm.
    assert (_split_token token max_chars = map (fun c => [c]) token) as ->.
    { unfold _split_token.
      destruct (Z.leb_spec (len token) max_chars); [lia|].
      destruct (Z.leb_spec max_chars 1); [reflexivity|lia]. }
    split; [done|]. split; [apply length_map|].
    intros i c Hi. change (map (fun c0 : ascii => [c0]) token)
      with ((fun c0 : ascii => [c0]) <$> token).
    by rewrite list_lookup_fmap, Hi.
  - intros -> H36. rewrite Hmain by lia.
    unfold hyphenated_slices, slice_count, slice. rewrite H36. simpl.
    do 3 f_equal. f_equal. apply take_ge. rewrite length_drop. lia.
Qed.

(** The theorem at the 36-character token of the specification's scenario. *)
Lemma split_token_long_witness :
  _split_token (s "abcdefghijklmnopqrstuvwxyz0123456789") 10 =
  [s "abcdefghi-"; s "jklmnopqr-"; s "stuvwxyz0-"; s "123456789"].
Proof.
  pose proof (split_token_long (s "abcdefghijklmnopqrstuvwxyz0123456789") 10) as H.
  destruct H as (_ & _ & H); [reflexivity|].
  rewrite H; reflexivity.
Defined.

(** Every piece yielded by the slicing loop fits in [max_chars]. *)
Lemma split_loop_bound (fuel : nat) (token : str) (max_chars : Z) (n index : nat) :
  1 <= max_chars -> Z.of_nat n + 1 <= max_chars ->
  Forall (fun f => len f <= max_chars) (split_loop fuel token max_chars n index).
Proof.
  intros Hpos Hn. revert index.
  induction fuel as [|fuel IH]; intros index; simpl; [constructor|].
  destruct (index <? length token)%nat; [|constructor].
  apply Forall_app. split; [|apply IH].
  set (chunk := take n (drop index token)).
  assert (len chunk <= Z.of_nat n)
    by (unfold len, chunk; rewrite length_take; lia).
  destruct (index + n <? length token)%nat.
  - repeat constructor. rewrite len_app. unfold len at 2. simpl. lia.
  - destruct (Z.gtb_spec (len chunk) max_chars).
    + unfold singletons. apply Forall_map, Forall_forall. intros c _.
      unfold len. simpl. lia.
    + repeat constructor. lia.
Qed.

Lemma split_token_bound (token : str) (max_chars : Z) :
  1 <= max_chars ->
  Forall (fun f => len f <= max_chars) (_split_token token max_chars).
Proof.
  intros Hpos. unfold _split_token.
  destruct (Z.leb_spec (len token) max_chars); [by repeat constructor|].
  destruct (Z.leb_spec max_chars 1).
  - unfold singletons. apply Forall_map, Forall_forall. intros c _.
    unfold len. simpl. lia.
  - apply split_loop_bound; lia.
Qed.

Lemma fragments_bound (sentence : str) (max_chars : Z) :
  1 <= max_chars ->
  Forall (fun f => len f <= max_chars) (fragments_of sentence max_chars).
Proof.
  intros Hpos. unfold fragments_of.
  induction (fields (Ascii.eqb space) sentence) as [|token toks IH]; simpl;
    [constructor|].
  apply Forall_app. split; [|done].
  destruct (nonempty token); [by apply split_token_bound|constructor].
Qed.

(** The overshoot rule of [_split_sentence] in closed form: a non-empty
    fragment joins a non-empty accumulator exactly when the accumulator has
    at most [max_chars - 2] characters. *)
Lemma overshoot_rule (max_chars : Z) (current fragment : str) :
  1 <= len fragment ->
  let candidate_len := len current + 1 + len fragment in
  ((candidate_len <=? max_chars) || (candidate_len - max_chars <? len fragment)) = true
  <-> len current <= max_chars - 2.
Proof.
  intros Hf candidate_len. unfold candidate_len.
  rewrite orb_true_iff, Z.leb_le, Z.ltb_lt. lia.
Qed.

Lemma pack_step_within (max_chars : Z) (acc : list str * str) (fragment : str) :
  1 <= max_chars -> len fragment <= max_chars ->
  packed_within (2 * max_chars - 1) acc ->
  packed_within (2 * max_chars - 1) (pack_step max_chars acc fragment).
Proof.
  intros Hpos Hf [Hres Hcur]. destruct acc as [results current]. simpl in *.
  unfold pack_step.
  destruct (nonempty current); simpl; [|split; [done|simpl; lia]].
  destruct (orb _ _) eqn:Hrule.
  - split; [done|]. simpl.
    apply orb_true_iff in Hrule. rewrite Z.leb_le, Z.ltb_lt in Hrule.
    change (current ++ space :: fragment) with (current ++ [space] ++ fragment).
    rewrite !len_app. change (len [space]) with 1. lia.
  - split; simpl; [|lia]. apply Forall_app. by repeat constructor.
Qed.

Lemma fold_pack_within (max_chars : Z) (fragments : list str) (acc : list str * str) :
  1 <= max_chars ->
  Forall (fun f => len f <= max_chars) fragments ->
  packed_within (2 * max_chars - 1) acc ->
  packed_within (2 * max_chars - 1) (fold_left (pack_step max_chars) fragments acc).
Proof.
  intros Hpos Hfr. revert acc.
  induction Hfr as [|f fs Hf _ IH]; intros acc Hacc; simpl; [done|].
  apply IH. by apply pack_step_within.
Qed.

Lemma split_sentence_bound (sentence : str) (max_chars : Z) :
  1 <= max_chars ->
  Forall (fun c => len c <= 2 * max_chars - 1) (_split_sentence sentence max_chars).
Proof.
  intros Hpos. unfold _split_sentence.
  pose proof (fold_pack_within max_chars (fragments_of sentence max_chars) ([], [])
                Hpos (fragments_bound sentence max_chars Hpos)) as H.
  destruct (fold_left _ _ _) as [results current].
  destruct H as [Hres Hcur]; [split; simpl; [constructor|unfold len; simpl; lia]|].
  simpl in *. destruct (nonempty current); [|done].
  apply Forall_app. by repeat constructor.
Qed.

(** C3 (as amended). For [max_chars >= 2], [chunk_text] returns a sequence
    of chunks, each of length at most [2 * max_chars - 1]; every fragment
    that [_split_token] produces has length at most [max_chars], and the
    packing loop of [_split_sentence] joins a fragment to the accumulator
    whenever the accumulator has at most [max_chars - 2] characters, which
    is the only way a chunk gets longer than [max_chars]. *)
Theorem chunk_text_bound (text : str) (max_chars : Z) :
  2 <= max_chars ->
  (exists chunks,
      chunk_text text max_chars = Ok chunks
      /\ Forall (fun c => len c <= 2 * max_chars - 1) chunks)
  /\ (forall token, Forall (fun f => len f <= max_chars) (_split_token token max_chars))
  /\ (forall results current fragment,
        nonempty current = true -> nonempty fragment = true ->
        pack_step max_chars (results, current) fragment =
        if len current <=? max_chars - 2
        then (results, current ++ [space] ++ fragment)
        else (results ++ [current], fragment)).
Proof.
  intros Hmax. split; [|split].
  - unfold chunk_text.
    destruct (Z.leb_spec max_chars 0); [lia|].
    destruct (negb _); [by exists []|].
    eexists. split; [done|].
    induction (map strip _) as [|sentence rest IH]; simpl; [constructor|].
    apply Forall_app. split; [|done].
    destruct (nonempty sentence); [apply split_sentence_bound; lia|constructor].
  - intros token. apply split_token_bound. lia.
  - intros results current fragment Hc Hf. unfold pack_step. rewrite Hc. simpl.
    apply nonempty_len in Hf.
    pose proof (overshoot_rule max_chars current fragment Hf) as Hrule.
    simpl in Hrule.
    destruct (Z.leb_spec (len current) (max_chars - 2)) as [Hle|Hgt].
    + apply Hrule in Hle. by rewrite Hle.
    + destruct Hrule as [Hrule _].
      destruct (orb _ _); [|done]. specialize (Hrule eq_refl). lia.
Qed.

Lemma chunk_text_bound_witness :
  exists chunks,
    chunk_text (s "Sentence one. Sentence two is slightly longer but still fine.") 30
    = Ok chunks
    /\ Forall (fun c => len c <= 59) chunks.
Proof.
  destruct (chunk_text_bound
              (s "Sentence one. Sentence two is slightly longer but still fine.") 30)
    as [H _]; [lia|exact H].
Defined.

(** C3 as stated fails: with [max_chars = 30] the second chunk of this text
    has 31 characters. *)
Lemma chunk_text_exceeds_max_chars :
  chunk_text (s "Sentence one. Sentence two is slightly longer but still fine.") 30
  = Ok [s "Sentence one."; s "Sentence two is slightly longer"; s "but still fine."]
  /\ ~ Forall (fun c => len c <= 30)
         [s "Sentence one."; s "Sentence two is slightly longer"; s "but still fine."].
Proof.
  split; [reflexivity|].
  intros H. apply Forall_cons in H as [_ H]. apply Forall_cons in H as [H _].
  vm_compute in H. by apply H.
Qed.

(** The bound [2 * max_chars - 1] is reached. *)
Example chunk_text_bound_tight :
  chunk_text (s "a bcd") 3 = Ok [s "a bcd"] /\ len (s "a bcd") = 2 * 3 - 1.
Proof. split; reflexivity. Qed.

End ChunkerFacts.

(** ** Phrase cache *)

Module CacheFacts.

Import Cache.

Lemma append_cancel_l (a x y : string) : (a ++ x = a ++ y)%string -> x = y.
Proof.
  induction a as [|ch a IH]; simpl; intros H; [done|].
  injection H as H. by apply IH.
Qed.

(** The two artifacts of an entry live at different paths. *)
Lemma paths_distinct (self : PhraseCache) (key : string) :
  pcm_path_of self key <> meta_path_of self key.
Proof.
  unfold pcm_path_of, meta_path_of, _paths_for_key. simpl. intros H.
  do 3 apply append_cancel_l in H. discriminate H.
Qed.

Lemma read_raises_OSError (d : fs) (path : string) (e : exn) :
  read d path = Raise e -> is_OSError e = true.
Proof.
  unfold read. destruct (d !! path) as [f|]; [destruct (readable f)|];
    intros H; inversion H; done.
Qed.

Lemma removable_at_delete (d : fs) (p path : string) :
  removable_at d path -> removable_at (delete p d) path.
Proof.
  unfold removable_at. intros H.
  destruct (delete p d !! path) as [f|] eqn:E; [|done].
  apply lookup_delete_Some in E as [_ E]. by rewrite E in H.
Qed.

(** Unlinking a path that is free or holds a removable file never makes
    the loop of [_remove_files] stop: [FileNotFoundError] is passed over. *)
Lemma remove_paths_step (d : fs) (path : string) (rest : list string) :
  removable_at d path ->
  remove_paths d (path :: rest) = remove_paths (delete path d) rest.
Proof.
  unfold removable_at. simpl. unfold unlink. intros H.
  destruct (d !! path) as [f|] eqn:E.
  - by rewrite H.
  - simpl. by rewrite delete_id.
Qed.

(** [_remove_files] succeeds, whether or not the files exist, unless one of
    them cannot be unlinked. *)
Lemma remove_files_ok (d : fs) (pcm_path meta_path : string) :
  removable_at d pcm_path -> removable_at d meta_path ->
  _remove_files d pcm_path meta_path = (Ok tt, delete meta_path (delete pcm_path d)).
Proof.
  intros Hp Hm. unfold _remove_files.
  rewrite remove_paths_step by done.
  rewrite remove_paths_step by (by apply removable_at_delete).
  done.
Qed.

(** A file that cannot be unlinked makes [_remove_files] raise. *)
Lemma remove_files_locked (d : fs) (pcm_path meta_path : string) (f : file) :
  d !! pcm_path = Some f -> removable f = false ->
  _remove_files d pcm_path meta_path = (Raise PermissionError, d).
Proof.
  intros Hf Hr. unfold _remove_files, remove_paths, unlink. by rewrite Hf, Hr.
Qed.

(** On a read-path failure [get] runs [_remove_files] and returns what it
    leaves. *)
Lemma get_drops_entry (c : codec) (self : PhraseCache) (now : Z) (d : fs) (key : string) :
  exists_ d (meta_path_of self key) = true ->
  exists_ d (pcm_path_of self key) = true ->
  read_failure c self now d key ->
  get c self now d key = drop_entry d (pcm_path_of self key) (meta_path_of self key).
Proof.
  intros Hm Hp Hfail. unfold get.
  change (_paths_for_key self key) with (pcm_path_of self key, meta_path_of self key).
  cbv beta iota. rewrite Hm, Hp. simpl.
  destruct Hfail as [e He|text e Ht He Hc|text created rate Ht Hparse Hage
                     |text created rate e Ht Hparse He].
  - rewrite He. by rewrite (read_raises_OSError _ _ _ He).
  - rewrite Ht, He. by rewrite Hc.
  - rewrite Ht, Hparse. unfold _is_expired, instant.
    destruct (tzoffset created) as [off|] eqn:Etz; simpl in *.
    + rewrite Etz. simpl. destruct (Z.gtb_spec (now - (wall created - off)) (ttl self));
        [done|lia].
    + destruct (Z.gtb_spec (now - (wall created - 0)) (ttl self)); [done|lia].
  - rewrite Ht, Hparse.
    destruct (_is_expired _ _ _); [done|].
    rewrite He. by rewrite (read_raises_OSError _ _ _ He).
Qed.

(** C6 (as amended). When both files of an entry exist and the read path
    fails (the metadata cannot be read, or parsing it raises [OSError],
    [KeyError] or [ValueError], or the entry's age exceeds the TTL, or the
    audio cannot be read), [get] runs [_remove_files]: if neither file
    resists unlinking, both are gone and [get] returns absent; an unlink
    error other than [FileNotFoundError] is raised by [get], after the audio
    file was removed when it is the metadata file that resists.
    [_remove_files] passes over missing files. *)
Theorem get_read_failure (c : codec) (self : PhraseCache) (now : Z) (d : fs)
    (key : string) :
  exists_ d (meta_path_of self key) = true ->
  exists_ d (pcm_path_of self key) = true ->
  read_failure c self now d key ->
  let pcm_path := pcm_path_of self key in
  let meta_path := meta_path_of self key in
  (removable_at d pcm_path -> removable_at d meta_path ->
     get c self now d key = (Ok None, delete meta_path (delete pcm_path d)))
  /\ (forall f, d !! pcm_path = Some f -> removable f = false ->
        get c self now d key = (Raise PermissionError, d))
  /\ (forall g, removable_at d pcm_path ->
        d !! meta_path = Some g -> removable g = false ->
        get c self now d key = (Raise PermissionError, delete pcm_path d))
  /\ (forall d' : fs, d' !! pcm_path = None -> d' !! meta_path = None ->
        _remove_files d' pcm_path meta_path = (Ok tt, d')).
Proof.
  intros Hm Hp Hfail pcm_path meta_path.
  rewrite (get_drops_entry c self now d key Hm Hp Hfail).
  fold pcm_path meta_path. unfold drop_entry.
  split; [|split; [|split]].
  - intros Hrp Hrm. by rewrite remove_files_ok.
  - intros f Hf Hr. by rewrite (remove_files_locked d pcm_path meta_path f).
  - intros g Hrp Hg Hr. unfold _remove_files.
    rewrite remove_paths_step by done. simpl. unfold unlink.
    rewrite lookup_delete_ne by apply paths_distinct.
    fold meta_path. by rewrite Hg, Hr.
  - intros d' Hdp Hdm. rewrite remove_files_ok.
    + by rewrite (delete_id d' pcm_path Hdp), (delete_id d' meta_path Hdm).
    + unfold removable_at. by rewrite Hdp.
    + unfold removable_at. by rewrite Hdm.
Qed.

Lemma get_read_failure_witness :
  get sample_codec sample_cache 0
      (<[ "cache/ab/abc123.pcm"%string := plain [x00; x01] ]>
         (<[ "cache/ab/abc123.json"%string := plain [x7b] ]> ∅))
      "abc123"
  = (Ok None,
     delete (meta_path_of sample_cache "abc123")
       (delete (pcm_path_of sample_cache "abc123")
          (<[ "cache/ab/abc123.pcm"%string := plain [x00; x01] ]>
             (<[ "cache/ab/abc123.json"%string := plain [x7b] ]> ∅)))).
Proof.
  destruct (get_read_failure sample_codec sample_cache 0
              (<[ "cache/ab/abc123.pcm"%string := plain [x00; x01] ]>
                 (<[ "cache/ab/abc123.json"%string := plain [x7b] ]> ∅))
              "abc123") as [H _].
  - reflexivity.
  - reflexivity.
  - by apply (meta_malformed _ _ _ _ _ [x7b] JSONDecodeError).
  - apply H; exact eq_refl.
Defined.

(** C6 as stated fails: the metadata of this entry is unreadable, yet [get]
    raises [PermissionError] from the deletion instead of returning
    absent. *)
Lemma get_propagates_unlink_error :
  exists_ locked_entry (meta_path_of sample_cache "abc123") = true
  /\ exists_ locked_entry (pcm_path_of sample_cache "abc123") = true
  /\ read locked_entry (meta_path_of sample_cache "abc123") = Raise PermissionError
  /\ get sample_codec sample_cache 0 locked_entry "abc123"
     = (Raise PermissionError, locked_entry).
Proof. repeat split; reflexivity. Qed.

(** What [write] leaves at the written path and elsewhere. *)
Lemma write_lookup (d : fs) (path : string) (b : list byte) :
  healthy_at d path -> write d path b !! path = Some (plain b).
Proof.
  unfold healthy_at, write. destruct (d !! path) as [f|] eqn:E.
  - intros [-> ->]. by rewrite lookup_insert_eq.
  - intros _. by rewrite lookup_insert_eq.
Qed.

Lemma write_lookup_ne (d : fs) (path other : string) (b : list byte) :
  path <> other -> write d path b !! other = d !! other.
Proof.
  intros Hne. unfold write. destruct (d !! path); by rewrite lookup_insert_ne.
Qed.

(** After [put] on healthy paths both artifacts are plain files holding the
    audio bytes and the rendered metadata. *)
Lemma put_lookup (c : codec) (self : PhraseCache) (now : Z) (d : fs) (key : string)
    (b : list byte) (rate : Z) :
  healthy_at d (pcm_path_of self key) -> healthy_at d (meta_path_of self key) ->
  put c self now d key b rate !! pcm_path_of self key = Some (plain b)
  /\ put c self now d key b rate !! meta_path_of self key
     = Some (plain (render_meta c (utc now) rate (Z.of_nat (length b)))).
Proof.
  intros Hp Hm. unfold put.
  change (_paths_for_key self key) with (pcm_path_of self key, meta_path_of self key).
  cbv beta iota. pose proof (paths_distinct self key) as Hne. split.
  - rewrite write_lookup_ne by done. by apply write_lookup.
  - apply write_lookup. unfold healthy_at. by rewrite write_lookup_ne.
Qed.

(** C8. On paths free of unreadable or locked files, and with a metadata
    document that parses back to what was rendered, [put k b r] at time
    [t_put] followed by [get k] at time [t_get] returns an entry with audio
    bytes [b] and sample rate [r] as long as the age [t_get - t_put] does
    not exceed the TTL (in particular immediately, for a non-negative TTL);
    once the age exceeds the TTL, [get k] returns absent and neither the
    audio file nor the metadata file exists any more. *)
Theorem put_get_roundtrip (c : codec) (self : PhraseCache) (d : fs) (key : string)
    (b : list byte) (r : Z) (t_put t_get : Z) :
  healthy_at d (pcm_path_of self key) ->
  healthy_at d (meta_path_of self key) ->
  parse_meta c (render_meta c (utc t_put) r (Z.of_nat (length b))) = Ok (utc t_put, r) ->
  let d1 := put c self t_put d key b r in
  (t_get - t_put <= ttl self ->
     exists item, get c self t_get d1 key = (Ok (Some item), d1)
                  /\ pcm item = b /\ sample_rate item = r)
  /\ (ttl self < t_get - t_put ->
        exists d2, get c self t_get d1 key = (Ok None, d2)
                   /\ d2 !! pcm_path_of self key = None
                   /\ d2 !! meta_path_of self key = None).
Proof.
  intros Hp Hm Hcodec d1.
  destruct (put_lookup c self t_put d key b r Hp Hm) as [Hpcm Hmeta].
  fold d1 in Hpcm, Hmeta.
  assert (exists_ d1 (meta_path_of self key) = true) as Hem
    by (unfold exists_; by rewrite Hmeta).
  assert (exists_ d1 (pcm_path_of self key) = true) as Hep
    by (unfold exists_; by rewrite Hpcm).
  assert (read d1 (meta_path_of self key)
          = Ok (render_meta c (utc t_put) r (Z.of_nat (length b)))) as Hread
    by (unfold read; by rewrite Hmeta).
  split.
  - intros Hage. exists {| pcm := b; sample_rate := r; created_at := utc t_put |}.
    split; [|split; reflexivity].
    unfold get.
    change (_paths_for_key self key) with (pcm_path_of self key, meta_path_of self key).
    cbv beta iota. rewrite Hem, Hep, Hread, Hcodec. simpl.
    unfold _is_expired, instant. simpl.
    destruct (Z.gtb_spec (t_get - (t_put - 0)) (ttl self)); [lia|].
    unfold read. by rewrite Hpcm.
  - intros Hage. eexists. split; [|split].
    + rewrite (get_drops_entry c self t_get d1 key Hem Hep).
      * unfold drop_entry. rewrite remove_files_ok; [done| |].
        -- unfold removable_at. by rewrite Hpcm.
        -- unfold removable_at. by rewrite Hmeta.
      * apply (entry_expired _ _ _ _ _ _ (utc t_put) r Hread Hcodec). simpl. lia.
    + rewrite lookup_delete_ne by (apply not_eq_sym, paths_distinct).
      apply lookup_delete_eq.
    + apply lookup_delete_eq.
Qed.

(** The round trip of the repository's cache test: key [abc123], 200 bytes,
    16 kHz, TTL 60 s; the read comes 1 s after the write, and again 61 s
    after it. *)
Lemma put_get_roundtrip_witness :
  let b := concat (repeat [x00; x01] 100) in
  let d1 := put sample_codec sample_cache 5000000 ∅ "abc123" b 16000 in
  (exists item, get sample_codec sample_cache 6000000 d1 "abc123" = (Ok (Some item), d1)
                /\ pcm item = b /\ sample_rate item = 16000)
  /\ (exists d2, get sample_codec sample_cache 66000000 d1 "abc123" = (Ok None, d2)
                 /\ d2 !! pcm_path_of sample_cache "abc123" = None
                 /\ d2 !! meta_path_of sample_cache "abc123" = None).
Proof.
  intros b d1. split.
  - apply (put_get_roundtrip sample_codec sample_cache ∅ "abc123" b 16000
             5000000 6000000); [exact I | exact I | reflexivity | vm_compute; discriminate].
  - apply (put_get_roundtrip sample_codec sample_cache ∅ "abc123" b 16000
             5000000 66000000); [exact I | exact I | reflexivity | reflexivity].
Defined.

End CacheFacts.

(** ** Streaming controller *)

Module ControllerFacts.

Import Metrics Controller.

(** *** Backoff *)









(** *** Adaptive feedback *)

Lemma py_int_08 (x : Z) : py_int (inject_Z x * (8 # 10)) = Z.quot (x * 8) 10.
Proof. reflexivity. Qed.

Lemma prebuffer_step_frame (c : controller) :
  chunk_max_chars (prebuffer_step c) = chunk_max_chars c
  /\ _recent_metrics (prebuffer_step c) = _recent_metrics c.
Proof.
  unfold prebuffer_step.
  destruct (_ && _); [destruct (negb _)|]; done.
Qed.

Lemma prebuffer_step_value (c : controller) :
  prebuffer_ms (prebuffer_step c) =
  if (count_true (_recent_underruns c) >? 2) && (prebuffer_ms c <? 200)
  then Z.min 200 (prebuffer_ms c + 20)
  else prebuffer_ms c.
Proof.
  unfold prebuffer_step.
  destruct (_ && _); [|done].
  destruct (Z.eqb_spec (Z.min 200 (prebuffer_ms c + 20)) (prebuffer_ms c)); simpl; done.
Qed.

Lemma apply_adaptive_logic_prebuffer (c : controller) :
  prebuffer_ms (_apply_adaptive_logic c) = prebuffer_ms (prebuffer_step c).
Proof.
  unfold _apply_adaptive_logic. fold (prebuffer_step c).
  destruct (5 <=? _); [|done].
  destruct (Qle_bool _ _); [done|].
  destruct (_ <? _); done.
Qed.

Lemma apply_adaptive_logic_chunk (c : controller) :
  chunk_max_chars (_apply_adaptive_logic c) =
  if (5 <=? Z.of_nat (length (_recent_metrics c)))
     && negb (Qle_bool (p95_first_frame_ms (summarise_metrics (last5 (_recent_metrics c)))) 600)
     && (Z.max 80 (Z.quot (chunk_max_chars c * 8) 10) <? chunk_max_chars c)
  then Z.max 80 (Z.quot (chunk_max_chars c * 8) 10)
  else chunk_max_chars c.
Proof.
  unfold _apply_adaptive_logic. fold (prebuffer_step c).
  destruct (prebuffer_step_frame c) as [Hc Hr].
  rewrite py_int_08, Hr, !Hc.
  destruct (5 <=? _); [|done].
  destruct (Qle_bool _ _); [done|]. simpl.
  destruct (_ <? _); done.
Qed.

(** C4 (as amended). After the windows are updated, the adaptive step
    (1) sets the prebuffer to [min(200, prebuffer + 20)] when strictly more
    than 2 of the recorded underrun flags are true and the prebuffer is
    below 200 ms: it grows, by exactly 20 ms when it was at most 180 ms, and
    never above 200 ms; otherwise the prebuffer is unchanged;
    (2) sets the maximum chunk length to [max(80, trunc(current * 0.8))]
    when the window holds at least 5 metrics, the 95th-percentile
    first-frame latency of the last 5 exceeds 600 ms and that value is
    smaller than the current one; otherwise the maximum chunk length is
    unchanged, so the step never increases it. *)
Theorem adaptive_step (c : controller) :
  let c' := _apply_adaptive_logic c in
  let reduced := Z.max 80 (Z.quot (chunk_max_chars c * 8) 10) in
  (count_true (_recent_underruns c) > 2 -> prebuffer_ms c < 200 ->
     prebuffer_ms c' = Z.min 200 (prebuffer_ms c + 20)
     /\ prebuffer_ms c < prebuffer_ms c' <= 200
     /\ (prebuffer_ms c <= 180 -> prebuffer_ms c' = prebuffer_ms c + 20))
  /\ (count_true (_recent_underruns c) <= 2 \/ 200 <= prebuffer_ms c ->
        prebuffer_ms c' = prebuffer_ms c)
  /\ ((5 <= length (_recent_metrics c))%nat ->
      (600 < p95_first_frame_ms (summarise_metrics (last5 (_recent_metrics c))))%Q ->
        chunk_max_chars c' = if reduced <? chunk_max_chars c then reduced
                             else chunk_max_chars c)
  /\ ((length (_recent_metrics c) < 5)%nat
      \/ (p95_first_frame_ms (summarise_metrics (last5 (_recent_metrics c))) <= 600)%Q ->
        chunk_max_chars c' = chunk_max_chars c)
  /\ chunk_max_chars c' <= chunk_max_chars c.
Proof.
  intros c' reduced. unfold c'.
  rewrite apply_adaptive_logic_prebuffer, prebuffer_step_value,
    apply_adaptive_logic_chunk.
  fold reduced.
  split; [|split; [|split; [|split]]].
  - intros Hcount Hlow.
    destruct (Z.gtb_spec (count_true (_recent_underruns c)) 2); [|lia].
    destruct (Z.ltb_spec (prebuffer_ms c) 200); [|lia]. simpl. lia.
  - intros Hcond.
    destruct (Z.gtb_spec (count_true (_recent_underruns c)) 2);
      destruct (Z.ltb_spec (prebuffer_ms c) 200); simpl; lia.
  - intros Hlen Hslow.
    destruct (Z.leb_spec 5 (Z.of_nat (length (_recent_metrics c)))); [|lia].
    destruct (Qle_bool _ _) eqn:E; [apply Qle_bool_iff in E; lra|]. done.
  - intros [Hlen|Hfast].
    + destruct (Z.leb_spec 5 (Z.of_nat (length (_recent_metrics c)))); [lia|]. done.
    + apply Qle_bool_iff in Hfast. rewrite Hfast. simpl. by rewrite andb_false_r.
  - destruct (_ && _ && _) eqn:E; [|lia].
    apply andb_prop in E as [_ E]. apply Z.ltb_lt in E. lia.
Qed.

Lemma adaptive_step_witness :
  prebuffer_ms (_apply_adaptive_logic
                  (set_recent_underruns [true; true; true] sample_controller)) = 100
  /\ chunk_max_chars (_apply_adaptive_logic
                        (set_recent_metrics (repeat slow_metric 5) sample_controller))
     = 160.
Proof.
  split.
  - pose proof (adaptive_step (set_recent_underruns [true; true; true] sample_controller))
      as (H & _).
    destruct H as (H & _); [reflexivity | reflexivity | exact H].
  - pose proof (adaptive_step (set_recent_metrics (repeat slow_metric 5) sample_controller))
      as (_ & _ & H & _).
    apply H; reflexivity.
Defined.

(** C4 as stated fails twice.  From 190 ms the prebuffer goes to 200 ms, an
    increase of 10 ms; and from 102 characters the maximum chunk length goes
    to 81, while [max(80, round(102 * 0.8))] is 82. *)
Lemma adaptive_step_not_as_stated :
  (count_true (_recent_underruns underrun_controller) > 2
   /\ prebuffer_ms underrun_controller < 200
   /\ prebuffer_ms (_apply_adaptive_logic underrun_controller)
      <> prebuffer_ms underrun_controller + 20)
  /\ (length (_recent_metrics slow_controller) = 5%nat
      /\ (600 < p95_first_frame_ms (summarise_metrics (_recent_metrics slow_controller)))%Q
      /\ chunk_max_chars (_apply_adaptive_logic slow_controller)
         <> Z.max 80 (round_half_even (inject_Z (chunk_max_chars slow_controller)
                                       * (8 # 10)))).
Proof.
  split; (split; [reflexivity|split; [reflexivity|]]); vm_compute; discriminate.
Qed.

(** *** Steady computations *)

Create HintDb steady.

Lemma steady_ret {A} (a : A) : steady (ret a).
Proof. intros w. simpl. done. Qed.

Lemma steady_raise {A} (e : exn) : steady (@raise A e).
Proof. intros w. simpl. done. Qed.

Lemma steady_get_self : steady get_self.
Proof. intros w. simpl. done. Qed.

Lemma steady_call {A} (ev : event) (answer : list event -> result A) :
  steady (call ev answer).
Proof.
  intros w. unfold call. simpl. split; [|split; [done|by apply prefix_app_r]].
  by destruct (answer (trace w)).
Qed.

Lemma steady_modify (f : controller -> controller) :
  (forall c, config (f c) = config c) -> steady (modify f).
Proof. intros Hf w. simpl. split; [done|]. split; [apply Hf|done]. Qed.

Lemma steady_bind {A B} (m : M A) (k : A -> M B) :
  steady m -> (forall a, steady (k a)) -> steady (bind m k).
Proof.
  intros Hm Hk w. unfold bind.
  destruct (Hm w) as (Hfuel & Hcfg & Hpre).
  destruct (m w) as [[a|ex|] w1]; simpl in *; [|done|done].
  destruct (Hk a w1) as (Hfuel' & Hcfg' & Hpre').
  split; [done|]. split; [congruence|by etrans].
Qed.

Lemma steady_lift {A} (f : world -> A) : steady (fun w => (Returns (f w), w)).
Proof. intros w. simpl. done. Qed.

Lemma steady_of_result {A} (r : result A) : steady (fun w => (of_result r, w)).
Proof. intros w. simpl. split; [by destruct r|done]. Qed.

#[local] Hint Resolve steady_ret steady_raise steady_get_self steady_call
  steady_lift steady_of_result : steady.

Ltac steady_step :=
  first [ solve [auto with steady]
        | apply steady_modify; intros ?; reflexivity
        | apply steady_bind; [|intros ?] ].

Lemma steady_register_underrun : steady register_underrun.
Proof. unfold register_underrun. steady_step. Qed.

Lemma steady_consume_pending_underrun : steady _consume_pending_underrun.
Proof. unfold _consume_pending_underrun. repeat steady_step. Qed.

Lemma steady_clock (e : env) : steady (clock e).
Proof. unfold clock. steady_step. Qed.

Lemma steady_submit (e : env) (f : AudioFrame) : steady (submit e f).
Proof.
  unfold submit. repeat steady_step.
  destruct (e_underrun e _); [apply steady_register_underrun|steady_step].
Qed.

#[local] Hint Resolve steady_register_underrun steady_consume_pending_underrun
  steady_clock steady_submit : steady.

Lemma steady_submit_all (e : env) (frames : list AudioFrame) :
  steady (submit_all e frames).
Proof. induction frames as [|f rest IH]; simpl; repeat steady_step. Qed.

Lemma steady_play_cached_item (e : env) (cached : Cache.CachedItem) (rate : Z) :
  steady (_play_cached_item e cached rate).
Proof. unfold _play_cached_item. apply steady_submit_all. Qed.

Lemma steady_stream_loop (e : env) (items : list item)
    (st : option Q * option Q * list byte) :
  steady (stream_loop e items st).
Proof.
  revert st. induction items as [|[f|] rest IH]; intros [[first second] buf]; simpl;
    repeat steady_step.
Qed.

#[local] Hint Resolve steady_submit_all steady_play_cached_item
  steady_stream_loop : steady.

Lemma steady_synthesize (e : env) (index : Z) (chunk : str) (rate : Z)
    (key : option string) :
  steady (synthesize e index chunk rate key).
Proof.
  unfold synthesize. repeat steady_step.
  match goal with x : (list item * option exn)%type |- _ => destruct x as [items failure] end.
  repeat steady_step.
  - destruct failure; steady_step.
  - match goal with x : (option Q * option Q * list byte)%type |- _ =>
      destruct x as [[first second] buf] end.
    repeat steady_step.
    destruct key, buf; steady_step.
Qed.

Lemma steady_replay (e : env) (index : Z) (chunk : str) (rate : Z)
    (cached : Cache.CachedItem) :
  steady (replay e index chunk rate cached).
Proof. unfold replay. repeat steady_step. Qed.

Lemma steady_process_chunk (e : env) (index : Z) (chunk : str) (rate : Z)
    (provider_settings : option settings) :
  steady (_process_chunk e index chunk rate provider_settings).
Proof.
  unfold _process_chunk. repeat steady_step.
  destruct (usable_key _ _); [|apply steady_synthesize].
  repeat steady_step.
  match goal with x : option Cache.CachedItem |- _ => destruct x end;
    [apply steady_replay|apply steady_synthesize].
Qed.

(** *** Recording a metric *)

(** [_record_metric] never gets past its first statement: at every depth of
    the remaining stack the call ends in [RecursionError], with the
    controller untouched. *)
Lemma record_metric_raises (depth : nat) (metric : ChunkMetrics) (underrun : bool)
    (w : world) :
  _record_metric depth metric underrun w = (Raises RecursionError, w).
Proof.
  induction depth as [|depth IH]; [done|].
  simpl. unfold bind at 1. by rewrite IH.
Qed.

Lemma steady_record_metric (depth : nat) (metric : ChunkMetrics) (underrun : bool) :
  steady (_record_metric depth metric underrun).
Proof. intros w. rewrite record_metric_raises. simpl. done. Qed.

Lemma steady_attempt (e : env) (depth : nat) (index : Z) (chunk : str) (rate : Z)
    (provider_settings : option settings) :
  steady (attempt e depth index chunk rate provider_settings).
Proof.
  unfold attempt. apply steady_bind; [apply steady_process_chunk|].
  intros r. apply steady_record_metric.
Qed.

(** One pass of the retry loop ends in an exception, and leaves the world
    as [_process_chunk] left it. *)
Lemma attempt_raises (e : env) (depth : nat) (index : Z) (chunk : str) (rate : Z)
    (provider_settings : option settings) (w : world) :
  (exists ex, fst (attempt e depth index chunk rate provider_settings w) = Raises ex)
  /\ snd (attempt e depth index chunk rate provider_settings w)
     = snd (_process_chunk e index chunk rate provider_settings w).
Proof.
  unfold attempt, bind.
  destruct (steady_process_chunk e index chunk rate provider_settings w) as (Hfuel & _).
  destruct (_process_chunk e index chunk rate provider_settings w) as [[r|ex|] w1];
    simpl in *; [|by eauto|done].
  rewrite record_metric_raises. simpl. by eauto.
Qed.

(** *** The retry loop *)

Lemma config_max_retries (c c' : controller) :
  config c = config c' -> max_retries c = max_retries c'.
Proof. unfold config. congruence. Qed.

Lemma attempt_loop_prefix (e : env) (depth fuel : nat) (index : Z) (chunk : str)
    (rate : Z) (provider_settings : option settings) (attempts : Z) (w : world) :
  trace w `prefix_of`
    trace (snd (attempt_loop e depth fuel attempts index chunk rate provider_settings w)).
Proof.
  revert attempts w. induction fuel as [|fuel IH]; intros attempts w; simpl; [done|].
  destruct (steady_attempt e depth index chunk rate provider_settings w)
    as (_ & _ & Hpre).
  destruct (attempt e depth index chunk rate provider_settings w) as [[a|ex|] w1];
    simpl in *; [done| |done].
  destruct (is_transient ex); [|done].
  destruct (attempts + 1 >? max_retries (self w1)); [done|].
  unfold bind, call. simpl.
  etrans; [exact Hpre|]. etrans; [|apply IH]. simpl. by apply prefix_app_r.
Qed.

(** With fuel for the retries still allowed, the loop ends, and (its body
    never completing) it ends in an exception. *)
Lemma attempt_loop_raises (e : env) (depth fuel : nat) (index : Z) (chunk : str)
    (rate : Z) (provider_settings : option settings) (attempts : Z) (w : world) :
  (0 < fuel)%nat -> max_retries (self w) - attempts < Z.of_nat fuel ->
  (exists ex,
      fst (attempt_loop e depth fuel attempts index chunk rate provider_settings w)
      = Raises ex)
  /\ config (self (snd (attempt_loop e depth fuel attempts index chunk rate
                          provider_settings w)))
     = config (self w).
Proof.
  revert attempts w. induction fuel as [|fuel IH]; intros attempts w Hpos Hfuel;
    [lia|]. simpl.
  destruct (steady_attempt e depth index chunk rate provider_settings w)
    as (Hnf & Hcfg & _).
  destruct (attempt_raises e depth index chunk rate provider_settings w) as [[ex Hex] _].
  destruct (attempt e depth index chunk rate provider_settings w) as [[a|ex'|] w1];
    simpl in *; [done| |done].
  destruct (is_transient ex'); [|by eauto].
  destruct (Z.gtb_spec (attempts + 1) (max_retries (self w1))); [by eauto|].
  unfold bind, call. simpl.
  pose proof (config_max_retries _ _ Hcfg) as Hmax.
  match goal with |- context [attempt_loop _ _ _ _ _ _ _ _ ?w2] =>
    destruct (IH (attempts + 1) w2) as [Hr Hc]; simpl; [lia|lia|]
  end.
  split; [done|]. simpl in Hc. congruence.
Qed.

Lemma chunk_loop_cons (e : env) (depth : nat) (index : Z) (chunk : str)
    (rest : list str) (rate : Z) (provider_settings : option settings) (w : world) :
  chunk_loop e depth index (chunk :: rest) rate provider_settings w =
  match attempt_loop e depth (S (Z.to_nat (max_retries (self w)))) 0 index chunk rate
          provider_settings w with
  | (Returns _, w') => chunk_loop e depth (index + 1) rest rate provider_settings w'
  | (Raises ex, w') => (Raises ex, w')
  | (OutOfFuel, w') => (OutOfFuel, w')
  end.
Proof. reflexivity. Qed.

Lemma chunk_loop_raises (e : env) (depth : nat) (index : Z) (chunk : str)
    (rest : list str) (rate : Z) (provider_settings : option settings) (w : world) :
  (exists ex,
      fst (chunk_loop e depth index (chunk :: rest) rate provider_settings w) = Raises ex)
  /\ trace w `prefix_of`
       trace (snd (chunk_loop e depth index (chunk :: rest) rate provider_settings w)).
Proof.
  rewrite chunk_loop_cons.
  pose proof (attempt_loop_raises e depth (S (Z.to_nat (max_retries (self w)))) index
                chunk rate provider_settings 0 w ltac:(lia) ltac:(lia)) as [[ex Hex] _].
  pose proof (attempt_loop_prefix e depth (S (Z.to_nat (max_retries (self w)))) index
                chunk rate provider_settings 0 w) as Hpre.
  destruct (attempt_loop _ _ _ _ _ _ _ _ _) as [[a|ex'|] w1]; cbn [fst snd] in *;
    [done| |done].
  by eauto.
Qed.

(** *** [run] *)

Lemma steady_release (e : env) : steady (release e).
Proof. unfold release. repeat steady_step. Qed.

(** [run], case by case. *)
Lemma run_unfold (e : env) (depth : nat) (text : str) (rate : Z) (max_chars : option Z)
    (provider_settings : option settings) (w : world) :
  run e depth text rate max_chars provider_settings w =
  match e_chunker e text (default (chunk_max_chars (self w)) max_chars) with
  | Raise ex => (Raises ex, w)
  | Ok [] => (Returns (metrics (self w)), w)
  | Ok (chunk :: rest) =>
      match e_connect e (trace w) with
      | Raise ex => (Raises ex, push Connect w)
      | Ok _ =>
          match e_start e (trace (push Connect w)) rate with
          | Raise ex => (Raises ex, started rate w)
          | Ok _ =>
              match chunk_loop e depth 0 (chunk :: rest) rate provider_settings
                      (started rate w) with
              | (OutOfFuel, w') => (OutOfFuel, w')
              | (Returns _, w') =>
                  match release e w' with
                  | (Returns _, w'') => (Returns (metrics (self w'')), w'')
                  | (Raises ex, w'') => (Raises ex, w'')
                  | (OutOfFuel, w'') => (OutOfFuel, w'')
                  end
              | (Raises ex, w') =>
                  match release e w' with
                  | (Returns _, w'') => (Raises ex, w'')
                  | (Raises ex', w'') => (Raises ex', w'')
                  | (OutOfFuel, w'') => (OutOfFuel, w'')
                  end
              end
          end
      end
  end.
Proof.
  unfold run, bind at 1, get_self. unfold bind at 1.
  destruct (e_chunker e text _) as [[|chunk rest]|ex]; [done| |done].
  cbn [of_result]. unfold bind at 1, call at 1.
  destruct (e_connect e (trace w)) as [u|ex]; [|done].
  cbn [of_result]. unfold bind at 1, call at 1.
  destruct (e_start e (trace (push Connect w)) rate) as [u'|ex]; [|done].
  cbn [of_result]. unfold bind at 1, try_finally. fold (started rate w).
  destruct (chunk_loop e depth 0 (chunk :: rest) rate provider_settings (started rate w))
    as [[a|ex|] w1]; [| |done].
  - destruct (release e w1) as [[a'|ex'|] w2]; done.
  - destruct (release e w1) as [[a'|ex'|] w2]; done.
Qed.

(** What the [finally] clause does to the trace. *)
Lemma release_trace (e : env) (w : world) :
  match e_flush_and_close e (trace w) with
  | Ok _ =>
      snd (release e w) = push Close (push FlushAndClose w)
      /\ fst (release e w) = of_result (e_close e (trace w ++ [FlushAndClose]))
  | Raise ex =>
      release e w = (Raises ex, push FlushAndClose w)
  end.
Proof.
  unfold release, bind, call.
  destruct (e_flush_and_close e (trace w)) as [u|ex]; simpl; done.
Qed.

Lemma chunk_loop_config (e : env) (depth : nat) (index : Z) (chunk : str)
    (rest : list str) (rate : Z) (provider_settings : option settings) (w : world) :
  config (self (snd (chunk_loop e depth index (chunk :: rest) rate provider_settings w)))
  = config (self w).
Proof.
  rewrite chunk_loop_cons.
  pose proof (attempt_loop_raises e depth (S (Z.to_nat (max_retries (self w)))) index
                chunk rate provider_settings 0 w ltac:(lia) ltac:(lia)) as [[ex Hex] Hc].
  destruct (attempt_loop _ _ _ _ _ _ _ _ _) as [[a|ex'|] w1]; cbn [fst snd] in *; done.
Qed.

(** C1. [_record_metric] raises [RecursionError] on every call, whatever
    stack depth is left, and so [run] on a text with at least one chunk
    never returns the sequence of metrics: it raises, and the controller's
    [metrics] list is what it was before the call. *)
Theorem run_never_returns (e : env) (depth : nat) (text : str) (rate : Z)
    (max_chars : option Z) (provider_settings : option settings) (w : world)
    (chunk : str) (rest : list str) :
  e_chunker e text (default (chunk_max_chars (self w)) max_chars) = Ok (chunk :: rest) ->
  (forall metric underrun w0,
      _record_metric depth metric underrun w0 = (Raises RecursionError, w0))
  /\ (exists ex, fst (run e depth text rate max_chars provider_settings w) = Raises ex)
  /\ metrics (self (snd (run e depth text rate max_chars provider_settings w)))
     = metrics (self w).
Proof.
  intros Hchunks. split; [intros; apply record_metric_raises|].
  rewrite run_unfold, Hchunks.
  destruct (e_connect e (trace w)) as [u|ex]; [|by eauto].
  destruct (e_start e (trace (push Connect w)) rate) as [u'|ex]; [|by eauto].
  destruct (chunk_loop_raises e depth 0 chunk rest rate provider_settings (started rate w))
    as [[ex Hex] _].
  pose proof (chunk_loop_config e depth 0 chunk rest rate provider_settings
                (started rate w)) as Hcfg.
  destruct (chunk_loop e depth 0 (chunk :: rest) rate provider_settings (started rate w))
    as [[a|ex'|] w1]; cbn [fst snd] in *; [done| |done].
  destruct (steady_release e w1) as (Hnf & Hcfg' & _).
  destruct (release e w1) as [[a'|ex''|] w2]; cbn [fst snd] in *; [| |done].
  - split; [by eauto|]. unfold config in *. simpl in *. congruence.
  - split; [by eauto|]. unfold config in *. simpl in *. congruence.
Qed.

Lemma run_never_returns_witness :
  exists ex,
    fst (run (sample_env (Ok tt) one_frame) 1000
           (s "Hello world! This is a test. Enjoy streaming.") 16000 (Some 25) None
           (fresh sample_controller))
    = Raises ex.
Proof.
  destruct (run_never_returns (sample_env (Ok tt) one_frame) 1000
              (s "Hello world! This is a test. Enjoy streaming.") 16000 (Some 25) None
              (fresh sample_controller)
              (s "Hello world!") [s "This is a test."; s "Enjoy streaming."])
    as (_ & H & _); [vm_compute; reflexivity | exact H].
Defined.

(** The run of the specification's scenario A, on collaborators that all
    succeed: three chunks, yet no metric comes back. *)
Lemma run_raises_recursion_error :
  Chunker.chunk_text (s "Hello world! This is a test. Enjoy streaming.") 25
  = Ok [s "Hello world!"; s "This is a test."; s "Enjoy streaming."]
  /\ fst (run (sample_env (Ok tt) one_frame) 1000
            (s "Hello world! This is a test. Enjoy streaming.") 16000 (Some 25) None
            (fresh sample_controller))
     = Raises RecursionError.
Proof. split; vm_compute; reflexivity. Qed.

(** What the [finally] clause of [run] covers.  On a text with at least one
    chunk, once [provider.connect()] and [playback.start()] have returned,
    every exit of [run] goes through it: [flush_and_close] is called after
    everything else, and [provider.close] right after it unless
    [flush_and_close] raises, in which case that exception is the outcome.
    [connect] and [start] themselves are called before the [try]. *)
Lemma run_releases (e : env) (depth : nat) (text : str) (rate : Z)
    (max_chars : option Z) (provider_settings : option settings) (w : world)
    (chunk : str) (rest : list str) :
  e_chunker e text (default (chunk_max_chars (self w)) max_chars) = Ok (chunk :: rest) ->
  let r := run e depth text rate max_chars provider_settings w in
  (forall u u',
      e_connect e (trace w) = Ok u -> e_start e (trace w ++ [Connect]) rate = Ok u' ->
      exists mid,
        let t := trace w ++ [Connect; Start rate] ++ mid in
        fst r <> OutOfFuel
        /\ match e_flush_and_close e t with
           | Ok _ => trace (snd r) = t ++ [FlushAndClose; Close]
           | Raise ex => trace (snd r) = t ++ [FlushAndClose] /\ fst r = Raises ex
           end)
  /\ (forall u ex,
        e_connect e (trace w) = Ok u -> e_start e (trace w ++ [Connect]) rate = Raise ex ->
        r = (Raises ex, started rate w))
  /\ (forall ex, e_connect e (trace w) = Raise ex -> r = (Raises ex, push Connect w)).
Proof.
  intros Hchunks r. unfold r. rewrite run_unfold, Hchunks. cbn [push trace].
  split; [|split].
  - intros u u' -> ->.
    destruct (chunk_loop_raises e depth 0 chunk rest rate provider_settings (started rate w))
      as [[ex Hex] [mid Hmid]].
    exists mid.
    destruct (chunk_loop e depth 0 (chunk :: rest) rate provider_settings (started rate w))
      as [[a|ex'|] w1]; cbn [fst snd] in *; [done| |done].
    assert (trace w1 = trace w ++ [Connect; Start rate] ++ mid) as Ht.
    { rewrite Hmid. unfold started, push. simpl. by rewrite <- !app_assoc. }
    cbv zeta. rewrite <- Ht.
    pose proof (release_trace e w1) as Hrel.
    destruct (e_flush_and_close e (trace w1)) as [v|ex''].
    + destruct Hrel as [Hw Hr].
      destruct (release e w1) as [[a'|ex3|] w2]; cbn [fst snd] in *; subst w2;
        unfold push; simpl; rewrite <- ?app_assoc; try done.
      by destruct (e_close e _).
    + rewrite Hrel. unfold push. simpl. done.
  - by intros u ex -> ->.
  - by intros ex ->.
Qed.

Lemma run_releases_witness :
  exists mid,
    trace (snd (run (sample_env (Ok tt) one_frame) 1000 (s "Hello world!") 16000 None None
                  (fresh sample_controller)))
    = [Connect; Start 16000] ++ mid ++ [FlushAndClose; Close].
Proof.
  destruct (run_releases (sample_env (Ok tt) one_frame) 1000 (s "Hello world!") 16000
              None None (fresh sample_controller) (s "Hello world!") [])
    as (H & _); [vm_compute; reflexivity|].
  destruct (H tt tt) as (mid & _ & Ht); [reflexivity | reflexivity |].
  exists mid. vm_compute in Ht |- *. exact Ht.
Defined.

(** C5.  [run] does not release what it has acquired when
    [playback.start()] raises: [connect] and [start] are called before the
    [try], so the exception leaves [run] with the provider connected and
    neither [flush_and_close] nor [provider.close] called, where the claim
    and the sibling callers in [cli.py] release on every path. *)
Theorem start_failure_leaks (e : env) (depth : nat) (text : str) (rate : Z)
    (max_chars : option Z) (provider_settings : option settings) (w : world)
    (chunk : str) (rest : list str) (ex : exn) :
  e_chunker e text (default (chunk_max_chars (self w)) max_chars) = Ok (chunk :: rest) ->
  e_connect e (trace w) = Ok tt ->
  e_start e (trace w ++ [Connect]) rate = Raise ex ->
  let r := run e depth text rate max_chars provider_settings w in
  fst r = Raises ex
  /\ trace (snd r) = trace w ++ [Connect; Start rate]
  /\ calls is_release (drop (length (trace w)) (trace (snd r))) = [].
Proof.
  intros Hchunks Hconnect Hstart r.
  assert (r = (Raises ex, started rate w)) as ->.
  { unfold r. rewrite run_unfold, Hchunks, Hconnect. cbn [push trace].
    by rewrite Hstart. }
  cbn [fst snd]. unfold started, push. cbn [trace].
  rewrite <- app_assoc. split; [done|]. split; [done|].
  by rewrite drop_app_length.
Qed.

Lemma start_failure_leaks_witness :
  run (sample_env (Raise AudioDeviceError) one_frame) 1000 (s "Hello world!") 16000
    None None (fresh sample_controller)
  = (Raises AudioDeviceError,
     {| self := sample_controller; trace := [Connect; Start 16000] |}).
Proof.
  destruct (start_failure_leaks (sample_env (Raise AudioDeviceError) one_frame) 1000
              (s "Hello world!") 16000 None None (fresh sample_controller)
              (s "Hello world!") [] AudioDeviceError)
    as (Hfst & Htrace & _); [vm_compute; reflexivity | reflexivity | reflexivity |].
  destruct (run _ _ _ _ _ _ _) as [o [c t]] eqn:E. cbn [fst snd trace] in *.
  subst o t. f_equal. f_equal.
  apply (f_equal (fun x => self (snd x))) in E. cbn [snd self] in E.
  rewrite <- E. vm_compute. reflexivity.
Defined.

(** *** Retries and the cache *)

(** With a usable cache key, [_process_chunk] begins with [cache.get]. *)
Lemma process_chunk_lookup (e : env) (index : Z) (chunk : str) (rate : Z)
    (provider_settings : option settings) (w : world) (k : string) :
  usable_key (self w)
    (_compute_cache_key e (self w) chunk (default no_settings provider_settings))
  = Some k ->
  exists rest,
    trace (snd (_process_chunk e index chunk rate provider_settings w))
    = trace w ++ CacheGet k :: rest.
Proof.
  intros Hk. unfold _process_chunk, bind at 1, get_self. rewrite Hk.
  unfold bind at 1, call at 1.
  destruct (e_cache_get e (trace w) k) as [cached|ex]; cbn [of_result].
  - assert (steady (match cached with
                    | Some hit => replay e index chunk rate hit
                    | None => synthesize e index chunk rate (Some k)
                    end)) as Hs
      by (destruct cached; [apply steady_replay|apply steady_synthesize]).
    destruct (Hs (push (CacheGet k) w)) as (_ & _ & [rest Hrest]).
    exists rest. rewrite Hrest. unfold push. simpl. by rewrite <- app_assoc.
  - exists []. done.
Qed.

Lemma usable_key_config (e : env) (c c' : controller) (chunk : str) (sett : settings) :
  config c = config c' ->
  usable_key c (_compute_cache_key e c chunk sett)
  = usable_key c' (_compute_cache_key e c' chunk sett).
Proof.
  unfold config. intros H. injection H as Hm He Hp _.
  unfold usable_key, _compute_cache_key. by rewrite He, Hp.
Qed.

(** A transient failure within the retry bound: the loop sleeps for the
    backoff delay and goes around again. *)
Lemma attempt_loop_retry (e : env) (depth fuel : nat) (index : Z) (chunk : str)
    (rate : Z) (provider_settings : option settings) (attempts : Z) (w w1 : world)
    (ex : exn) :
  attempt e depth index chunk rate provider_settings w = (Raises ex, w1) ->
  is_transient ex = true ->
  attempts + 1 <= max_retries (self w1) ->
  attempt_loop e depth (S fuel) attempts index chunk rate provider_settings w
  = attempt_loop e depth fuel (attempts + 1) index chunk rate provider_settings
      (push (Sleep (_compute_backoff (attempts + 1) (retry_after_of ex)
                      (e_uniform e (trace w1)))) w1).
Proof.
  intros Ha Ht Hle. simpl. rewrite Ha, Ht.
  destruct (Z.gtb_spec (attempts + 1) (max_retries (self w1))); [lia|]. done.
Qed.

Lemma attempt_loop_extends_attempt (e : env) (depth fuel : nat) (index : Z) (chunk : str)
    (rate : Z) (provider_settings : option settings) (attempts : Z) (w : world) :
  trace (snd (attempt e depth index chunk rate provider_settings w))
  `prefix_of`
  trace (snd (attempt_loop e depth (S fuel) attempts index chunk rate provider_settings w)).
Proof.
  simpl.
  destruct (attempt e depth index chunk rate provider_settings w) as [[a|ex|] w1];
    cbn [fst snd]; [done| |done].
  destruct (is_transient ex); [|done].
  destruct (attempts + 1 >? max_retries (self w1)); [done|].
  unfold bind at 1, call at 1. cbn [of_result].
  etrans; [|apply attempt_loop_prefix]. unfold push. simpl. by apply prefix_app_r.
Qed.

(** C2 (as amended). When an attempt at a chunk ends in a transient error
    and the retry bound is not yet exceeded, the controller sleeps for the
    computed backoff delay and then runs [_process_chunk] on the same chunk
    again; when a cache key is in use, that attempt, like the first, starts
    with [cache.get] for the chunk's key: the lookup is repeated. *)
Theorem retry_repeats_cache_lookup (e : env) (depth fuel : nat) (index : Z)
    (chunk : str) (rate : Z) (provider_settings : option settings) (attempts : Z)
    (w w1 : world) (ex : exn) (k : string) :
  attempt e depth index chunk rate provider_settings w = (Raises ex, w1) ->
  is_transient ex = true ->
  attempts + 1 <= max_retries (self w1) ->
  usable_key (self w)
    (_compute_cache_key e (self w) chunk (default no_settings provider_settings))
  = Some k ->
  let delay :=
    _compute_backoff (attempts + 1) (retry_after_of ex) (e_uniform e (trace w1)) in
  exists first_rest retry_rest,
    trace w1 = trace w ++ CacheGet k :: first_rest
    /\ trace (snd (attempt_loop e depth (S (S fuel)) attempts index chunk rate
                     provider_settings w))
       = trace w1 ++ Sleep delay :: CacheGet k :: retry_rest.
Proof.
  intros Ha Ht Hle Hk delay.
  destruct (process_chunk_lookup e index chunk rate provider_settings w k Hk)
    as [first_rest Hfirst].
  destruct (attempt_raises e depth index chunk rate provider_settings w) as [_ Hsnd].
  rewrite Ha in Hsnd. cbn [snd] in Hsnd. rewrite <- Hsnd in Hfirst.
  exists first_rest.
  rewrite (attempt_loop_retry e depth (S fuel) index chunk rate provider_settings
             attempts w w1 ex Ha Ht Hle).
  fold delay. set (w2 := push (Sleep delay) w1).
  destruct (steady_attempt e depth index chunk rate provider_settings w) as (_ & Hcfg & _).
  rewrite Ha in Hcfg. cbn [snd] in Hcfg.
  assert (usable_key (self w2)
            (_compute_cache_key e (self w2) chunk (default no_settings provider_settings))
          = Some k) as Hk2.
  { rewrite <- Hk. apply usable_key_config. exact Hcfg. }
  destruct (process_chunk_lookup e index chunk rate provider_settings w2 k Hk2)
    as [rest2 Hsecond].
  destruct (attempt_raises e depth index chunk rate provider_settings w2) as [_ Hsnd2].
  rewrite <- Hsnd2 in Hsecond.
  destruct (attempt_loop_extends_attempt e depth fuel index chunk rate provider_settings
              (attempts + 1) w2) as [rest3 Hloop].
  exists (rest2 ++ rest3). split; [done|].
  rewrite Hloop, Hsecond. unfold w2, push. simpl. by rewrite <- !app_assoc.
Qed.

Lemma retry_repeats_cache_lookup_witness :
  exists w1 first_rest retry_rest,
    trace w1 = CacheGet "fingerprint" :: first_rest
    /\ trace (snd (attempt_loop (sample_env (Ok tt) flaky_once) 1000 3 0 0 (s "Retry me")
                     16000 None (fresh caching_controller)))
       = trace w1 ++ Sleep (350 # 1000) :: CacheGet "fingerprint" :: retry_rest.
Proof.
  pose (w1 := snd (attempt (sample_env (Ok tt) flaky_once) 1000 0 (s "Retry me") 16000 None
                     (fresh caching_controller))).
  exists w1.
  destruct (retry_repeats_cache_lookup (sample_env (Ok tt) flaky_once) 1000 1 0
              (s "Retry me") 16000 None 0 (fresh caching_controller) w1
              (ProviderRateLimitError (Some (5 # 100))) "fingerprint")
    as (first_rest & retry_rest & H1 & H2);
    [vm_compute; reflexivity | reflexivity | vm_compute; discriminate
    | vm_compute; reflexivity |].
  exists first_rest, retry_rest. split; [exact H1|exact H2].
Defined.

(** C2 as stated fails: in the run of the retry test with a phrase cache,
    the single chunk meets one transient error, and [cache.get] is called
    for its key once per attempt, twice in all. *)
Lemma retry_looks_up_cache_again :
  let r := run (sample_env (Ok tt) flaky_once) 1000 (s "Retry me") 16000 None None
             (fresh caching_controller) in
  Chunker.chunk_text (s "Retry me") 200 = Ok [s "Retry me"]
  /\ calls is_cache_get (trace (snd r))
     = [CacheGet "fingerprint"; CacheGet "fingerprint"]
  /\ length (calls is_stream (trace (snd r))) = 2%nat.
Proof. repeat split; vm_compute; reflexivity. Qed.

(** *** No chunks *)

Lemma lstrip_spaces (text : str) :
  Forall (fun c => is_space c = true) text -> lstrip text = [].
Proof. induction 1 as [|c text Hc _ IH]; simpl; [done|]. by rewrite Hc. Qed.

Lemma chunk_text_blank (text : str) (max_chars : Z) :
  Forall (fun c => is_space c = true) text -> 0 < max_chars ->
  Chunker.chunk_text text max_chars = Ok [].
Proof.
  intros Hblank Hpos. unfold Chunker.chunk_text.
  destruct (Z.leb_spec max_chars 0); [lia|].
  unfold Chunker._normalize_whitespace, strip. by rewrite (lstrip_spaces text Hblank).
Qed.

(** C10. When the chunker returns no chunk for the text, as [chunk_text]
    does for an empty or all-whitespace text, [run] returns the controller's
    [metrics] list and changes nothing: the controller is as before and no
    call is made on the provider, the playback sink or the cache.  (When the
    chunker raises, [run] raises the same exception, again without any
    call.) *)
Theorem run_without_chunks (e : env) (depth : nat) (text : str) (rate : Z)
    (max_chars : option Z) (provider_settings : option settings) (w : world) :
  let chunk_limit := default (chunk_max_chars (self w)) max_chars in
  (e_chunker e text chunk_limit = Ok [] ->
     run e depth text rate max_chars provider_settings w
     = (Returns (metrics (self w)), w))
  /\ (forall ex, e_chunker e text chunk_limit = Raise ex ->
        run e depth text rate max_chars provider_settings w = (Raises ex, w))
  /\ (Forall (fun c => is_space c = true) text -> 0 < chunk_limit ->
        Chunker.chunk_text text chunk_limit = Ok []).
Proof.
  intros chunk_limit. split; [|split].
  - intros H. rewrite run_unfold. fold chunk_limit. by rewrite H.
  - intros ex H. rewrite run_unfold. fold chunk_limit. by rewrite H.
  - apply chunk_text_blank.
Qed.

Lemma run_without_chunks_witness :
  run (sample_env (Ok tt) one_frame) 1000 (s "   ") 16000 None None
    (fresh sample_controller)
  = (Returns [], fresh sample_controller).
Proof.
  destruct (run_without_chunks (sample_env (Ok tt) one_frame) 1000 (s "   ") 16000
              None None (fresh sample_controller)) as (H & _ & B).
  apply H. apply B; [repeat constructor | reflexivity].
Defined.

End ControllerFacts.

(** ** Latency metrics *)

Module MetricsFacts.

Import Metrics.

Lemma fmax_lower (a b : Q) : (a <= fmax a b)%Q /\ (b <= fmax a b)%Q.
Proof.
  unfold fmax. destruct (Qle_bool b a) eqn:E.
  - apply Qle_bool_iff in E. split; lra.
  - assert (~ (b <= a)%Q) by (rewrite <- Qle_bool_iff; congruence). split; lra.
Qed.

Lemma fmax_cases (a b : Q) :
  ((b <= a)%Q /\ fmax a b = a) \/ ((a < b)%Q /\ fmax a b = b).
Proof.
  unfold fmax. destruct (Qle_bool b a) eqn:E.
  - left. by apply Qle_bool_iff in E.
  - right. assert (~ (b <= a)%Q) by (rewrite <- Qle_bool_iff; congruence).
    split; [lra|done].
Qed.

(** Rounding to the nearest integer moves a value by at most one half. *)
Lemma round_half_even_near (x : Q) :
  (x - (1 # 2) <= inject_Z (round_half_even x))%Q
  /\ (inject_Z (round_half_even x) <= x + (1 # 2))%Q.
Proof.
  unfold round_half_even.
  pose proof (Qfloor_le x) as Hlo. pose proof (Qlt_floor x) as Hhi.
  rewrite inject_Z_plus in Hhi. change (inject_Z 1) with 1%Q in Hhi.
  set (f := Qfloor x) in *.
  destruct (Qcompare_spec (x - inject_Z f) (1 # 2)) as [E|E|E].
  - destruct (Z.even f); [|rewrite inject_Z_plus; change (inject_Z 1) with 1%Q];
      split; lra.
  - split; lra.
  - rewrite inject_Z_plus. change (inject_Z 1) with 1%Q. split; lra.
Qed.

Lemma round_half_even_nonneg (x : Q) : (0 <= x)%Q -> 0 <= round_half_even x.
Proof.
  intros Hx. unfold round_half_even.
  pose proof (Qfloor_resp_le 0 x Hx) as Hf. change (Qfloor 0) with 0 in Hf.
  destruct (_ ?= _)%Q; [destruct (Z.even _)| |]; lia.
Qed.

Lemma round6_near (x : Q) :
  (x - (1 # 2000000) <= round6 x)%Q /\ (round6 x <= x + (1 # 2000000))%Q.
Proof.
  unfold round6. destruct (round_half_even_near (x * 1000000)) as [Hlo Hhi].
  set (r := inject_Z (round_half_even (x * 1000000))) in *.
  split.
  - apply Qle_shift_div_l; [reflexivity|]. lra.
  - apply Qle_shift_div_r; [reflexivity|]. lra.
Qed.

Lemma round6_nonneg (x : Q) : (0 <= x)%Q -> (0 <= round6 x)%Q.
Proof.
  intros Hx. unfold round6. apply Qle_shift_div_l; [reflexivity|].
  assert (0 <= round_half_even (x * 1000000)) as H
    by (apply round_half_even_nonneg; nra).
  rewrite Zle_Qle in H. change (inject_Z 0) with 0%Q in H. lra.
Qed.

(** X1. The three derived latencies are never negative, whatever the order
    of the four timestamps, and each is within half a millionth of a
    millisecond of the clamped difference it rounds. *)
Theorem latencies_clamped (m : ChunkMetrics) :
  let near (latency raw : Q) :=
    (0 <= latency)%Q
    /\ (fmax 0 raw - (1 # 2000000) <= latency)%Q
    /\ (latency <= fmax 0 raw + (1 # 2000000))%Q in
  near (synthesis_latency_ms m) ((first_frame m - request_start m) * 1000)%Q
  /\ near (startup_latency_ms m) ((playback_start m - request_start m) * 1000)%Q
  /\ near (buffer_fill_latency_ms m) ((playback_start m - first_frame m) * 1000)%Q.
Proof.
  assert (forall raw, (0 <= round6 (fmax 0 raw))%Q
                      /\ (fmax 0 raw - (1 # 2000000) <= round6 (fmax 0 raw))%Q
                      /\ (round6 (fmax 0 raw) <= fmax 0 raw + (1 # 2000000))%Q) as H.
  { intros raw. split; [apply round6_nonneg, fmax_lower|apply round6_near]. }
  cbv zeta. unfold synthesis_latency_ms, startup_latency_ms, buffer_fill_latency_ms.
  repeat split; apply H.
Qed.

(** The model of [sorted] returns an ascending rearrangement. *)
Lemma insert_sorted_perm (x : Q) (l : list Q) : insert_sorted x l ≡ₚ x :: l.
Proof.
  induction l as [|y l IH]; simpl; [done|].
  destruct (Qle_bool y x); [|done]. rewrite IH. apply perm_swap.
Qed.

Lemma fold_insert_perm (values acc : list Q) :
  fold_left (fun acc x => insert_sorted x acc) values acc ≡ₚ values ++ acc.
Proof.
  revert acc. induction values as [|x values IH]; intros acc; simpl; [done|].
  rewrite IH, insert_sorted_perm. by rewrite Permutation_middle.
Qed.

Lemma sorted_perm (values : list Q) : sorted values ≡ₚ values.
Proof. unfold sorted. rewrite fold_insert_perm. by rewrite app_nil_r. Qed.

Lemma insert_sorted_ascending (x : Q) (l : list Q) :
  StronglySorted Qle l -> StronglySorted Qle (insert_sorted x l).
Proof.
  induction 1 as [|y l Hs IH Hy]; simpl; [repeat constructor|].
  destruct (Qle_bool y x) eqn:E.
  - constructor; [done|]. rewrite insert_sorted_perm. constructor; [|done].
    by apply Qle_bool_iff.
  - assert (~ (y <= x)%Q) as Hlt by (rewrite <- Qle_bool_iff; congruence).
    constructor; [by constructor|]. constructor; [lra|].
    eapply Forall_impl; [exact Hy|]. intros z Hz. simpl in Hz. lra.
Qed.

Lemma sorted_ascending (values : list Q) : StronglySorted Qle (sorted values).
Proof.
  unfold sorted.
  assert (forall acc, StronglySorted Qle acc ->
            StronglySorted Qle (fold_left (fun acc x => insert_sorted x acc) values acc))
    as H.
  { induction values as [|x values IH]; intros acc Hacc; simpl; [done|].
    apply IH. by apply insert_sorted_ascending. }
  apply H. constructor.
Qed.

Lemma ascending_nth (l : list Q) (i j : nat) :
  StronglySorted Qle l -> (i <= j)%nat -> (j < length l)%nat ->
  (nth i l 0 <= nth j l 0)%Q.
Proof.
  intros Hs. revert i j. induction Hs as [|x l Hs IH Hx]; intros i j Hij Hj;
    simpl in Hj; [lia|].
  destruct i as [|i], j as [|j]; simpl; try lia; try lra.
  - rewrite Forall_forall in Hx. apply Hx, list_elem_of_In, nth_In. lia.
  - apply IH; lia.
Qed.

Lemma sorted_length (values : list Q) : length (sorted values) = length values.
Proof. by rewrite sorted_perm. Qed.

Lemma sorted_nth_In (values : list Q) (i : nat) :
  (i < length values)%nat -> In (nth i (sorted values) 0%Q) values.
Proof.
  intros Hi. apply (Permutation_in _ (sorted_perm values)).
  apply nth_In. by rewrite sorted_length.
Qed.

(** The two ranks a percentile reads lie inside the list. *)
Lemma rank_in_range (n : nat) (p : Q) :
  (0 < n)%nat -> (0 <= p)%Q -> (p <= 1)%Q ->
  let rank := (p * inject_Z (Z.of_nat n - 1))%Q in
  (0 <= rank)%Q /\ (rank <= inject_Z (Z.of_nat n - 1))%Q
  /\ 0 <= Qfloor rank /\ Qceiling rank <= Z.of_nat n - 1
  /\ Qfloor rank <= Qceiling rank.
Proof.
  intros Hn Hp0 Hp1 rank.
  assert (0 <= inject_Z (Z.of_nat n - 1))%Q as Hm.
  { change 0%Q with (inject_Z 0). rewrite <- Zle_Qle. lia. }
  assert (0 <= rank)%Q as H0 by (unfold rank; nra).
  assert (rank <= inject_Z (Z.of_nat n - 1))%Q as H1 by (unfold rank; nra).
  split; [done|]. split; [done|].
  pose proof (Qfloor_resp_le _ _ H0) as Hf. change (Qfloor 0) with 0 in Hf.
  pose proof (Qceiling_resp_le _ _ H1) as Hc. rewrite Qceiling_Z in Hc.
  split; [done|]. split; [done|].
  pose proof (Qfloor_le rank). pose proof (Qle_ceiling rank).
  rewrite Zle_Qle. lra.
Qed.

(** A percentile is an element of the list, or a weighted mean of two. *)
Lemma percentile_mix (values : list Q) (p : Q) :
  values <> [] -> (0 <= p)%Q -> (p <= 1)%Q ->
  exists a b w,
    In a values /\ In b values /\ (0 <= w)%Q /\ (w <= 1)%Q
    /\ (_percentile values p == a * (1 - w) + b * w)%Q.
Proof.
  intros Hne Hp0 Hp1. unfold _percentile.
  destruct (decide (values = [])) as [|_]; [done|].
  assert (0 < length values)%nat as Hn by (destruct values; [done|simpl; lia]).
  rewrite sorted_length.
  destruct (rank_in_range (length values) p Hn Hp0 Hp1) as (H0 & H1 & Hf & Hc & Hfc).
  set (rank := (p * inject_Z (Z.of_nat (length values) - 1))%Q) in *.
  pose proof (Qfloor_le rank) as Hfl. pose proof (Qlt_floor rank) as Hfu.
  rewrite inject_Z_plus in Hfu. change (inject_Z 1) with 1%Q in Hfu.
  destruct (Z.eqb_spec (Qfloor rank) (Qceiling rank)) as [E|E].
  - exists (nth (Z.to_nat (Qfloor rank)) (sorted values) 0%Q),
      (nth (Z.to_nat (Qfloor rank)) (sorted values) 0%Q), 0%Q.
    repeat split; try (apply sorted_nth_In; lia); lra.
  - exists (nth (Z.to_nat (Qfloor rank)) (sorted values) 0%Q),
      (nth (Z.to_nat (Qceiling rank)) (sorted values) 0%Q),
      (rank - inject_Z (Qfloor rank))%Q.
    repeat split; try (apply sorted_nth_In; lia); lra.
Qed.

(** X2. [_percentile] at a whole rank is an order statistic.  For a
    non-empty list and a percentile between 0 and 1 whose rank
    [percentile * (len - 1)] is a whole number [k], the result is the
    element at position [k] of the values in ascending order, hence one of
    the values; no interpolation takes place.  In particular the 0th
    percentile is the smallest value and the 100th the largest.  On the
    empty list the result is 0. *)
Theorem percentile_at_rank (values : list Q) (p : Q) (k : Z) :
  values <> [] -> (0 <= p)%Q -> (p <= 1)%Q ->
  (p * inject_Z (Z.of_nat (length values) - 1) == inject_Z k)%Q ->
  (0 <= k < Z.of_nat (length values)
   /\ _percentile values p = nth (Z.to_nat k) (sorted values) 0%Q
   /\ In (_percentile values p) values)
  /\ (sorted values ≡ₚ values
      /\ forall i j, (i <= j < length values)%nat ->
           (nth i (sorted values) 0 <= nth j (sorted values) 0)%Q)
  /\ (In (_percentile values 0) values
      /\ Forall (fun v => (_percentile values 0 <= v)%Q) values)
  /\ (In (_percentile values 1) values
      /\ Forall (fun v => (v <= _percentile values 1)%Q) values)
  /\ _percentile [] p = 0%Q.
Proof.
  intros Hne Hp0 Hp1 Hrank.
  assert (0 < length values)%nat as Hn by (destruct values; [done|simpl; lia]).
  destruct (rank_in_range (length values) p Hn Hp0 Hp1) as (_ & _ & Hf & Hc & _).
  rewrite (Qfloor_comp _ _ Hrank), Qfloor_Z in Hf.
  rewrite (Qceiling_comp _ _ Hrank), Qceiling_Z in Hc.
  split; [|split; [|split; [|split; [|done]]]].
  - assert (_percentile values p = nth (Z.to_nat k) (sorted values) 0%Q) as ->.
    { unfold _percentile. destruct (decide (values = [])); [done|].
      rewrite sorted_length.
      rewrite !(Qfloor_comp _ _ Hrank), !(Qceiling_comp _ _ Hrank), Qfloor_Z, Qceiling_Z.
      by rewrite Z.eqb_refl. }
    split; [lia|]. split; [done|]. apply sorted_nth_In. lia.
  - split; [apply sorted_perm|]. intros i j Hij.
    apply ascending_nth; [apply sorted_ascending|lia|rewrite sorted_length; lia].
  - assert (_percentile values 0 = nth 0 (sorted values) 0%Q) as ->.
    { unfold _percentile. destruct (decide (values = [])); [done|]. reflexivity. }
    split; [apply sorted_nth_In; lia|].
    apply (Permutation_Forall (sorted_perm values)), Forall_forall. intros v Hv.
    apply list_elem_of_In, (In_nth _ _ 0%Q) in Hv as (j & Hj & <-).
    apply ascending_nth; [apply sorted_ascending|lia|done].
  - assert (_percentile values 1
            = nth (length values - 1) (sorted values) 0%Q) as ->.
    { unfold _percentile. destruct (decide (values = [])); [done|].
      rewrite sorted_length.
      assert (1 * inject_Z (Z.of_nat (length values) - 1)
              == inject_Z (Z.of_nat (length values) - 1))%Q as E by ring.
      rewrite !(Qfloor_comp _ _ E), !(Qceiling_comp _ _ E), Qfloor_Z, Qceiling_Z.
      rewrite Z.eqb_refl. f_equal. lia. }
    split; [apply sorted_nth_In; lia|].
    apply (Permutation_Forall (sorted_perm values)), Forall_forall. intros v Hv.
    apply list_elem_of_In, (In_nth _ _ 0%Q) in Hv as (j & Hj & <-).
    rewrite sorted_length in Hj.
    apply ascending_nth; [apply sorted_ascending|lia|rewrite sorted_length; lia].
Qed.

Lemma percentile_at_rank_witness : _percentile [200; 150; 300]%Q (1 # 2) = 200%Q.
Proof.
  destruct (percentile_at_rank [200; 150; 300]%Q (1 # 2) 1) as [(_ & H & _) _];
    [discriminate | lra | lra | reflexivity |].
  rewrite H. reflexivity.
Defined.

Lemma qsum_nonneg (l : list Q) : Forall (fun v => (0 <= v)%Q) l -> (0 <= qsum l)%Q.
Proof.
  unfold qsum.
  assert (forall acc, (0 <= acc)%Q -> Forall (fun v => (0 <= v)%Q) l ->
            (0 <= fold_left Qplus l acc)%Q) as H.
  { induction l as [|x l IH]; intros acc Hacc Hl; simpl; [done|].
    apply Forall_cons in Hl as [Hx Hl]. apply IH; [lra|done]. }
  apply H. lra.
Qed.

Lemma gaps_nonneg (metrics : list ChunkMetrics) :
  Forall (fun v => (0 <= v)%Q) (gaps metrics).
Proof.
  induction metrics as [|prev [|next rest] IH]; simpl; try constructor; [|done].
  apply fmax_lower.
Qed.

Lemma percentile_nonneg (values : list Q) :
  Forall (fun v => (0 <= v)%Q) values -> (0 <= _percentile values (95 # 100))%Q.
Proof.
  intros Hall. destruct values as [|v values]; [vm_compute; discriminate|].
  destruct (percentile_mix (v :: values) (95 # 100)) as (a & b & w & Ha & Hb & Hw0 & Hw1 & E);
    [done|lra|lra|].
  rewrite Forall_forall in Hall.
  pose proof (Hall a (proj2 (list_elem_of_In _ _) Ha)).
  pose proof (Hall b (proj2 (list_elem_of_In _ _) Hb)).
  rewrite E. nra.
Qed.

(** X3. No figure of a summary is negative, for any sequence of metrics,
    ordered in time or not; the summary of the empty sequence is all
    zeros. *)
Theorem summary_nonneg (metrics : list ChunkMetrics) :
  (0 <= p95_first_frame_ms (summarise_metrics metrics))%Q
  /\ (0 <= p95_startup_ms (summarise_metrics metrics))%Q
  /\ (0 <= avg_inter_chunk_gap_ms (summarise_metrics metrics))%Q
  /\ summarise_metrics []
     = {| p95_first_frame_ms := 0; p95_startup_ms := 0; avg_inter_chunk_gap_ms := 0 |}.
Proof.
  unfold summarise_metrics.
  destruct (decide (metrics = [])) as [|Hne]; simpl; [repeat split; lra|].
  split; [|split; [|split; [|done]]].
  - apply percentile_nonneg, Forall_map, Forall_forall. intros m _.
    unfold synthesis_latency_ms. apply round6_nonneg, fmax_lower.
  - apply percentile_nonneg, Forall_map, Forall_forall. intros m _.
    unfold startup_latency_ms. apply round6_nonneg, fmax_lower.
  - destruct (decide (gaps metrics = [])) as [|Hg]; [lra|].
    apply Qle_shift_div_l.
    + change 0%Q with (inject_Z 0). rewrite <- Zlt_Qlt.
      destruct (gaps metrics); [done|simpl; lia].
    + pose proof (qsum_nonneg _ (gaps_nonneg metrics)). lra.
Qed.

End MetricsFacts.

(** ** Chunker: grouping, strict packing, normalisation *)

Module ChunkerMore.

Import Chunker ChunkerFacts.

Lemma join_cons (sep x : str) (rest : list str) :
  rest <> [] -> join sep (x :: rest) = x ++ sep ++ join sep rest.
Proof. by destruct rest. Qed.

Lemma join_snoc (sep : str) (parts : list str) (x : str) :
  parts <> [] -> join sep (parts ++ [x]) = join sep parts ++ sep ++ x.
Proof.
  induction parts as [|y parts IH]; [done|]. intros _.
  destruct parts as [|z parts]; [done|].
  change ((y :: z :: parts) ++ [x]) with (y :: ((z :: parts) ++ [x])).
  rewrite join_cons by (by destruct parts).
  rewrite IH by done. rewrite (join_cons sep y (z :: parts)) by done.
  by rewrite <- !app_assoc.
Qed.

Lemma join_nonempty (sep : str) (parts : list str) :
  parts <> [] -> Forall (fun x => nonempty x = true) parts ->
  nonempty (join sep parts) = true.
Proof.
  destruct parts as [|x parts]; [done|]. intros _ H.
  apply Forall_cons in H as [Hx _].
  destruct parts; simpl; [done|]. by destruct x.
Qed.

(** The pieces of the slicing loop are never empty. *)
Lemma split_loop_nonempty (fuel : nat) (token : str) (max_chars : Z) (n index : nat) :
  (0 < n)%nat ->
  Forall (fun f => nonempty f = true) (split_loop fuel token max_chars n index).
Proof.
  intros Hn. revert index.
  induction fuel as [|fuel IH]; intros index; simpl; [constructor|].
  destruct (Nat.ltb_spec index (length token)); [|constructor].
  apply Forall_app. split; [|apply IH].
  set (chunk := take n (drop index token)).
  assert (nonempty chunk = true) as Hc.
  { apply nonempty_len. unfold len, chunk. rewrite length_take, length_drop. lia. }
  destruct (index + n <? length token)%nat.
  - repeat constructor. by destruct chunk.
  - destruct (len chunk >? max_chars); [|by repeat constructor].
    unfold singletons. apply Forall_map, Forall_forall. by intros c _.
Qed.

Lemma split_token_nonempty (token : str) (max_chars : Z) :
  nonempty token = true ->
  Forall (fun f => nonempty f = true) (_split_token token max_chars).
Proof.
  intros Ht. unfold _split_token.
  destruct (len token <=? max_chars); [by repeat constructor|].
  destruct (Z.leb_spec max_chars 1).
  - unfold singletons. apply Forall_map, Forall_forall. by intros c _.
  - apply split_loop_nonempty. lia.
Qed.

Lemma fragments_nonempty (sentence : str) (max_chars : Z) :
  Forall (fun f => nonempty f = true) (fragments_of sentence max_chars).
Proof.
  unfold fragments_of.
  induction (fields (Ascii.eqb space) sentence) as [|token toks IH]; simpl;
    [constructor|].
  apply Forall_app. split; [|done].
  destruct (nonempty token) eqn:E; [by apply split_token_nonempty|constructor].
Qed.

(** A packing loop keeps its state a grouping of the fragments consumed. *)
Lemma pack_groups (step : list str * str -> str -> list str * str) :
  (forall results current fragment,
      step (results, current) fragment =
      if negb (nonempty current) then (results, fragment)
      else step (results, current) fragment) ->
  (forall results current fragment, nonempty current = true ->
      step (results, current) fragment = (results, current ++ [space] ++ fragment)
      \/ step (results, current) fragment = (results ++ [current], fragment)) ->
  forall fragments done_ acc groups group,
    Forall (fun f => nonempty f = true) (done_ ++ fragments) ->
    groups_of done_ acc groups group ->
    exists groups' group',
      groups_of (done_ ++ fragments) (fold_left step fragments acc) groups' group'.
Proof.
  intros Hempty Hfull fragments.
  induction fragments as [|f fragments IH];
    intros done_ acc groups group Hne Hinv; simpl.
  - exists groups, group. by rewrite app_nil_r.
  - replace (done_ ++ f :: fragments) with ((done_ ++ [f]) ++ fragments) in *
      by (by rewrite <- app_assoc).
    destruct acc as [results current].
    destruct Hinv as (Hr & Hc & Hd & Hg). simpl in Hr, Hc.
    assert (Forall (fun x => nonempty x = true) group) as Hgroup.
    { apply Forall_app in Hne as [Hne _]. apply Forall_app in Hne as [Hne _].
      rewrite <- Hd in Hne. by apply Forall_app in Hne as [_ Hne]. }
    destruct (nonempty current) eqn:Ecur.
    + assert (group <> []) as Hgne by (intros ->; by rewrite Hc in Ecur).
      destruct (Hfull results current f Ecur) as [-> | ->].
      * apply (IH _ _ groups (group ++ [f])); [done|].
        split; [done|]. split; [simpl; by rewrite join_snoc, Hc|].
        split; [by rewrite <- Hd, <- app_assoc|done].
      * apply (IH _ _ (groups ++ [group]) [f]); [done|].
        split; [simpl; by rewrite map_app, Hr, Hc|]. split; [done|].
        split; [rewrite concat_app; simpl; by rewrite app_nil_r, Hd|].
        apply Forall_app. by repeat constructor.
    + assert (group = []) as ->.
      { destruct group as [|x group]; [done|]. exfalso.
        rewrite Hc, join_nonempty in Ecur; done. }
      rewrite Hempty, Ecur. simpl.
      apply (IH _ _ groups [f]); [done|].
      split; [done|]. split; [done|]. split; [|done].
      rewrite app_nil_r in Hd. by rewrite Hd.
Qed.

Lemma pack_finish (fragments : list str) (acc : list str * str)
    (groups : list (list str)) (group : list str) :
  Forall (fun f => nonempty f = true) fragments ->
  groups_of fragments acc groups group ->
  exists groups',
    (if nonempty (snd acc) then fst acc ++ [snd acc] else fst acc)
    = map (join [space]) groups'
    /\ concat groups' = fragments
    /\ Forall (fun g => g <> []) groups'.
Proof.
  intros Hne (Hr & Hc & Hd & Hg).
  assert (Forall (fun x => nonempty x = true) group) as Hgroup.
  { rewrite <- Hd in Hne. by apply Forall_app in Hne as [_ Hne]. }
  destruct group as [|x group].
  - exists groups. rewrite Hc. simpl. rewrite app_nil_r in Hd. done.
  - exists (groups ++ [x :: group]).
    rewrite Hc, join_nonempty by done.
    split; [by rewrite map_app, Hr|].
    split; [rewrite concat_app; simpl; by rewrite app_nil_r|].
    apply Forall_app. by repeat constructor.
Qed.

(** X4. [_split_sentence] neither drops, reorders nor merges characters of
    the fragments it packs: its chunks are the fragments of the sentence, in
    order, cut into non-empty groups, each group joined by single spaces.
    In particular no chunk is empty, and neither is any chunk that
    [chunk_text] returns. *)
Theorem split_sentence_groups (sentence : str) (max_chars : Z) :
  (exists groups,
      _split_sentence sentence max_chars = map (join [space]) groups
      /\ concat groups = fragments_of sentence max_chars
      /\ Forall (fun g => g <> []) groups)
  /\ Forall (fun c => nonempty c = true) (_split_sentence sentence max_chars)
  /\ (forall text chunks, chunk_text text max_chars = Ok chunks ->
        Forall (fun c => nonempty c = true) chunks).
Proof.
  assert (forall sentence,
            exists groups,
              _split_sentence sentence max_chars = map (join [space]) groups
              /\ concat groups = fragments_of sentence max_chars
              /\ Forall (fun g => g <> []) groups) as Hgroups.
  { clear sentence. intros sentence. unfold _split_sentence.
    pose proof (fragments_nonempty sentence max_chars) as Hne.
    destruct (pack_groups (pack_step max_chars)) with
      (fragments := fragments_of sentence max_chars) (done_ := @nil str)
      (acc := (@nil str, @nil ascii)) (groups := @nil (list str)) (group := @nil str)
      as (groups & group & Hinv).
    - intros results current fragment. unfold pack_step.
      by destruct (negb (nonempty current)).
    - intros results current fragment Hc. unfold pack_step. rewrite Hc. simpl.
      destruct (_ || _); [by left|by right].
    - done.
    - repeat split; constructor.
    - simpl in Hinv.
      destruct (pack_finish _ _ _ _ Hne Hinv) as (groups' & H1 & H2 & H3).
      exists groups'. destruct (fold_left _ _ _) as [results current]. done. }
  assert (forall sentence,
            Forall (fun c => nonempty c = true) (_split_sentence sentence max_chars))
    as Hall.
  { clear sentence. intros sentence.
    destruct (Hgroups sentence) as (groups & -> & Hcat & Hg).
    pose proof (fragments_nonempty sentence max_chars) as Hne. rewrite <- Hcat in Hne.
    apply Forall_map, Forall_forall. intros g Hin.
    rewrite Forall_forall in Hg. apply join_nonempty; [by apply Hg|].
    rewrite Forall_concat in Hne. rewrite Forall_forall in Hne. by apply Hne. }
  split; [apply Hgroups|]. split; [apply Hall|].
  intros text chunks. unfold chunk_text.
  destruct (max_chars <=? 0); [done|].
  destruct (negb _); [intros [= <-]; constructor|].
  intros [= <-].
  induction (map strip _) as [|x rest IH]; simpl; [constructor|].
  apply Forall_app. split; [|done].
  destruct (nonempty x); [apply Hall|constructor].
Qed.

Lemma strict_pack_within (max_chars : Z) (parts : list str) (acc : list str * str) :
  Forall (fun p => len p <= max_chars) parts ->
  Forall (fun c => len c <= max_chars) (fst acc) ->
  (nonempty (snd acc) = true -> len (snd acc) <= max_chars) ->
  let final := fold_left (strict_pack_step max_chars) parts acc in
  Forall (fun c => len c <= max_chars) (fst final)
  /\ (nonempty (snd final) = true -> len (snd final) <= max_chars).
Proof.
  intros Hparts. revert acc.
  induction Hparts as [|p parts Hp _ IH]; intros [chunks current] Hch Hcur; simpl;
    [done|].
  apply IH; simpl in *; destruct (nonempty current) eqn:E; simpl; try done.
  - destruct (Z.leb_spec (len current + 1 + len p) max_chars); simpl; [done|].
    apply Forall_app. split; [done|]. repeat constructor. by apply Hcur.
  - intros _.
    destruct (Z.leb_spec (len current + 1 + len p) max_chars); simpl; [|done].
    change (current ++ space :: p) with (current ++ [space] ++ p).
    rewrite !len_app. change (len [space]) with 1. lia.
Qed.

(** X5. [_pack_chunks], the packer without overshoot, on parts none of
    which is empty: when every part fits in [max_chars], so does every
    chunk it builds; and the chunks are the parts, in order, cut into
    non-empty groups joined by single spaces. *)
Theorem pack_chunks_strict (parts : list str) (max_chars : Z) :
  Forall (fun p => nonempty p = true) parts ->
  Forall (fun p => len p <= max_chars) parts ->
  Forall (fun c => len c <= max_chars) (_pack_chunks parts max_chars)
  /\ exists groups,
       _pack_chunks parts max_chars = map (join [space]) groups
       /\ concat groups = parts
       /\ Forall (fun g => g <> []) groups.
Proof.
  intros Hne Hfit. unfold _pack_chunks. split.
  - destruct (strict_pack_within max_chars parts ([], []) Hfit) as [H1 H2];
      [constructor|done|].
    destruct (fold_left _ _ _) as [chunks current]. simpl in *.
    destruct (nonempty current); [|done].
    apply Forall_app. split; [done|]. repeat constructor. by apply H2.
  - destruct (pack_groups (strict_pack_step max_chars)) with
      (fragments := parts) (done_ := @nil str)
      (acc := (@nil str, @nil ascii)) (groups := @nil (list str)) (group := @nil str)
      as (groups & group & Hinv).
    + intros results current fragment. unfold strict_pack_step.
      by destruct (negb (nonempty current)).
    + intros results current fragment Hc. unfold strict_pack_step. rewrite Hc. simpl.
      destruct (_ <=? _); [by left|by right].
    + done.
    + repeat split; constructor.
    + simpl in Hinv.
      destruct (pack_finish _ _ _ _ Hne Hinv) as (groups' & H1 & H2 & H3).
      exists groups'. destruct (fold_left _ _ _) as [chunks current]. done.
Qed.

Lemma pack_chunks_strict_witness :
  Forall (fun c => len c <= 30)
    (_pack_chunks [s "Sentence"; s "two"; s "is"; s "slightly"; s "longer"; s "but"] 30).
Proof.
  apply pack_chunks_strict; repeat constructor; vm_compute; discriminate.
Defined.

(** *** Whitespace normalisation *)

Lemma fields_free (p : ascii -> bool) (x : str) :
  Forall (Forall (fun c => p c = false)) (fields p x).
Proof.
  induction x as [|c x IH]; simpl; [by repeat constructor|].
  destruct (p c) eqn:E; [by constructor|].
  destruct (fields p x) as [|f fs]; [by repeat constructor|].
  apply Forall_cons in IH as [Hf Hfs]. constructor; [by constructor|done].
Qed.

Lemma fields_nonnil (p : ascii -> bool) (x : str) : fields p x <> [].
Proof.
  destruct x as [|c x]; simpl; [done|].
  destruct (p c); [done|]. by destruct (fields p x).
Qed.

Lemma fields_word_sep (p : ascii -> bool) (w : str) (c : ascii) (rest : str) :
  Forall (fun c => p c = false) w -> p c = true ->
  fields p (w ++ c :: rest) = w :: fields p rest.
Proof.
  intros Hw Hc. induction Hw as [|a w Ha _ IH]; simpl; [by rewrite Hc|].
  by rewrite Ha, IH.
Qed.

Lemma fields_word (p : ascii -> bool) (w : str) :
  Forall (fun c => p c = false) w -> fields p w = [w].
Proof.
  intros Hw. induction Hw as [|a w Ha _ IH]; simpl; [done|]. by rewrite Ha, IH.
Qed.

Lemma fields_join (p : ascii -> bool) (c : ascii) (ws : list str) :
  p c = true -> ws <> [] -> Forall (Forall (fun c => p c = false)) ws ->
  fields p (join [c] ws) = ws.
Proof.
  intros Hc Hne Hws. induction Hws as [|w ws Hw Hws IH]; [done|].
  destruct ws as [|w' ws]; [by apply fields_word|].
  rewrite join_cons by done.
  change ([c] ++ join [c] (w' :: ws)) with (c :: join [c] (w' :: ws)).
  rewrite fields_word_sep by done. by rewrite IH.
Qed.

Lemma split_whitespace_words (x : str) : Forall (word is_space) (split_whitespace x).
Proof.
  unfold split_whitespace. pose proof (fields_free is_space x) as H.
  induction H as [|f fs Hf _ IH]; [constructor|].
  rewrite filter_cons. destruct (decide (nonempty f = true)); [|done].
  constructor; [by split|done].
Qed.

(** Words joined by one space begin and end with a character of a word. *)
Lemma join_ends (ws : list str) :
  ws <> [] -> Forall (word is_space) ws ->
  (exists c y, join [space] ws = c :: y /\ is_space c = false)
  /\ (exists c y, join [space] ws = y ++ [c] /\ is_space c = false).
Proof.
  intros Hne Hws. split.
  - destruct ws as [|w ws]; [done|]. apply Forall_cons in Hws as [[Hw1 Hw2] _].
    destruct w as [|c w]; [done|]. apply Forall_cons in Hw2 as [Hc _].
    exists c. destruct ws; simpl; eauto.
  - induction Hws as [|w ws [Hw1 Hw2] Hws IH]; [done|].
    destruct ws as [|w' ws].
    + simpl. destruct (exists_last (l := w)) as (y & c & ->); [by destruct w|].
      exists c, y. split; [done|].
      apply Forall_app in Hw2 as [_ Hc]. by apply Forall_cons in Hc as [Hc _].
    + destruct IH as (c & y & E & Hc); [done|].
      exists c, (w ++ [space] ++ y). rewrite join_cons by done.
      rewrite E. by rewrite <- !app_assoc.
Qed.

Lemma strip_join (ws : list str) :
  Forall (word is_space) ws -> strip (join [space] ws) = join [space] ws.
Proof.
  intros Hws. destruct ws as [|w ws]; [done|].
  destruct (join_ends (w :: ws)) as [(c & y & E1 & Hc) (c' & y' & E2 & Hc')];
    [done|done|].
  unfold strip. rewrite E1. simpl. rewrite Hc, <- E1, E2.
  rewrite rev_app_distr. simpl. rewrite Hc'.
  change (c' :: rev y') with (rev [c'] ++ rev y'). rewrite <- rev_app_distr.
  apply rev_involutive.
Qed.

Lemma split_whitespace_join (ws : list str) :
  Forall (word is_space) ws -> split_whitespace (join [space] ws) = ws.
Proof.
  intros Hws. unfold split_whitespace.
  destruct ws as [|w ws]; [done|].
  rewrite fields_join; [|done|done|].
  - induction Hws as [|x xs [Hx _] _ IH]; [done|].
    rewrite filter_cons. destruct (decide (nonempty x = true)); [|done].
    by rewrite IH.
  - eapply Forall_impl; [exact Hws|]. by intros x [_ Hx].
Qed.

Lemma split_whitespace_space (c : ascii) (x : str) :
  is_space c = true -> split_whitespace (c :: x) = split_whitespace x.
Proof. intros Hc. unfold split_whitespace. simpl. by rewrite Hc. Qed.

Lemma split_whitespace_lead (g x : str) :
  whitespace g -> split_whitespace (g ++ x) = split_whitespace x.
Proof.
  intros Hg. induction Hg as [|c g Hc _ IH]; [done|].
  simpl. by rewrite split_whitespace_space.
Qed.

Lemma split_whitespace_word_sep (w : str) (c : ascii) (rest : str) :
  word is_space w -> is_space c = true ->
  split_whitespace (w ++ c :: rest) = w :: split_whitespace rest.
Proof.
  intros [Hne Hw] Hc. unfold split_whitespace. rewrite fields_word_sep by done.
  rewrite filter_cons. by destruct (decide (nonempty w = true)).
Qed.

Lemma split_whitespace_word (w : str) : word is_space w -> split_whitespace w = [w].
Proof.
  intros [Hne Hw]. unfold split_whitespace. rewrite fields_word by done.
  rewrite filter_cons. by destruct (decide (nonempty w = true)).
Qed.

Lemma split_whitespace_laid_out (lead : str) (pairs : list (str * str)) :
  layout lead pairs -> split_whitespace (laid_out lead pairs) = map fst pairs.
Proof.
  intros (Hlead & Hpairs & Hsep). unfold laid_out.
  rewrite split_whitespace_lead by done. clear lead Hlead.
  induction Hpairs as [|[w g] rest [Hw Hg] _ IH]; [done|].
  cbn [map concat fst snd] in *. rewrite <- app_assoc.
  destruct g as [|c g].
  - destruct rest as [|wg rest]; [|by destruct Hsep].
    simpl. rewrite app_nil_r. by apply split_whitespace_word.
  - apply Forall_cons in Hg as [Hc Hg]. cbn [app].
    rewrite split_whitespace_word_sep, split_whitespace_lead by done.
    f_equal. apply IH. destruct rest; [done|]. by destruct Hsep.
Qed.

Lemma split_whitespace_lstrip (x : str) :
  split_whitespace (lstrip x) = split_whitespace x.
Proof.
  induction x as [|c x IH]; [done|]. simpl.
  destruct (is_space c) eqn:Hc; [|done]. by rewrite split_whitespace_space.
Qed.

Lemma lstrip_lead (x : str) : exists t, whitespace t /\ x = t ++ lstrip x.
Proof.
  induction x as [|c x (t & Ht & IH)]; [exists []; split; [constructor|done]|].
  simpl. destruct (is_space c) eqn:Hc; [|exists []; split; [constructor|done]].
  exists (c :: t). split; [by constructor|]. simpl. by rewrite <- IH.
Qed.

Lemma fields_separators (p : ascii -> bool) (t : str) :
  Forall (fun c => p c = true) t -> fields p t = [] :: map (fun _ => []) t.
Proof.
  intros Ht. induction Ht as [|c t Hc _ IH]; [done|]. simpl. by rewrite Hc, IH.
Qed.

Lemma fields_trailing (p : ascii -> bool) (z t : str) :
  Forall (fun c => p c = true) t ->
  fields p (z ++ t) = fields p z ++ map (fun _ => []) t.
Proof.
  intros Ht. induction z as [|c z IH]; simpl.
  - by apply fields_separators.
  - rewrite IH. destruct (p c); [done|].
    pose proof (fields_nonnil p z). by destruct (fields p z).
Qed.

Lemma split_whitespace_trailing (z t : str) :
  whitespace t -> split_whitespace (z ++ t) = split_whitespace z.
Proof.
  intros Ht. unfold split_whitespace. rewrite fields_trailing by done.
  rewrite filter_app.
  assert (filter (fun f => nonempty f = true) (map (fun _ : ascii => @nil ascii) t) = [])
    as -> by (clear Ht; induction t; [done|]; simpl; by rewrite filter_cons).
  by rewrite app_nil_r.
Qed.

Lemma split_whitespace_strip (x : str) :
  split_whitespace (strip x) = split_whitespace x.
Proof.
  unfold strip. rewrite <- (split_whitespace_lstrip x).
  destruct (lstrip_lead (rev (lstrip x))) as (t & Ht & E).
  apply (f_equal (@rev ascii)) in E. rewrite rev_involutive, rev_app_distr in E.
  rewrite E at 2. rewrite split_whitespace_trailing; [done|].
  unfold whitespace. apply Forall_forall. intros c Hc.
  apply list_elem_of_In, in_rev, list_elem_of_In in Hc.
  unfold whitespace in Ht. rewrite Forall_forall in Ht. by apply Ht.
Qed.

(** Every text is laid out as words and whitespace. *)
Lemma layout_exists (text : str) :
  exists lead pairs, layout lead pairs /\ text = laid_out lead pairs.
Proof.
  induction text as [|c x (lead & pairs & (Hlead & Hpairs & Hsep) & ->)].
  { exists [], []. split; [|done]. split; [constructor|]. split; [constructor|done]. }
  destruct (is_space c) eqn:Hc.
  { exists (c :: lead), pairs. split; [|done]. split; [by constructor|done]. }
  assert (word is_space [c]) as Hword by (split; [done|by repeat constructor]).
  destruct lead as [|l lead].
  - destruct pairs as [|[w g] rest].
    + exists [], [([c], [])]. split; [|done].
      split; [constructor|]. split; [|done]. repeat constructor; by destruct Hword.
    + exists [], ((c :: w, g) :: rest). split; [|done].
      apply Forall_cons in Hpairs as [[[Hw1 Hw2] Hg] Hrest].
      split; [constructor|]. split; [|done].
      constructor; [|done]. split; [|done]. split; [done|by constructor].
  - exists [], (([c], l :: lead) :: pairs). split.
    + split; [constructor|]. split; [by constructor|].
      simpl. destruct pairs; done.
    + unfold laid_out. simpl. done.
Qed.

(** X6. [_normalize_whitespace] keeps the words of the text and nothing
    else: on a text made of leading whitespace and words, each followed by
    a run of whitespace (non-empty except perhaps after the last word), it
    returns exactly these words, in order, joined by single spaces; every
    text is of this form.  It is idempotent, so chunking a text and chunking
    its normalisation give the same result. *)
Theorem normalize_whitespace_idempotent (text : str) :
  (forall lead pairs,
      layout lead pairs ->
      _normalize_whitespace (laid_out lead pairs) = join [space] (map fst pairs))
  /\ (exists lead pairs, layout lead pairs /\ text = laid_out lead pairs)
  /\ _normalize_whitespace (_normalize_whitespace text) = _normalize_whitespace text
  /\ (forall max_chars,
        chunk_text (_normalize_whitespace text) max_chars = chunk_text text max_chars).
Proof.
  pose proof (split_whitespace_words (strip text)) as Hws.
  assert (_normalize_whitespace (_normalize_whitespace text)
          = _normalize_whitespace text) as Hidem.
  { unfold _normalize_whitespace.
    by rewrite strip_join, split_whitespace_join. }
  split; [|split; [apply layout_exists|]].
  - intros lead pairs Hlayout. unfold _normalize_whitespace.
    by rewrite split_whitespace_strip, split_whitespace_laid_out.
  - split; [done|]. intros max_chars. unfold chunk_text. by rewrite Hidem.
Qed.

End ChunkerMore.

(** ** Phrase cache: paths, hits, independent entries *)

Module CacheMore.

Import Cache CacheFacts.

Lemma string_length_app (x y : string) :
  String.length (x ++ y) = (String.length x + String.length y)%nat.
Proof. induction x as [|c x IH]; simpl; [done|]. by rewrite IH. Qed.

Lemma string_app_assoc (x y z : string) : ((x ++ y) ++ z = x ++ (y ++ z))%string.
Proof.
  induction x as [|c x IH]; [done|].
  unfold String.append; fold String.append. by rewrite IH.
Qed.

(** Equal strings with suffixes of equal length have equal parts. *)
Lemma append_split (x y u v : string) :
  (x ++ u = y ++ v)%string -> String.length u = String.length v -> x = y /\ u = v.
Proof.
  revert y. induction x as [|c x IH]; intros [|c' y] H Hlen;
    unfold String.append in H; fold String.append in H.
  - done.
  - rewrite H in Hlen. simpl in Hlen. rewrite string_length_app in Hlen. lia.
  - rewrite <- H in Hlen. simpl in Hlen. rewrite string_length_app in Hlen. lia.
  - injection H as -> H. destruct (IH y H Hlen) as [-> ->]. done.
Qed.

Lemma shard_length (key : string) :
  String.length (substring 0 2 key) = Nat.min 2 (String.length key).
Proof. destruct key as [|a [|b rest]]; simpl; [done|done|]. by destruct rest. Qed.

(** The file name under a shard determines the key. *)
Lemma sharded_name_inj (key key' ext : string) :
  (substring 0 2 key ++ "/" ++ (key ++ ext)
   = substring 0 2 key' ++ "/" ++ (key' ++ ext))%string ->
  key = key'.
Proof.
  intros H.
  assert (String.length key = String.length key') as Hlen.
  { apply (f_equal String.length) in H.
    rewrite !string_length_app, !shard_length in H.
    cbn [String.length] in H. lia. }
  rewrite <- !string_app_assoc in H.
  apply append_split in H as [H _]; [|done].
  by apply append_split in H as [_ H].
Qed.

Lemma pcm_not_meta (self : PhraseCache) (key key' : string) :
  pcm_path_of self key <> meta_path_of self key'.
Proof.
  unfold pcm_path_of, meta_path_of, _paths_for_key. simpl. intros H.
  change (key' ++ ".json")%string with (key' ++ ("." ++ "json"))%string in H.
  rewrite <- !string_app_assoc in H.
  apply append_split in H as [_ H]; [discriminate|done].
Qed.

Lemma pcm_path_inj (self : PhraseCache) (key key' : string) :
  pcm_path_of self key = pcm_path_of self key' -> key = key'.
Proof.
  unfold pcm_path_of, _paths_for_key. simpl. intros H.
  rewrite !string_app_assoc in H. do 2 apply append_cancel_l in H.
  exact (sharded_name_inj key key' ".pcm" H).
Qed.

Lemma meta_path_inj (self : PhraseCache) (key key' : string) :
  meta_path_of self key = meta_path_of self key' -> key = key'.
Proof.
  unfold meta_path_of, _paths_for_key. simpl. intros H.
  rewrite !string_app_assoc in H. do 2 apply append_cancel_l in H.
  exact (sharded_name_inj key key' ".json" H).
Qed.

(** The four paths of two distinct keys are pairwise distinct. *)
Lemma paths_disjoint_aux (self : PhraseCache) (key key' : string) :
  key <> key' ->
  pcm_path_of self key <> pcm_path_of self key'
  /\ pcm_path_of self key <> meta_path_of self key'
  /\ meta_path_of self key <> pcm_path_of self key'
  /\ meta_path_of self key <> meta_path_of self key'.
Proof.
  intros Hne. repeat split.
  - intros H. by apply pcm_path_inj in H.
  - apply pcm_not_meta.
  - apply not_eq_sym, pcm_not_meta.
  - intros H. by apply meta_path_inj in H.
Qed.

(** X7. Distinct keys without dots and slashes (on which [pathlib] joins
    the components as they are) never share a file: the audio path and the
    metadata path determine the key, and no audio path is a metadata
    path. *)
Theorem entry_paths_disjoint (self : PhraseCache) (key key' : string) :
  plain_key key = true -> plain_key key' = true ->
  (pcm_path_of self key = pcm_path_of self key' -> key = key')
  /\ (meta_path_of self key = meta_path_of self key' -> key = key')
  /\ pcm_path_of self key <> meta_path_of self key'.
Proof.
  intros _ _.
  split; [apply pcm_path_inj|]. split; [apply meta_path_inj|apply pcm_not_meta].
Qed.

Lemma entry_paths_disjoint_witness :
  pcm_path_of sample_cache "abc123" <> meta_path_of sample_cache "deadbeef".
Proof.
  apply (entry_paths_disjoint sample_cache "abc123" "deadbeef"); reflexivity.
Defined.

Lemma drop_entry_no_hit (d d' : fs) (pcm_path meta_path : string)
    (item : CachedItem) :
  drop_entry d pcm_path meta_path <> (Ok (Some item), d').
Proof.
  unfold drop_entry. by destruct (_remove_files d pcm_path meta_path) as [[u|e] d1].
Qed.

(** X8. A hit is sound and read-only: when [get] returns an entry, the
    store is unchanged, the entry's bytes are the content of the audio file,
    its sample rate is the one parsed from the metadata, its creation time
    is timezone-aware and its age does not exceed the TTL.  When either file
    of the entry is missing, [get] returns absent and the store is
    unchanged. *)
Theorem get_hit_sound (c : codec) (self : PhraseCache) (now : Z) (d d' : fs)
    (key : string) (item : CachedItem) :
  (get c self now d key = (Ok (Some item), d') ->
     d' = d
     /\ read d (pcm_path_of self key) = Ok (pcm item)
     /\ (exists text created,
           read d (meta_path_of self key) = Ok text
           /\ parse_meta c text = Ok (created, sample_rate item)
           /\ wall (created_at item) = wall created)
     /\ is_Some (tzoffset (created_at item))
     /\ now - instant (created_at item) <= ttl self)
  /\ (exists_ d (meta_path_of self key) = false
      \/ exists_ d (pcm_path_of self key) = false ->
      get c self now d key = (Ok None, d)).
Proof.
  unfold get.
  change (_paths_for_key self key) with (pcm_path_of self key, meta_path_of self key).
  cbv beta iota. split.
  - destruct (negb _ || negb _); [done|].
    destruct (read d (meta_path_of self key)) as [text|e] eqn:Eread.
    + destruct (parse_meta c text) as [[created rate]|e] eqn:Eparse.
      * set (aware := match tzoffset created with
                      | Some _ => created | None => replace_utc created end).
        destruct (_is_expired self now aware) eqn:Eexp;
          [intros H; by apply drop_entry_no_hit in H|].
        destruct (read d (pcm_path_of self key)) as [bytes|e] eqn:Epcm.
        -- intros [= <- <-]. simpl.
           split; [done|]. split; [done|].
           split; [exists text, created; repeat split; try done;
                   unfold aware; by destruct (tzoffset created)|].
           split; [unfold aware; destruct (tzoffset created) eqn:Etz;
                   [rewrite Etz|simpl]; by eexists|].
           unfold _is_expired in Eexp. rewrite Z.gtb_ltb in Eexp.
           by apply Z.ltb_ge in Eexp.
        -- destruct (is_OSError e); [intros H; by apply drop_entry_no_hit in H|done].
      * destruct (_ || _); [intros H; by apply drop_entry_no_hit in H|done].
    + destruct (_ || _); [intros H; by apply drop_entry_no_hit in H|done].
  - intros [-> | ->]; [done|]. by rewrite orb_true_r.
Qed.

Lemma get_hit_sound_witness :
  let d := put sample_codec sample_cache 5000000 ∅ "abc123" [x00; x01] 16000 in
  read d (pcm_path_of sample_cache "abc123") = Ok [x00; x01].
Proof.
  intros d.
  destruct (get_hit_sound sample_codec sample_cache 6000000 d d "abc123"
              {| pcm := [x00; x01]; sample_rate := 16000; created_at := utc 5000000 |})
    as [H _].
  destruct H as (_ & H & _); [reflexivity | exact H].
Defined.

(** What [get] returns is a function of the two files of the entry. *)
Lemma remove_files_fst (d : fs) (pcm_path meta_path : string) :
  pcm_path <> meta_path ->
  fst (_remove_files d pcm_path meta_path) =
  match d !! pcm_path, d !! meta_path with
  | Some f, Some g =>
      if removable f then if removable g then Ok tt else Raise PermissionError
      else Raise PermissionError
  | Some f, None => if removable f then Ok tt else Raise PermissionError
  | None, Some g => if removable g then Ok tt else Raise PermissionError
  | None, None => Ok tt
  end.
Proof.
  intros Hne. unfold _remove_files, remove_paths, unlink.
  destruct (d !! pcm_path) as [f|] eqn:Ep.
  - destruct (removable f); [|by destruct (d !! meta_path)].
    rewrite lookup_delete_ne by done.
    destruct (d !! meta_path) as [g|]; [by destruct (removable g)|done].
  - simpl. destruct (d !! meta_path) as [g|]; [by destruct (removable g)|done].
Qed.

Lemma get_local (c : codec) (self : PhraseCache) (now : Z) (d1 d2 : fs) (key : string) :
  d1 !! pcm_path_of self key = d2 !! pcm_path_of self key ->
  d1 !! meta_path_of self key = d2 !! meta_path_of self key ->
  fst (get c self now d1 key) = fst (get c self now d2 key).
Proof.
  intros Hp Hm.
  assert (forall d, fst (drop_entry d (pcm_path_of self key) (meta_path_of self key))
                    = match fst (_remove_files d (pcm_path_of self key)
                                   (meta_path_of self key)) with
                      | Ok _ => Ok None
                      | Raise e => Raise e
                      end) as Hdrop.
  { intros d. unfold drop_entry. by destruct (_remove_files _ _ _) as [[u|e] d0]. }
  assert (fst (drop_entry d1 (pcm_path_of self key) (meta_path_of self key))
          = fst (drop_entry d2 (pcm_path_of self key) (meta_path_of self key))) as Hd.
  { rewrite !Hdrop, !remove_files_fst by apply paths_distinct. by rewrite Hp, Hm. }
  unfold get.
  change (_paths_for_key self key) with (pcm_path_of self key, meta_path_of self key).
  cbv beta iota. unfold exists_, read. rewrite Hp, Hm.
  destruct (negb _ || negb _); [done|].
  destruct (d2 !! meta_path_of self key) as [g|]; [destruct (readable g)|]; simpl;
    try done.
  destruct (parse_meta c (data g)) as [[created rate]|e].
  - destruct (_is_expired _ _ _); [done|].
    destruct (d2 !! pcm_path_of self key) as [f|]; [destruct (readable f)|]; by simpl.
  - by destruct (_ || _).
Qed.

(** X9. Entries are independent: for keys without dots and slashes, [put]
    for one key changes nothing about what [get] returns for another
    key. *)
Theorem put_other_key (c : codec) (self : PhraseCache) (d : fs) (key key' : string)
    (b : list byte) (r : Z) (t_put now : Z) :
  plain_key key = true -> plain_key key' = true ->
  key <> key' ->
  fst (get c self now (put c self t_put d key b r) key')
  = fst (get c self now d key').
Proof.
  intros _ _ Hne.
  destruct (paths_disjoint_aux self key key' Hne) as (H1 & H2 & H3 & H4).
  apply get_local; unfold put;
    change (_paths_for_key self key) with (pcm_path_of self key, meta_path_of self key);
    cbv beta iota; by rewrite !write_lookup_ne.
Qed.

Lemma put_other_key_witness :
  fst (get sample_codec sample_cache 6000000
         (put sample_codec sample_cache 5000000 ∅ "abc123" [x00; x01] 16000) "deadbeef")
  = Ok None.
Proof.
  rewrite (put_other_key sample_codec sample_cache ∅ "abc123" "deadbeef");
    [reflexivity|reflexivity|reflexivity|discriminate].
Defined.

(** A readable, current entry is returned as it is stored. *)
Lemma get_stored (c : codec) (self : PhraseCache) (now : Z) (d : fs) (key : string)
    (b text : list byte) (r t : Z) :
  d !! pcm_path_of self key = Some (plain b) ->
  d !! meta_path_of self key = Some (plain text) ->
  parse_meta c text = Ok (utc t, r) ->
  now - t <= ttl self ->
  get c self now d key
  = (Ok (Some {| pcm := b; sample_rate := r; created_at := utc t |}), d).
Proof.
  intros Hp Hm Hparse Hage. unfold get.
  change (_paths_for_key self key) with (pcm_path_of self key, meta_path_of self key).
  cbv beta iota. unfold exists_, read. rewrite Hp, Hm. simpl. rewrite Hparse. simpl.
  unfold _is_expired, instant. simpl.
  destruct (Z.gtb_spec (now - (t - 0)) (ttl self)); [lia|done].
Qed.

(** X10. The last writer wins: after two [put]s for the same key, [get]
    returns the bytes and the sample rate of the second one (while its age
    is within the TTL), whatever the first one stored. *)
Theorem put_overwrites (c : codec) (self : PhraseCache) (d : fs) (key : string)
    (b1 b2 : list byte) (r1 r2 : Z) (t1 t2 now : Z) :
  healthy_at d (pcm_path_of self key) ->
  healthy_at d (meta_path_of self key) ->
  parse_meta c (render_meta c (utc t2) r2 (Z.of_nat (length b2))) = Ok (utc t2, r2) ->
  now - t2 <= ttl self ->
  let d2 := put c self t2 (put c self t1 d key b1 r1) key b2 r2 in
  get c self now d2 key
  = (Ok (Some {| pcm := b2; sample_rate := r2; created_at := utc t2 |}), d2).
Proof.
  intros Hp Hm Hcodec Hage d2.
  destruct (put_lookup c self t1 d key b1 r1 Hp Hm) as [Hp1 Hm1].
  destruct (put_lookup c self t2 (put c self t1 d key b1 r1) key b2 r2) as [Hp2 Hm2].
  - unfold healthy_at. by rewrite Hp1.
  - unfold healthy_at. by rewrite Hm1.
  - by eapply get_stored.
Qed.

Lemma put_overwrites_witness :
  fst (get sample_codec sample_cache 8000000
         (put sample_codec sample_cache 7000000
            (put sample_codec sample_cache 5000000 ∅ "abc123" [x00; x01] 16000)
            "abc123" [x02; x03; x04; x05] 22050)
         "abc123")
  = Ok (Some {| pcm := [x02; x03; x04; x05]; sample_rate := 22050;
                created_at := utc 7000000 |}).
Proof.
  rewrite (put_overwrites sample_codec sample_cache ∅ "abc123" [x00; x01]
             [x02; x03; x04; x05] 16000 22050 5000000 7000000 8000000);
    [reflexivity | exact I | exact I | reflexivity | vm_compute; discriminate].
Defined.

End CacheMore.

(** ** Streaming controller: what is called, and how often *)

(** ** The sweep of expired entries *)

Module CacheSweep.

Import Cache CacheFacts CacheMore.

Lemma unlink_lookup (d : fs) (path q : string) :
  snd (unlink d path) !! q = d !! q
  \/ (q = path /\ snd (unlink d path) !! q = None).
Proof.
  unfold unlink. destruct (d !! path) as [f|] eqn:E; [|by left].
  destruct (removable f); [|by left]. cbn [snd].
  destruct (decide (q = path)) as [->|Hne].
  - right. split; [done|]. apply lookup_delete_eq.
  - left. by apply lookup_delete_ne.
Qed.

Lemma unlink_done (d : fs) (path : string) (e : exn) :
  fst (unlink d path) = Ok tt
  \/ (fst (unlink d path) = Raise e /\ is_FileNotFoundError e = true) ->
  snd (unlink d path) !! path = None.
Proof.
  unfold unlink. destruct (d !! path) as [f|] eqn:E; [|by intros].
  destruct (removable f); cbn [fst snd].
  - intros _. apply lookup_delete_eq.
  - intros [|[[= <-] ?]]; done.
Qed.

Lemma remove_paths_spec (d : fs) (paths : list string) :
  (forall q, snd (remove_paths d paths) !! q = d !! q
             \/ (q ∈ paths /\ snd (remove_paths d paths) !! q = None))
  /\ (fst (remove_paths d paths) = Ok tt ->
      forall q, q ∈ paths -> snd (remove_paths d paths) !! q = None).
Proof.
  revert d. induction paths as [|path rest IH]; intros d.
  { split; [by left|]. intros _ q Hq. by apply elem_of_nil in Hq. }
  cbn [remove_paths].
  pose proof (unlink_lookup d path) as Hlook.
  pose proof (unlink_done d path) as Hdone.
  assert (forall d',
             (forall q, d' !! q = d !! q \/ (q = path /\ d' !! q = None)) ->
             d' !! path = None ->
             (forall q, snd (remove_paths d' rest) !! q = d !! q
                        \/ (q ∈ path :: rest /\ snd (remove_paths d' rest) !! q = None))
             /\ (fst (remove_paths d' rest) = Ok tt ->
                 forall q, q ∈ path :: rest -> snd (remove_paths d' rest) !! q = None))
    as Hrest.
  { intros d' Hd' Hgone. destruct (IH d') as [Hall Hok]. split.
    - intros q. destruct (Hall q) as [Hq|[Hin Hq]].
      + rewrite Hq. destruct (Hd' q) as [?|[-> ?]]; [by left|].
        right. split; [by left|congruence].
      + right. split; [by right|done].
    - intros Hfst q Hq. apply elem_of_cons in Hq as [->|Hq]; [|by apply Hok].
      destruct (Hall path) as [Hp|[_ Hp]]; [congruence|done]. }
  destruct (unlink d path) as [[u|e] d'] eqn:E; cbn [fst snd] in *.
  - apply Hrest; [done|]. apply (Hdone ValueError). left. by destruct u.
  - destruct (is_FileNotFoundError e) eqn:Ee.
    + apply Hrest; [done|]. apply (Hdone e). by right.
    + cbn [fst snd]. split; [|done].
      intros q. destruct (Hlook q) as [?|[-> ?]]; [by left|].
      right. split; [by left|done].
Qed.

Lemma examine_spec (parse_created : list byte -> result datetime)
    (self : PhraseCache) (now : Z) (d : fs) (meta_file : string) :
  (forall q, snd (examine parse_created self now d meta_file) !! q = d !! q
             \/ ((q = meta_file \/ q = with_suffix_pcm meta_file)
                 /\ snd (examine parse_created self now d meta_file) !! q = None))
  /\ (current parse_created self now d meta_file ->
      examine parse_created self now d meta_file = (Ok tt, d))
  /\ (ttl self < now ->
      fst (examine parse_created self now d meta_file) = Ok tt ->
      snd (examine parse_created self now d meta_file) !! meta_file <> None ->
      current parse_created self now d meta_file).
Proof.
  assert (forall created,
             _is_expired self now
               match tzoffset created with
               | Some _ => created
               | None => replace_utc created
               end
             = (now - (wall created - default 0 (tzoffset created)) >? ttl self))
    as Hexp.
  { intros [w [o|]]; unfold _is_expired, instant; simpl; [done|].
    by rewrite Z.sub_0_r. }
  pose proof (remove_paths_spec d [with_suffix_pcm meta_file; meta_file])
    as [Hall Hok].
  assert (forall q, snd (_remove_files d (with_suffix_pcm meta_file) meta_file) !! q
                    = d !! q
                    \/ ((q = meta_file \/ q = with_suffix_pcm meta_file)
                        /\ snd (_remove_files d (with_suffix_pcm meta_file) meta_file) !! q
                           = None)) as Hall'.
  { intros q. unfold _remove_files. destruct (Hall q) as [?|[Hin ?]]; [by left|].
    right. split; [|done].
    apply elem_of_cons in Hin as [->|Hin]; [by right|].
    apply list_elem_of_singleton in Hin. by left. }
  assert (fst (_remove_files d (with_suffix_pcm meta_file) meta_file) = Ok tt ->
          snd (_remove_files d (with_suffix_pcm meta_file) meta_file) !! meta_file
          = None) as Hgone.
  { intros H. apply Hok; [done|]. right. by left. }
  clear Hall Hok. unfold examine.
  split; [|split].
  - intros q.
    destruct (read d meta_file) as [text|e]; [destruct (parse_created text) as [created|e]|].
    + rewrite Hexp. destruct (_ >? _); [apply Hall'|by left].
    + destruct (is_OSError e || is_ValueError e); [|by left].
      rewrite Hexp. destruct (_ >? _); [apply Hall'|by left].
    + destruct (is_OSError e || is_ValueError e); [|by left].
      rewrite Hexp. destruct (_ >? _); [apply Hall'|by left].
  - intros (text & created & -> & -> & Hfresh). rewrite Hexp.
    destruct (Z.gtb_spec (now - (wall created - default 0 (tzoffset created))) (ttl self));
      [lia|done].
  - intros Hnow.
    assert ((now - (wall epoch - default 0 (tzoffset epoch)) >? ttl self) = true)
      as Hold.
    { simpl. destruct (Z.gtb_spec (now - (0 - 0)) (ttl self)); [done|lia]. }
    unfold current.
    destruct (read d meta_file) as [text|e]; [destruct (parse_created text) as [created|e] eqn:Ep|].
    + rewrite Hexp.
      destruct (Z.gtb_spec (now - (wall created - default 0 (tzoffset created)))
                           (ttl self)).
      * intros H1 H2. exfalso. by apply H2, Hgone.
      * intros _ _. exists text, created. split; [done|]. split; [done|lia].
    + destruct (is_OSError e || is_ValueError e); [|done].
      rewrite Hexp, Hold. intros H1 H2. exfalso. by apply H2, Hgone.
    + destruct (is_OSError e || is_ValueError e); [|done].
      rewrite Hexp, Hold. intros H1 H2. exfalso. by apply H2, Hgone.
Qed.

Lemma current_ext (parse_created : list byte -> result datetime) (self : PhraseCache)
    (now : Z) (d d' : fs) (meta_file : string) :
  d' !! meta_file = d !! meta_file ->
  current parse_created self now d meta_file ->
  current parse_created self now d' meta_file.
Proof.
  intros Heq (text & created & Hread & Hrest). exists text, created.
  split; [|done]. unfold read in *. by rewrite Heq.
Qed.

Lemma current_present (parse_created : list byte -> result datetime)
    (self : PhraseCache) (now : Z) (d : fs) (meta_file : string) :
  current parse_created self now d meta_file -> d !! meta_file <> None.
Proof.
  intros (text & created & Hread & _) Hnone. unfold read in Hread. by rewrite Hnone in Hread.
Qed.

(** What the sweep does to each path, and what is left of the files it has
    examined when it returns. *)
Lemma evict_spec (parse_created : list byte -> result datetime) (self : PhraseCache)
    (now : string -> Z) (meta_files : list string) (d : fs) :
  (forall q,
      snd (_evict_expired parse_created self now d meta_files) !! q = d !! q
      \/ (snd (_evict_expired parse_created self now d meta_files) !! q = None
          /\ exists m, m ∈ meta_files /\ (q = m \/ q = with_suffix_pcm m)))
  /\ ((forall m, ttl self < now m) ->
      fst (_evict_expired parse_created self now d meta_files) = Ok tt ->
      forall m, m ∈ meta_files ->
        snd (_evict_expired parse_created self now d meta_files) !! m <> None ->
        current parse_created self (now m) d m).
Proof.
  revert d. induction meta_files as [|m rest IH]; intros d.
  { split; [by left|]. intros _ _ m Hm. by apply elem_of_nil in Hm. }
  cbn [_evict_expired].
  destruct (examine_spec parse_created self (now m) d m) as (Hall & _ & Hleft).
  destruct (examine parse_created self (now m) d m) as [[u|e] d1]; cbn [fst snd] in *.
  - destruct (IH d1) as [Hall' Hleft']. split.
    + intros q. destruct (Hall' q) as [Hq|[Hq (m' & Hm' & Hqm)]].
      * rewrite Hq. destruct (Hall q) as [?|[Hqm ?]]; [by left|].
        right. split; [done|]. exists m. split; [by left|done].
      * right. split; [done|]. exists m'. split; [by right|done].
    + intros Hnow Hok m' Hm' Hpresent.
      apply elem_of_cons in Hm' as [->|Hm'].
      * apply Hleft; [done|by destruct u|].
        destruct (Hall' m) as [<-|[? _]]; done.
      * pose proof (Hleft' Hnow Hok m' Hm' Hpresent) as Hcur.
        eapply current_ext; [|exact Hcur].
        destruct (Hall m') as [?|[_ Hgone]]; [done|].
        by destruct (current_present _ _ _ _ _ Hcur).
  - split; [|done]. intros q. destruct (Hall q) as [?|[Hqm ?]]; [by left|].
    right. split; [done|]. exists m. split; [by left|done].
Qed.

(** *** Paths *)

Lemma la_app (x y : string) :
  list_ascii_of_string (x ++ y)%string
  = list_ascii_of_string x ++ list_ascii_of_string y.
Proof. induction x as [|c x IH]; simpl; [done|by rewrite IH]. Qed.

Lemma string_of_list_app (k l : list ascii) :
  string_of_list_ascii (k ++ l)
  = (string_of_list_ascii k ++ string_of_list_ascii l)%string.
Proof. induction k as [|c k IH]; simpl; [done|by rewrite IH]. Qed.

Lemma ends_with_spec (suffix x : string) :
  ends_with suffix x = true
  <-> exists k, list_ascii_of_string x = k ++ list_ascii_of_string suffix.
Proof. unfold ends_with. by rewrite bool_decide_eq_true. Qed.

Lemma ends_with_app (suffix x : string) : ends_with suffix (x ++ suffix)%string = true.
Proof. apply ends_with_spec. exists (list_ascii_of_string x). apply la_app. Qed.

Lemma pcm_not_json (x : string) : ends_with ".json" (x ++ ".pcm")%string = false.
Proof.
  apply not_true_iff_false. intros [k Hk]%ends_with_spec. rewrite la_app in Hk.
  change (list_ascii_of_string ".pcm")
    with (["."%char; "p"%char; "c"%char] ++ ["m"%char]) in Hk.
  change (list_ascii_of_string ".json")
    with (["."%char; "j"%char; "s"%char; "o"%char] ++ ["n"%char]) in Hk.
  rewrite !app_assoc in Hk. by apply app_inj_tail in Hk as [_ ?].
Qed.

Lemma with_suffix_pcm_shape (meta_file : string) :
  exists stem, with_suffix_pcm meta_file = (stem ++ ".pcm")%string.
Proof. unfold with_suffix_pcm. destruct (ends_with "/.json" meta_file); by eexists. Qed.

Lemma with_suffix_pcm_not_json (meta_file : string) :
  ends_with ".json" (with_suffix_pcm meta_file) = false.
Proof.
  destruct (with_suffix_pcm_shape meta_file) as [stem ->]. apply pcm_not_json.
Qed.

Lemma pcm_path_shape (self : PhraseCache) (key : string) :
  pcm_path_of self key
  = (((cache_dir self ++ "/" ++ substring 0 2 key) ++ "/" ++ key) ++ ".pcm")%string.
Proof.
  unfold pcm_path_of, _paths_for_key. cbn [fst].
  by rewrite !string_app_assoc.
Qed.

Lemma meta_path_shape (self : PhraseCache) (key : string) :
  meta_path_of self key
  = (((cache_dir self ++ "/" ++ substring 0 2 key) ++ "/" ++ key) ++ ".json")%string.
Proof.
  unfold meta_path_of, _paths_for_key. cbn [snd].
  by rewrite !string_app_assoc.
Qed.

Lemma string_app_inv_tail (x y z : string) : (x ++ z = y ++ z)%string -> x = y.
Proof. intros H. by apply append_split in H as [? _]. Qed.

(** A path that ends in a plain key does not name a file called [.json]. *)
Lemma plain_key_not_hidden (bucket key : string) :
  plain_key key = true -> ends_with "/.json" (bucket ++ "/" ++ key)%string = false.
Proof.
  intros Hplain. apply not_true_iff_false. intros [k Hk]%ends_with_spec.
  rewrite !la_app in Hk. unfold plain_key in Hplain.
  rewrite forallb_forall in Hplain.
  apply (f_equal (@rev ascii)) in Hk. rewrite !rev_app_distr in Hk.
  assert (forall c, In c (rev (list_ascii_of_string key)) ->
                    c <> "."%char /\ c <> "/"%char) as Hrev.
  { intros c Hc%in_rev. specialize (Hplain c Hc).
    apply andb_true_iff in Hplain as [H1 H2].
    split; intros ->; by rewrite Ascii.eqb_refl in *. }
  simpl in Hk.
  destruct (rev (list_ascii_of_string key)) as [|c1 [|c2 [|c3 [|c4 [|c5 tail]]]]];
    simpl in Hk; try (by injection Hk).
  injection Hk as _ _ _ _ H5 _.
  destruct (Hrev c5) as [Hdot _]; [simpl; tauto|]. done.
Qed.

(** The audio file of an entry with a plain key is the sibling of its own
    metadata file only. *)
Lemma with_suffix_pcm_entry (self : PhraseCache) (key meta_file : string) :
  plain_key key = true ->
  ends_with ".json" meta_file = true ->
  with_suffix_pcm meta_file = pcm_path_of self key ->
  meta_file = meta_path_of self key.
Proof.
  intros Hplain Hjson. rewrite pcm_path_shape, meta_path_shape.
  unfold with_suffix_pcm. destruct (ends_with "/.json" meta_file) eqn:Ehidden.
  - intros ->%string_app_inv_tail.
    by rewrite plain_key_not_hidden in Ehidden.
  - apply ends_with_spec in Hjson as [k Hk]. rewrite Hk.
    rewrite length_app, Nat.add_sub, take_app_length.
    intros Hstem%string_app_inv_tail.
    rewrite <- (string_of_list_ascii_of_string meta_file), Hk, string_of_list_app, Hstem.
    done.
Qed.

(** X11. The sweep only deletes: whatever it does and however it ends,
    every file left has the content it had, and each deleted path is one of
    the metadata files examined or a path ending in [.pcm] (the audio
    sibling of one of them). *)
Theorem sweep_only_deletes (parse_created : list byte -> result datetime)
    (self : PhraseCache) (now : string -> Z) (d : fs) (meta_files : list string) :
  let d' := snd (_evict_expired parse_created self now d meta_files) in
  (forall q f, d' !! q = Some f -> d !! q = Some f)
  /\ (forall q, d !! q <> None -> d' !! q = None ->
        q ∈ meta_files
        \/ (ends_with ".pcm" q = true
            /\ exists m, m ∈ meta_files /\ q = with_suffix_pcm m)).
Proof.
  intros d'. destruct (evict_spec parse_created self now meta_files d) as [Hall _].
  fold d' in Hall. split.
  - intros q f Hq. destruct (Hall q) as [<-|[Hnone _]]; [done|congruence].
  - intros q Hbefore Hafter. destruct (Hall q) as [Heq|[_ (m & Hm & [->| ->])]].
    + congruence.
    + by left.
    + right. split; [|by exists m].
      destruct (with_suffix_pcm_shape m) as [stem ->]. apply ends_with_app.
Qed.

Lemma sweep_only_deletes_witness :
  let d : fs := <[ "cache/ab/abc123.json"%string := plain [] ]>
           (<[ "cache/ab/abc123.pcm"%string := plain [x00; x01] ]>
            (<[ "cache/notes.txt"%string := plain [x41] ]> ∅)) in
  d !! "cache/notes.txt"%string = Some (plain [x41]).
Proof.
  intros d.
  destruct (sweep_only_deletes (fun _ => Raise ValueError) sample_cache
              (fun _ => 100000000) d ["cache/ab/abc123.json"%string]) as [Hleft _].
  apply Hleft. vm_compute. reflexivity.
Defined.

Lemma rglob_json_spec (self : PhraseCache) (d : fs) (m : string) :
  m ∈ rglob_json self d <-> is_meta_file self m = true /\ d !! m <> None.
Proof.
  unfold rglob_json. rewrite list_elem_of_filter. split.
  - intros [Hmeta Hin]. split; [done|].
    apply list_elem_of_In, in_map_iff in Hin as ([m' f] & <- & Hin).
    apply list_elem_of_In, elem_of_map_to_list in Hin. simpl. congruence.
  - intros [Hmeta Hin]. split; [done|].
    destruct (d !! m) as [f|] eqn:E; [|done].
    apply list_elem_of_In, in_map_iff. exists (m, f). split; [done|].
    by apply list_elem_of_In, elem_of_map_to_list.
Qed.

(** X12. When [PhraseCache(cache_dir, ttl_seconds)] returns, and the clock
    is past the epoch by more than the TTL, every metadata file left below
    the cache directory can be read, holds a creation time and has not
    expired: expired, unreadable and malformed ones are gone. *)
Theorem init_clears_expired (parse_created : list byte -> result datetime)
    (dir : string) (ttl_seconds : Z) (now : string -> Z) (d d' : fs)
    (self : PhraseCache) :
  (forall m, ttl_seconds * 1000000 < now m) ->
  init parse_created dir ttl_seconds now d = (Ok self, d') ->
  cache_dir self = dir /\ ttl self = ttl_seconds * 1000000
  /\ forall m, is_meta_file self m = true -> d' !! m <> None ->
       current parse_created self (now m) d' m.
Proof.
  intros Hnow. unfold init.
  set (self0 := {| cache_dir := dir; ttl := ttl_seconds * 1000000 |}).
  destruct (evict_spec parse_created self0 now (rglob_json self0 d) d) as [Hall Hleft].
  destruct (_evict_expired parse_created self0 now d (rglob_json self0 d))
    as [[u|e] d1]; [|done].
  intros [= <- <-]. cbn [fst snd] in *. split; [done|]. split; [done|].
  intros m Hmeta Hpresent.
  assert (d1 !! m = d !! m) as Heq by (destruct (Hall m) as [?|[? _]]; done).
  eapply current_ext; [exact Heq|].
  apply Hleft; [done|by destruct u| |done].
  apply rglob_json_spec. split; [done|congruence].
Qed.

Lemma init_clears_expired_witness :
  let d : fs := <[ "cache/ab/abc123.json"%string := plain [] ]>
           (<[ "cache/ab/abc123.pcm"%string := plain [x00; x01] ]> ∅) in
  let r := init (fun _ => Raise ValueError) "cache" 60 (fun _ => 100000000) d in
  snd r !! "cache/ab/abc123.json"%string = None.
Proof.
  intros d r.
  destruct (snd r !! "cache/ab/abc123.json"%string) as [f|] eqn:Hleft; [|reflexivity].
  exfalso.
  destruct (init_clears_expired (fun _ => Raise ValueError) "cache" 60
              (fun _ => 100000000) d (snd r) sample_cache)
    as (_ & _ & Hcur).
  - intros m. lia.
  - vm_compute. reflexivity.
  - destruct (Hcur "cache/ab/abc123.json"%string) as (text & created & _ & Hparse & _).
    + vm_compute. reflexivity.
    + by rewrite Hleft.
    + discriminate Hparse.
Defined.

(** A path that no failing metadata file claims is left alone. *)
Lemma evict_keeps (parse_created : list byte -> result datetime) (self : PhraseCache)
    (now : string -> Z) (q : string) (meta_files : list string) (d : fs) :
  Forall (fun m => ends_with ".json" m = true) meta_files ->
  (forall m, m ∈ meta_files ->
     current parse_created self (now m) d m \/ (q <> m /\ q <> with_suffix_pcm m)) ->
  snd (_evict_expired parse_created self now d meta_files) !! q = d !! q.
Proof.
  intros Hjson. revert d.
  induction Hjson as [|m rest Hm Hjson IH]; intros d Hq; [done|].
  cbn [_evict_expired].
  destruct (examine_spec parse_created self (now m) d m) as (Hall & Hnoop & _).
  assert (forall m', m' ∈ rest ->
            current parse_created self (now m') d m'
            \/ (q <> m' /\ q <> with_suffix_pcm m')) as Hrest
    by (intros m' Hm'; apply Hq; by right).
  destruct (Hq m) as [Hcur|[Hne1 Hne2]]; [by left| |].
  { rewrite (Hnoop Hcur). by apply IH. }
  destruct (examine parse_created self (now m) d m) as [[u|e] d1] eqn:E;
    cbn [fst snd] in *.
  - rewrite IH.
    + destruct (Hall q) as [?|[[?|?] _]]; done.
    + intros m' Hm'. destruct (Hrest m' Hm') as [Hcur|?]; [left|by right].
      destruct (decide (m' = m)) as [->|Hne].
      * specialize (Hnoop Hcur). by injection Hnoop as _ ->.
      * eapply current_ext; [|exact Hcur].
        destruct (Hall m') as [?|[[?|Hsib] _]]; [done|done|].
        pose proof (with_suffix_pcm_not_json m) as Hnot. rewrite <- Hsib in Hnot.
        apply (proj1 (Forall_forall _ _)) with (x := m') in Hjson; [congruence|done].
  - destruct (Hall q) as [?|[[?|?] _]]; done.
Qed.

(** X13. The sweep leaves current entries alone.  For a key without dots
    and slashes whose metadata file, if there is one, is current when it is
    examined, [PhraseCache(cache_dir, ttl_seconds)] touches neither of the
    entry's two files, so that [get] answers for this key as it would have
    before, whatever else the directory holds and however the sweep
    ends. *)
Theorem init_keeps_current (parse_created : list byte -> result datetime)
    (dir : string) (ttl_seconds : Z) (now : string -> Z) (d : fs) (key : string) :
  let self := {| cache_dir := dir; ttl := ttl_seconds * 1000000 |} in
  let d' := snd (init parse_created dir ttl_seconds now d) in
  plain_key key = true ->
  (d !! meta_path_of self key <> None ->
   current parse_created self (now (meta_path_of self key)) d (meta_path_of self key)) ->
  d' !! pcm_path_of self key = d !! pcm_path_of self key
  /\ d' !! meta_path_of self key = d !! meta_path_of self key
  /\ forall c t, fst (get c self t d' key) = fst (get c self t d key).
Proof.
  intros self d' Hplain Hcur.
  assert (d' = snd (_evict_expired parse_created self now d (rglob_json self d))) as ->.
  { unfold d', init. fold self. by destruct (_evict_expired _ _ _ _ _) as [[?|?] ?]. }
  assert (Forall (fun m => ends_with ".json" m = true) (rglob_json self d)) as Hjson.
  { apply Forall_forall. intros m [Hmeta _]%rglob_json_spec.
    unfold is_meta_file in Hmeta. by apply andb_true_iff in Hmeta as [_ ?]. }
  assert (forall m, m ∈ rglob_json self d -> m <> meta_path_of self key ->
                    pcm_path_of self key <> m
                    /\ pcm_path_of self key <> with_suffix_pcm m) as Hpcm.
  { intros m Hm Hne. apply (proj1 (Forall_forall _ _)) with (x := m) in Hjson; [|done].
    split.
    - intros <-. rewrite pcm_path_shape, pcm_not_json in Hjson. done.
    - intros Heq. apply Hne. by apply (with_suffix_pcm_entry self key). }
  assert (forall m, m ∈ rglob_json self d ->
                    current parse_created self (now m) d m
                    \/ m <> meta_path_of self key) as Hcases.
  { intros m Hm. destruct (decide (m = meta_path_of self key)) as [->|]; [|by right].
    left. apply Hcur. by apply rglob_json_spec in Hm as [_ ?]. }
  assert (snd (_evict_expired parse_created self now d (rglob_json self d))
            !! pcm_path_of self key = d !! pcm_path_of self key) as Hp.
  { apply evict_keeps; [done|]. intros m Hm.
    destruct (Hcases m Hm) as [?|Hne]; [by left|right]. by apply Hpcm. }
  assert (snd (_evict_expired parse_created self now d (rglob_json self d))
            !! meta_path_of self key = d !! meta_path_of self key) as Hm.
  { apply evict_keeps; [done|]. intros m Hm.
    destruct (Hcases m Hm) as [?|Hne]; [by left|right]. split; [done|].
    intros Heq. pose proof (with_suffix_pcm_not_json m) as Hnot.
    rewrite <- Heq, meta_path_shape, ends_with_app in Hnot. done. }
  split; [done|]. split; [done|]. intros c t. by apply get_local.
Qed.

Lemma init_keeps_current_witness :
  let d := put sample_codec sample_cache 99000000 ∅ "abc123" [x00; x01] 16000 in
  let d' := snd (init (fun _ => Ok (utc 99000000)) "cache" 60 (fun _ => 100000000) d) in
  fst (get sample_codec sample_cache 100000000 d' "abc123")
  = fst (get sample_codec sample_cache 100000000 d "abc123").
Proof.
  intros d d'.
  destruct (init_keeps_current (fun _ => Ok (utc 99000000)) "cache" 60
              (fun _ => 100000000) d "abc123") as (_ & _ & Hget).
  - reflexivity.
  - intros _. exists (render_meta sample_codec (utc 99000000) 16000 2), (utc 99000000).
    split; [vm_compute; reflexivity|]. split; [reflexivity|]. simpl. lia.
  - apply (Hget sample_codec 100000000).
Defined.

End CacheSweep.

Module WavFacts.

Import WavSaver.

Lemma to_byte_value (v : Z) : Z.of_N (Byte.to_N (to_byte v)) = v mod 256.
Proof.
  unfold to_byte. pose proof (Z.mod_pos_bound v 256 ltac:(lia)) as Hv.
  destruct (Byte.of_N (Z.to_N (v mod 256))) as [b|] eqn:E.
  - simpl. rewrite (Byte.to_of_N _ E). lia.
  - apply Byte.of_N_None_iff in E. lia.
Qed.

Lemma le_bytes_length (n : nat) (v : Z) : length (le_bytes n v) = n.
Proof. revert v. induction n as [|n IH]; intros v; simpl; [done|by rewrite IH]. Qed.

(** Packing is little-endian: reading the bytes back gives the value. *)
Lemma le_value_bytes (n : nat) (v : Z) :
  0 <= v < 2 ^ (8 * Z.of_nat n) -> le_value (le_bytes n v) = v.
Proof.
  revert v. induction n as [|n IH]; intros v Hv.
  - simpl in *. lia.
  - cbn [le_bytes le_value]. rewrite to_byte_value, IH.
    + pose proof (Z.div_mod v 256 ltac:(lia)). lia.
    + replace (8 * Z.of_nat (S n)) with (8 + 8 * Z.of_nat n) in Hv by lia.
      rewrite Z.pow_add_r in Hv by lia. change (2 ^ 8) with 256 in Hv.
      split; [apply Z.div_pos; lia|apply Z.div_lt_upper_bound; lia].
Qed.

Lemma pack_ok (width : nat) (v : Z) :
  0 <= v < 2 ^ (8 * Z.of_nat width) -> pack width v = Done (le_bytes width v).
Proof.
  intros Hv. unfold pack.
  destruct (Z.leb_spec 0 v); [|lia]. destruct (Z.ltb_spec v (2 ^ (8 * Z.of_nat width))); [done|lia].
Qed.

Lemma pack_fails (width : nat) (v : Z) :
  v < 0 \/ 2 ^ (8 * Z.of_nat width) <= v -> pack width v = Fail struct_error.
Proof.
  intros Hv. unfold pack.
  destruct (Z.leb_spec 0 v); [|done]. destruct (Z.ltb_spec v (2 ^ (8 * Z.of_nat width))); [lia|done].
Qed.

Lemma pack_fields_ok (sample_rate : Z) :
  0 <= sample_rate -> sample_rate * 2 < 2 ^ 32 ->
  pack_HHIIHH 1 1 sample_rate (sample_rate * 2) 2 16
  = Done (le_bytes 2 1 ++ le_bytes 2 1 ++ le_bytes 4 sample_rate
          ++ le_bytes 4 (sample_rate * 2) ++ le_bytes 2 2 ++ le_bytes 2 16).
Proof.
  intros H0 H1. unfold pack_HHIIHH.
  rewrite (pack_ok 4 sample_rate), (pack_ok 4 (sample_rate * 2)) by (simpl; lia).
  done.
Qed.

Lemma pack_fields_fails (sample_rate : Z) :
  sample_rate < 0 \/ 2 ^ 32 <= sample_rate * 2 ->
  pack_HHIIHH 1 1 sample_rate (sample_rate * 2) 2 16 = Fail struct_error.
Proof.
  intros [H|H]; unfold pack_HHIIHH.
  - by rewrite (pack_fails 4 sample_rate) by lia.
  - rewrite (pack_fails 4 (sample_rate * 2)) by (simpl; lia).
    by destruct (pack 4 sample_rate).
Qed.

(** A write at the end of the file appends. *)
Lemma fh_write_end (b c : list byte) (rate : option Z) (n : Z) :
  fh_write b {| path := Some c; _fh := Some (length c); _sample_rate := rate;
                _bytes_written := n |}
  = (Done tt, {| path := Some (c ++ b); _fh := Some (length (c ++ b));
                 _sample_rate := rate; _bytes_written := n |}).
Proof.
  unfold fh_write. simpl. rewrite take_ge, Nat.sub_diag, drop_ge, length_app by lia.
  simpl. by rewrite app_nil_r.
Qed.

Lemma start_ok (sample_rate : Z) (s : WavSink) :
  _fh s = None -> _bytes_written s = 0 ->
  0 <= sample_rate -> sample_rate * 2 < 2 ^ 32 ->
  start sample_rate s = (Done tt, recording sample_rate []).
Proof.
  intros Hfh Hn H0 H1. unfold start. rewrite Hfh, Hn.
  unfold _write_header_placeholder, bind, lift.
  rewrite pack_fields_ok by done. reflexivity.
Qed.

Lemma write_ok (sample_rate : Z) (audio b : list byte) :
  write b (recording sample_rate audio) = (Done tt, recording sample_rate (audio ++ b)).
Proof.
  unfold write, recording. cbn [_fh _sample_rate].
  destruct b as [|x b]; [by rewrite app_nil_r|].
  unfold bind. rewrite fh_write_end. cbn [path _fh _sample_rate _bytes_written].
  rewrite <- app_assoc. do 2 f_equal. rewrite !length_app. lia.
Qed.

Lemma write_all_ok (sample_rate : Z) (chunks : list (list byte)) (audio : list byte) :
  write_all chunks (recording sample_rate audio)
  = (Done tt, recording sample_rate (audio ++ concat chunks)).
Proof.
  revert audio. induction chunks as [|b chunks IH]; intros audio; simpl.
  - by rewrite app_nil_r.
  - unfold bind. rewrite write_ok, IH. by rewrite <- app_assoc.
Qed.

Lemma close_ok (sample_rate : Z) (audio : list byte) :
  36 + Z.of_nat (length audio) < 2 ^ 32 ->
  close (recording sample_rate audio)
  = (Done tt,
     {| path := Some (header sample_rate (Z.of_nat (length audio)) ++ audio);
        _fh := None; _sample_rate := None; _bytes_written := 0 |}).
Proof.
  intros Hsize. unfold close, recording. cbn [_fh].
  unfold bind at 1, _finalise_header. cbn [_bytes_written].
  unfold bind, lift.
  rewrite !pack_ok by (simpl; lia). reflexivity.
Qed.

(** X14. A recording session on a closed [WavSink] (start, any number of
    writes, close) leaves a well-formed WAV file, provided the sample rate
    and the amount of audio fit the 32-bit header fields: the file is the
    44-byte header followed by all the bytes written, in order; the RIFF
    size field reads 36 plus the number of audio bytes, the data size field
    reads that number, and the sample-rate field reads the rate.  The sink
    is closed again, ready for the next session. *)
Theorem wav_session (sample_rate : Z) (chunks : list (list byte)) (s : WavSink) :
  let audio := concat chunks in
  let size := Z.of_nat (length audio) in
  _fh s = None -> _bytes_written s = 0 ->
  0 <= sample_rate -> sample_rate * 2 < 2 ^ 32 -> 36 + size < 2 ^ 32 ->
  exists s',
    bind (start sample_rate) (fun _ => bind (write_all chunks) (fun _ => close)) s
    = (Done tt, s')
    /\ path s' = Some (header sample_rate size ++ audio)
    /\ length (header sample_rate size) = 44%nat
    /\ le_value (bytes_slice 4 8 (header sample_rate size ++ audio)) = 36 + size
    /\ le_value (bytes_slice 40 44 (header sample_rate size ++ audio)) = size
    /\ le_value (bytes_slice 24 28 (header sample_rate size ++ audio)) = sample_rate
    /\ _fh s' = None /\ _sample_rate s' = None /\ _bytes_written s' = 0.
Proof.
  intros audio size Hfh Hn H0 H1 Hsize.
  eexists. split.
  { unfold bind. rewrite start_ok by done. rewrite write_all_ok. simpl app.
    rewrite close_ok by done. reflexivity. }
  cbn [path _fh _sample_rate _bytes_written]. fold audio size.
  repeat split; try done.
  - change (bytes_slice 4 8 (header sample_rate size ++ audio))
      with (le_bytes 4 (36 + size)).
    apply le_value_bytes. simpl. lia.
  - change (bytes_slice 40 44 (header sample_rate size ++ audio))
      with (le_bytes 4 size).
    apply le_value_bytes. simpl. lia.
  - change (bytes_slice 24 28 (header sample_rate size ++ audio))
      with (le_bytes 4 sample_rate).
    apply le_value_bytes. simpl. lia.
Qed.

Lemma wav_session_witness :
  exists s',
    bind (start 16000)
         (fun _ => bind (write_all [[x01; x00]; []; [x02; x00]]) (fun _ => close))
         (new None)
    = (Done tt, s')
    /\ path s' = Some (header 16000 4 ++ [x01; x00; x02; x00]).
Proof.
  destruct (wav_session 16000 [[x01; x00]; []; [x02; x00]] (new None))
    as (s' & Hrun & Hpath & _); [reflexivity | reflexivity | lia | lia | simpl; lia |].
  exists s'. split; [exact Hrun|exact Hpath].
Defined.

(** X15. Values that do not fit the 32-bit header fields make the sink
    raise [struct.error] half-way.  With such a sample rate, [start] has
    already created the file and written its first 20 bytes, and leaves
    the sink open, so that another [start] raises [RuntimeError].  With
    [2^32 - 36] audio bytes or more, [close] raises before it patches the
    sizes: the file keeps its content and the sink stays open, positioned
    at the RIFF size field. *)
Theorem wav_out_of_range (s : WavSink) :
  (forall sample_rate,
      _fh s = None -> sample_rate < 0 \/ 2 ^ 32 <= sample_rate * 2 ->
      exists s',
        start sample_rate s = (Fail struct_error, s')
        /\ path s' = Some (RIFF ++ le_bytes 4 0 ++ WAVE ++ fmt_ ++ le_bytes 4 16)
        /\ _fh s' = Some 20%nat
        /\ forall again, start again s' = (Fail (Exn RuntimeError), s'))
  /\ (forall p,
        _fh s = Some p -> 2 ^ 32 <= 36 + _bytes_written s ->
        close s
        = (Fail struct_error,
           {| path := path s; _fh := Some 4%nat; _sample_rate := _sample_rate s;
              _bytes_written := _bytes_written s |})).
Proof.
  split.
  - intros sample_rate Hfh Hrate. eexists. split.
    { unfold start. rewrite Hfh. unfold _write_header_placeholder, bind, lift.
      rewrite pack_fields_fails by done. reflexivity. }
    by cbn [path _fh].
  - intros p Hfh Hsize. unfold close. rewrite Hfh.
    unfold bind at 1, _finalise_header. unfold bind, lift, fh_seek. rewrite Hfh.
    cbn [_bytes_written]. by rewrite pack_fails by (simpl; lia).
Qed.

Lemma wav_out_of_range_witness :
  exists s',
    start (-1) (new None) = (Fail struct_error, s')
    /\ _fh s' = Some 20%nat
    /\ start 16000 s' = (Fail (Exn RuntimeError), s').
Proof.
  destruct (wav_out_of_range (new None)) as [Hstart _].
  destruct (Hstart (-1)) as (s' & Hs & _ & Hfh & Hagain); [reflexivity | left; lia |].
  exists s'. split; [exact Hs|]. split; [exact Hfh|apply Hagain].
Defined.

End WavFacts.

Module ControllerMore.

Import Metrics Controller ControllerFacts.

(** *** Appending computations *)

Create HintDb appends.

Lemma appends_ret (p : event -> bool) {A} (a : A) : appends p (ret a).
Proof. intros w. exists []. simpl. by rewrite app_nil_r. Qed.

Lemma appends_raise (p : event -> bool) {A} (e : exn) : appends p (@raise A e).
Proof. intros w. exists []. simpl. by rewrite app_nil_r. Qed.

Lemma appends_get_self (p : event -> bool) : appends p get_self.
Proof. intros w. exists []. simpl. by rewrite app_nil_r. Qed.

Lemma appends_lift (p : event -> bool) {A} (f : world -> outcome A) :
  appends p (fun w => (f w, w)).
Proof. intros w. exists []. simpl. by rewrite app_nil_r. Qed.

Lemma appends_modify (p : event -> bool) (f : controller -> controller) :
  appends p (modify f).
Proof. intros w. exists []. simpl. by rewrite app_nil_r. Qed.

Lemma appends_call (p : event -> bool) {A} (ev : event)
    (answer : list event -> result A) :
  p ev = true -> appends p (call ev answer).
Proof. intros Hp w. exists [ev]. simpl. split; [done|by repeat constructor]. Qed.

Lemma appends_bind (p : event -> bool) {A B} (m : M A) (k : A -> M B) :
  appends p m -> (forall a, appends p (k a)) -> appends p (bind m k).
Proof.
  intros Hm Hk w. unfold bind.
  destruct (Hm w) as (rest & Ht & Hp).
  destruct (m w) as [[a|ex|] w1]; simpl in *; [|by eauto|by eauto].
  destruct (Hk a w1) as (rest' & Ht' & Hp').
  exists (rest ++ rest'). split; [by rewrite Ht', Ht, app_assoc|by apply Forall_app].
Qed.

Lemma appends_weaken (p q : event -> bool) {A} (m : M A) :
  (forall ev, p ev = true -> q ev = true) -> appends p m -> appends q m.
Proof.
  intros Hpq Hm w. destruct (Hm w) as (rest & Ht & Hp).
  exists rest. split; [done|]. eapply Forall_impl; [exact Hp|]. apply Hpq.
Qed.

#[local] Hint Resolve appends_ret appends_raise appends_get_self appends_lift
  appends_modify : appends.

Ltac appends_step :=
  first [ solve [auto with appends]
        | apply appends_call; reflexivity
        | apply appends_bind; [|intros ?] ].

Lemma appends_clock (p : event -> bool) (e : env) :
  p Clock = true -> appends p (clock e).
Proof. intros Hp. unfold clock. by apply appends_call. Qed.

Lemma appends_submit (p : event -> bool) (e : env) (f : AudioFrame) :
  p (Submit f) = true -> appends p (submit e f).
Proof.
  intros Hp. unfold submit, register_underrun.
  apply appends_bind; [appends_step|intros t].
  apply appends_bind; [by apply appends_call|intros _].
  destruct (e_underrun e t); appends_step.
Qed.

Lemma appends_submit_all (p : event -> bool) (e : env) (frames : list AudioFrame) :
  (forall f, p (Submit f) = true) -> appends p (submit_all e frames).
Proof.
  intros Hp. induction frames as [|f rest IH]; simpl; [appends_step|].
  apply appends_bind; [by apply appends_submit|by intros _].
Qed.

Lemma appends_stream_loop (p : event -> bool) (e : env) (items : list item)
    (st : option Q * option Q * list byte) :
  p Clock = true -> (forall f, p (Submit f) = true) ->
  appends p (stream_loop e items st).
Proof.
  intros Hc Hs. revert st.
  induction items as [|[f|] rest IH]; intros [[first second] buf]; simpl;
    [appends_step| |appends_step].
  apply appends_bind; [by apply appends_clock|intros now].
  apply appends_bind; [by apply appends_submit|intros _]. apply IH.
Qed.

Lemma appends_consume (p : event -> bool) : appends p _consume_pending_underrun.
Proof. unfold _consume_pending_underrun. repeat appends_step. Qed.

#[local] Hint Resolve appends_consume : appends.

(** A replay from the cache reads the clock and submits frames, nothing
    else. *)
Lemma appends_replay (e : env) (index : Z) (chunk : str) (rate : Z)
    (cached : Cache.CachedItem) :
  appends is_replay_call (replay e index chunk rate cached).
Proof.
  unfold replay, _play_cached_item.
  apply appends_bind; [by apply appends_clock|intros t0].
  apply appends_bind; [by apply appends_submit_all|intros _].
  apply appends_bind; [by apply appends_clock|intros t1].
  repeat appends_step.
Qed.

Lemma appends_synthesize (p : event -> bool) (e : env) (index : Z) (chunk : str)
    (rate : Z) (key : option string) :
  p Clock = true -> (forall f, p (Submit f) = true) ->
  (forall c i, p (Stream c i) = true) ->
  (forall k b r, key = Some k -> p (CachePut k b r) = true) ->
  appends p (synthesize e index chunk rate key).
Proof.
  intros Hc Hs Hst Hput. unfold synthesize.
  apply appends_bind; [by apply appends_clock|intros t0].
  apply appends_bind; [by apply appends_call|intros [items failure]].
  apply appends_bind; [by apply appends_stream_loop|intros [[first second] buf]].
  apply appends_bind; [destruct failure; appends_step|intros _].
  apply appends_bind; [by apply appends_clock|intros t1].
  apply appends_bind; [|intros _; repeat appends_step].
  destruct key as [k|], buf as [|b buf]; try appends_step.
  apply appends_call. by apply Hput.
Qed.

Lemma appends_process_chunk (e : env) (index : Z) (chunk : str) (rate : Z)
    (provider_settings : option settings) :
  appends is_chunk_call (_process_chunk e index chunk rate provider_settings).
Proof.
  unfold _process_chunk. apply appends_bind; [appends_step|intros c].
  destruct (usable_key _ _) as [k|]; [|by apply appends_synthesize].
  apply appends_bind; [by apply appends_call|intros [hit|]].
  - eapply appends_weaken; [|apply appends_replay]. by intros [].
  - by apply appends_synthesize.
Qed.

(** *** Calls of the retry loop and of the loop over the chunks *)

Lemma calls_app (p : event -> bool) (t t' : list event) :
  calls p (t ++ t') = calls p t ++ calls p t'.
Proof. unfold calls. apply filter_app. Qed.

Lemma calls_none (p q : event -> bool) (t : list event) :
  (forall ev, q ev = true -> p ev = false) ->
  Forall (fun ev => q ev = true) t -> calls p t = [].
Proof.
  intros Hqp Ht. unfold calls. induction Ht as [|ev t Hev _ IH]; [done|].
  rewrite filter_cons. destruct (decide (p ev = true)) as [Hp|]; [|done].
  rewrite (Hqp ev Hev) in Hp. done.
Qed.

Lemma calls_all (p : event -> bool) (t : list event) :
  Forall (fun ev => p ev = true) t -> calls p t = t.
Proof.
  intros Ht. unfold calls. induction Ht as [|ev t Hev _ IH]; [done|].
  rewrite filter_cons. destruct (decide (p ev = true)); [by rewrite IH|done].
Qed.

Lemma attempt_calls (p : event -> bool) (e : env) (depth : nat) (index : Z)
    (chunk : str) (rate : Z) (provider_settings : option settings) :
  appends p (_process_chunk e index chunk rate provider_settings) ->
  appends p (attempt e depth index chunk rate provider_settings).
Proof.
  intros H w. destruct (attempt_raises e depth index chunk rate provider_settings w)
    as [_ ->]. apply H.
Qed.

(** The retry loop makes the calls of its attempts and sleeps between them,
    at most once per retry still allowed. *)
Lemma attempt_loop_calls (p : event -> bool) (e : env) (depth fuel : nat) (index : Z)
    (chunk : str) (rate : Z) (provider_settings : option settings) (attempts : Z)
    (w : world) :
  (forall ev, p ev = true -> is_sleep ev = false) ->
  (forall w', config (self w') = config (self w) ->
     exists rest, trace (snd (attempt e depth index chunk rate provider_settings w'))
                  = trace w' ++ rest
                  /\ Forall (fun ev => p ev = true) rest) ->
  exists rest,
    trace (snd (attempt_loop e depth fuel attempts index chunk rate provider_settings w))
    = trace w ++ rest
    /\ Forall (fun ev => p ev = true \/ is_sleep ev = true) rest
    /\ Z.of_nat (length (calls is_sleep rest))
       <= Z.max 0 (max_retries (self w) - attempts).
Proof.
  intros Hp. revert attempts w.
  induction fuel as [|fuel IH]; intros attempts w Hattempt; simpl.
  - exists []. rewrite app_nil_r. split; [done|]. split; [constructor|simpl; lia].
  - destruct (Hattempt w eq_refl) as (rest1 & Ht1 & Hp1).
    destruct (steady_attempt e depth index chunk rate provider_settings w)
      as (_ & Hcfg & _).
    assert (Forall (fun ev => p ev = true \/ is_sleep ev = true) rest1) as Hp1'
      by (eapply Forall_impl; [exact Hp1|]; by left).
    assert (calls is_sleep rest1 = []) as Hs1 by (by eapply calls_none).
    destruct (attempt e depth index chunk rate provider_settings w) as [[a|ex|] w1];
      cbn [fst snd] in *.
    1, 3: exists rest1; rewrite Hs1; split; [done|]; split; [done|simpl; lia].
    destruct (is_transient ex);
      [|exists rest1; rewrite Hs1; split; [done|]; split; [done|simpl; lia]].
    destruct (Z.gtb_spec (attempts + 1) (max_retries (self w1)));
      [exists rest1; rewrite Hs1; split; [done|]; split; [done|simpl; lia]|].
    unfold bind at 1, call at 1. cbn [of_result].
    set (delay := _compute_backoff _ _ _).
    destruct (IH (attempts + 1) (push (Sleep delay) w1)) as (rest2 & Ht2 & Hp2 & Hs2).
    { intros w' Hw'. apply Hattempt. simpl in Hw'. congruence. }
    exists (rest1 ++ Sleep delay :: rest2).
    split; [rewrite Ht2; unfold push; simpl; by rewrite Ht1, <- !app_assoc|].
    split; [apply Forall_app; split; [done|]; constructor; [by right|done]|].
    rewrite calls_app, Hs1. simpl.
    change (calls is_sleep (Sleep delay :: rest2)) with (Sleep delay :: calls is_sleep rest2).
    simpl in Hs2 |- *. unfold calls in Hs2 |- *.
    pose proof (config_max_retries _ _ Hcfg). lia.
Qed.

(** X16. The retry loop around one chunk never sleeps more often than
    [max_retries - attempts] times, makes no other calls than those of
    [_process_chunk] between the sleeps, and in particular never connects,
    starts, flushes or closes anything. *)
Theorem retry_bound (e : env) (depth fuel : nat) (index : Z) (chunk : str) (rate : Z)
    (provider_settings : option settings) (attempts : Z) (w : world) :
  exists rest,
    trace (snd (attempt_loop e depth fuel attempts index chunk rate provider_settings w))
    = trace w ++ rest
    /\ Forall (fun ev => is_loop_call ev = true) rest
    /\ Z.of_nat (length (calls is_sleep rest))
       <= Z.max 0 (max_retries (self w) - attempts)
    /\ calls is_lifecycle rest = [].
Proof.
  destruct (attempt_loop_calls is_chunk_call e depth fuel index chunk rate
              provider_settings attempts w) as (rest & Ht & Hp & Hs).
  - by intros [].
  - intros w' _. apply attempt_calls, appends_process_chunk.
  - exists rest. split; [done|].
    assert (Forall (fun ev => is_loop_call ev = true) rest) as Hloop.
    { eapply Forall_impl; [exact Hp|]. unfold is_loop_call.
      intros ev [-> | ->]; [done|by rewrite orb_true_r]. }
    split; [done|]. split; [done|].
    eapply calls_none; [|exact Hloop]. by intros [].
Qed.

Lemma chunk_loop_calls (p : event -> bool) (e : env) (depth : nat) (index : Z)
    (chunks : list str) (rate : Z) (provider_settings : option settings) (w : world) :
  (forall ev, p ev = true -> is_sleep ev = false) ->
  (forall chunk index w', config (self w') = config (self w) ->
     exists rest, trace (snd (attempt e depth index chunk rate provider_settings w'))
                  = trace w' ++ rest
                  /\ Forall (fun ev => p ev = true) rest) ->
  exists rest,
    trace (snd (chunk_loop e depth index chunks rate provider_settings w))
    = trace w ++ rest
    /\ Forall (fun ev => p ev = true \/ is_sleep ev = true) rest.
Proof.
  intros Hp Hattempt. destruct chunks as [|chunk chunks].
  - exists []. simpl. by rewrite app_nil_r.
  - rewrite chunk_loop_cons.
    destruct (attempt_loop_calls p e depth (S (Z.to_nat (max_retries (self w)))) index
                chunk rate provider_settings 0 w Hp (Hattempt chunk index))
      as (rest & Ht & Hr & _).
    destruct (attempt_loop_raises e depth (S (Z.to_nat (max_retries (self w)))) index
                chunk rate provider_settings 0 w ltac:(lia) ltac:(lia)) as [[ex Hex] _].
    destruct (attempt_loop _ _ _ _ _ _ _ _ _) as [[a|ex'|] w1]; cbn [fst snd] in *;
      [done| |done].
    by exists rest.
Qed.

(** The calls of [run] after [connect] and [start], in closed form. *)
Lemma run_calls (p : event -> bool) (e : env) (depth : nat) (text : str) (rate : Z)
    (max_chars : option Z) (provider_settings : option settings) (w : world) :
  (forall ev, p ev = true -> is_sleep ev = false) ->
  (forall chunk index w', config (self w') = config (self w) ->
     exists rest, trace (snd (attempt e depth index chunk rate provider_settings w'))
                  = trace w' ++ rest
                  /\ Forall (fun ev => p ev = true) rest) ->
  exists head mid tail,
    trace (snd (run e depth text rate max_chars provider_settings w))
    = trace w ++ head ++ mid ++ tail
    /\ (head = [] \/ head = [Connect] \/ head = [Connect; Start rate])
    /\ Forall (fun ev => p ev = true \/ is_sleep ev = true) mid
    /\ (tail = [] \/ tail = [FlushAndClose] \/ tail = [FlushAndClose; Close])
    /\ (forall chunk rest u u',
          e_chunker e text (default (chunk_max_chars (self w)) max_chars)
          = Ok (chunk :: rest) ->
          e_connect e (trace w) = Ok u ->
          e_start e (trace w ++ [Connect]) rate = Ok u' ->
          head = [Connect; Start rate]
          /\ match e_flush_and_close e (trace w ++ head ++ mid) with
             | Ok _ => tail = [FlushAndClose; Close]
             | Raise _ => tail = [FlushAndClose]
             end).
Proof.
  intros Hp Hattempt. rewrite run_unfold.
  destruct (e_chunker e text _) as [[|chunk rest]|ex].
  1, 3: exists [], [], []; rewrite !app_nil_r; repeat split; auto; done.
  destruct (e_connect e (trace w)) as [u|ex].
  2: { exists [Connect], [], []. simpl. repeat split; auto; done. }
  cbn [push trace].
  destruct (e_start e (trace w ++ [Connect]) rate) as [u'|ex].
  2: { exists [Connect; Start rate], [], []. unfold started, push. simpl.
       rewrite <- app_assoc. repeat split; auto; done. }
  destruct (chunk_loop_calls p e depth 0 (chunk :: rest) rate provider_settings
              (started rate w) Hp) as (mid & Hmid & Hpm).
  { intros c i w' Hw'. by apply Hattempt. }
  destruct (chunk_loop_raises e depth 0 chunk rest rate provider_settings (started rate w))
    as [[ex Hex] _].
  assert (trace (started rate w) = trace w ++ [Connect; Start rate]) as Hst
    by (unfold started, push; simpl; by rewrite <- app_assoc).
  destruct (chunk_loop e depth 0 (chunk :: rest) rate provider_settings (started rate w))
    as [[a|ex'|] w1]; cbn [fst snd] in *; [done| |done].
  pose proof (release_trace e w1) as Hrel.
  assert (trace w1 = trace w ++ [Connect; Start rate] ++ mid) as Hw1
    by (by rewrite Hmid, Hst, <- app_assoc).
  destruct (e_flush_and_close e (trace w1)) as [v|ex''] eqn:Eflush.
  - destruct Hrel as [Hw Hr].
    exists [Connect; Start rate], mid, [FlushAndClose; Close].
    split.
    + destruct (release e w1) as [[a'|ex3|] w2]; cbn [fst snd] in *; subst w2;
        unfold push; simpl; rewrite Hmid, Hst, <- ?app_assoc; try done.
    + split; [auto|]. split; [done|]. split; [auto|].
      intros _ _ _ _ _ _ _. split; [done|]. simpl in Hw1 |- *. by rewrite <- Hw1, Eflush.
  - rewrite Hrel. exists [Connect; Start rate], mid, [FlushAndClose].
    unfold push. simpl. rewrite Hmid, Hst, <- ?app_assoc.
    split; [done|]. split; [auto|]. split; [done|]. split; [auto|].
    intros _ _ _ _ _ _ _. split; [done|]. simpl in Hw1 |- *. by rewrite <- Hw1, Eflush.
Qed.

(** X17. In one [run], [connect], [start] and [flush_and_close] are each
    called at most once and [close] at most once, in this order.  When the
    text has a chunk and [connect] and [start] return, [connect], [start]
    and [flush_and_close] are called exactly once, with no lifecycle call
    between [start] and [flush_and_close]; [close] is then called, right
    after [flush_and_close], exactly when [flush_and_close] returns, and
    not at all when it raises. *)
Theorem run_lifecycle (e : env) (depth : nat) (text : str) (rate : Z)
    (max_chars : option Z) (provider_settings : option settings) (w : world) :
  let r := run e depth text rate max_chars provider_settings w in
  (exists done_,
      calls is_lifecycle (trace (snd r)) = calls is_lifecycle (trace w) ++ done_
      /\ done_ `prefix_of` [Connect; Start rate; FlushAndClose; Close])
  /\ (forall chunk rest u u',
        e_chunker e text (default (chunk_max_chars (self w)) max_chars)
        = Ok (chunk :: rest) ->
        e_connect e (trace w) = Ok u ->
        e_start e (trace w ++ [Connect]) rate = Ok u' ->
        exists mid tail,
          trace (snd r)
          = trace w ++ [Connect; Start rate] ++ mid ++ [FlushAndClose] ++ tail
          /\ calls is_lifecycle mid = []
          /\ calls is_lifecycle (trace (snd r))
             = calls is_lifecycle (trace w) ++ [Connect; Start rate; FlushAndClose] ++ tail
          /\ match e_flush_and_close e (trace w ++ [Connect; Start rate] ++ mid) with
             | Ok _ => tail = [Close]
             | Raise _ => tail = []
             end).
Proof.
  intros r. unfold r.
  destruct (run_calls is_chunk_call e depth text rate max_chars provider_settings w)
    as (head & mid & tail & Ht & Hh & Hm & Htl & Hfull).
  { by intros []. }
  { intros c i w' _. apply attempt_calls, appends_process_chunk. }
  assert (calls is_lifecycle mid = []) as Hmid.
  { eapply (calls_none _ (fun ev => is_chunk_call ev || is_sleep ev)).
    - by intros [].
    - eapply Forall_impl; [exact Hm|]. intros ev [-> | ->]; [done|by rewrite orb_true_r]. }
  assert (calls is_lifecycle (trace (snd (run e depth text rate max_chars
                                            provider_settings w)))
          = calls is_lifecycle (trace w) ++ head ++ tail) as Hcalls.
  { rewrite Ht, !calls_app, Hmid. simpl.
    rewrite (calls_all is_lifecycle head), (calls_all is_lifecycle tail); [done| |].
    - destruct Htl as [->|[->| ->]]; by repeat constructor.
    - destruct Hh as [->|[->| ->]]; by repeat constructor. }
  split.
  - destruct (e_chunker e text (default (chunk_max_chars (self w)) max_chars))
      as [[|chunk rest]|ex] eqn:Ech.
    1, 3: exists []; rewrite app_nil_r;
      rewrite run_unfold, Ech; split; [done|apply prefix_nil].
    destruct (e_connect e (trace w)) as [u|ex] eqn:Eco.
    2: { exists [Connect]. rewrite run_unfold, Ech, Eco. unfold push. simpl.
         rewrite calls_app. split; [done|]. by exists [Start rate; FlushAndClose; Close]. }
    destruct (e_start e (trace w ++ [Connect]) rate) as [u'|ex] eqn:Est.
    2: { exists [Connect; Start rate]. rewrite run_unfold, Ech, Eco. cbn [push trace].
         rewrite Est. unfold started, push. simpl. rewrite <- app_assoc, calls_app.
         split; [done|]. by exists [FlushAndClose; Close]. }
    destruct (Hfull chunk rest u u' eq_refl eq_refl eq_refl) as [-> Hflush].
    exists ([Connect; Start rate] ++ tail). split; [done|].
    destruct (e_flush_and_close e _); subst tail; [done|by exists [Close]].
  - intros chunk rest u u' Hch Hco Hst.
    destruct (Hfull chunk rest u u' Hch Hco Hst) as [-> Hflush].
    rewrite Hcalls, Ht.
    destruct (e_flush_and_close e (trace w ++ [Connect; Start rate] ++ mid)) eqn:E.
    + subst tail. exists mid, [Close]. by rewrite E.
    + subst tail. exists mid, []. by rewrite E.
Qed.

Lemma run_lifecycle_witness :
  calls is_lifecycle
    (trace (snd (run (sample_env (Ok tt) flaky_once) 1000 (s "Retry me") 16000 None None
                   (fresh sample_controller))))
  = [Connect; Start 16000; FlushAndClose; Close].
Proof.
  destruct (run_lifecycle (sample_env (Ok tt) flaky_once) 1000 (s "Retry me") 16000
              None None (fresh sample_controller)) as [_ H].
  destruct (H (s "Retry me") [] tt tt) as (mid & tail & _ & _ & Hc & Hflush);
    [vm_compute; reflexivity | reflexivity | reflexivity |].
  rewrite Hc. cbn [sample_env e_flush_and_close] in Hflush. by subst tail.
Defined.

(** *** Limits of the adaptive step *)

Lemma adaptive_logic_frame (c : controller) :
  config (_apply_adaptive_logic c) = config c
  /\ _recent_metrics (_apply_adaptive_logic c) = _recent_metrics c
  /\ _recent_underruns (_apply_adaptive_logic c) = _recent_underruns c
  /\ _pending_underrun (_apply_adaptive_logic c) = _pending_underrun c.
Proof.
  unfold _apply_adaptive_logic.
  destruct (_ && _); [destruct (negb _)|]; cbn [set_prebuffer_ms _recent_metrics];
    (destruct (5 <=? _); [|done]); (destruct (Qle_bool _ _); [done|]);
    destruct (_ <? _); done.
Qed.

Lemma adaptive_logic_limits (c : controller) :
  prebuffer_ms c <= prebuffer_ms (_apply_adaptive_logic c)
                 <= Z.max 200 (prebuffer_ms c)
  /\ Z.min 80 (chunk_max_chars c) <= chunk_max_chars (_apply_adaptive_logic c)
                                  <= chunk_max_chars c.
Proof.
  rewrite apply_adaptive_logic_prebuffer, prebuffer_step_value,
    apply_adaptive_logic_chunk.
  split.
  - destruct (_ >? _); cbn [andb]; [|lia].
    destruct (Z.ltb_spec (prebuffer_ms c) 200); lia.
  - destruct (Z.ltb_spec (Z.max 80 (Z.quot (chunk_max_chars c * 8) 10))
                         (chunk_max_chars c)).
    + rewrite andb_true_r. destruct (_ && _); lia.
    + rewrite andb_false_r. lia.
Qed.

(** X18. However often [_apply_adaptive_logic] runs, it changes nothing
    but the prebuffer and the maximum chunk length; the prebuffer never
    shrinks and never passes 200 ms once it is at most 200 ms, and the
    maximum chunk length never grows and never drops below 80 characters
    once it is at least 80. *)
Theorem adaptive_limits (n : nat) (c : controller) :
  let c' := Nat.iter n _apply_adaptive_logic c in
  config c' = config c
  /\ _recent_metrics c' = _recent_metrics c
  /\ _recent_underruns c' = _recent_underruns c
  /\ _pending_underrun c' = _pending_underrun c
  /\ prebuffer_ms c <= prebuffer_ms c' <= Z.max 200 (prebuffer_ms c)
  /\ Z.min 80 (chunk_max_chars c) <= chunk_max_chars c' <= chunk_max_chars c.
Proof.
  cbv zeta. induction n as [|n IH]; [simpl; repeat split; try done; lia|].
  change (Nat.iter (S n) _apply_adaptive_logic c)
    with (_apply_adaptive_logic (Nat.iter n _apply_adaptive_logic c)).
  destruct IH as (H1 & H2 & H3 & H4 & H5 & H6).
  destruct (adaptive_logic_frame (Nat.iter n _apply_adaptive_logic c))
    as (F1 & F2 & F3 & F4).
  destruct (adaptive_logic_limits (Nat.iter n _apply_adaptive_logic c)) as [L1 L2].
  rewrite F1, F2, F3, F4. repeat split; try done; lia.
Qed.

(** *** Runs without a cache key *)

Lemma process_chunk_plain (e : env) (index : Z) (chunk : str) (rate : Z)
    (provider_settings : option settings) (w : world) :
  usable_key (self w)
    (_compute_cache_key e (self w) chunk (default no_settings provider_settings))
  = None ->
  _process_chunk e index chunk rate provider_settings w
  = synthesize e index chunk rate None w.
Proof. intros H. unfold _process_chunk, bind at 1, get_self. by rewrite H. Qed.

Lemma no_cache_key (e : env) (c : controller) (chunk : str) (sett : settings) :
  cache_enabled c = false
  \/ default EmptyString (voice_id (update (cache_params c) sett)) = EmptyString
  \/ default EmptyString (model_id (update (cache_params c) sett)) = EmptyString ->
  usable_key c (_compute_cache_key e c chunk sett) = None.
Proof.
  unfold usable_key, _compute_cache_key.
  intros [-> | [-> | ->]]; simpl; [done| |].
  - by destruct (negb (cache_enabled c)).
  - destruct (negb (cache_enabled c)); [done|]. by rewrite orb_true_r.
Qed.

(** X19. Without a phrase cache, or without a voice or a model identifier in
    the merged settings, a run makes no call on the cache at all, neither
    [get] nor [put], whatever the provider and the sink do. *)
Theorem run_without_cache (e : env) (depth : nat) (text : str) (rate : Z)
    (max_chars : option Z) (provider_settings : option settings) (w : world) :
  let sett := update (cache_params (self w)) (default no_settings provider_settings) in
  cache_enabled (self w) = false
  \/ default EmptyString (voice_id sett) = EmptyString
  \/ default EmptyString (model_id sett) = EmptyString ->
  calls is_cache_call
    (trace (snd (run e depth text rate max_chars provider_settings w)))
  = calls is_cache_call (trace w).
Proof.
  intros sett Hno.
  destruct (run_calls is_plain_call e depth text rate max_chars provider_settings w)
    as (head & mid & tail & Ht & Hh & Hm & Htl & _).
  { by intros []. }
  { intros chunk index w' Hw'.
    destruct (attempt_raises e depth index chunk rate provider_settings w') as [_ ->].
    rewrite process_chunk_plain.
    - by apply appends_synthesize.
    - rewrite (usable_key_config e _ (self w)) by done. by apply no_cache_key. }
  rewrite Ht, !calls_app.
  assert (calls is_cache_call head = []) as ->
    by (destruct Hh as [->|[->| ->]]; done).
  assert (calls is_cache_call tail = []) as ->
    by (destruct Htl as [->|[->| ->]]; done).
  assert (calls is_cache_call mid = []) as ->.
  { eapply (calls_none _ (fun ev => is_plain_call ev || is_sleep ev)).
    - by intros [].
    - eapply Forall_impl; [exact Hm|]. intros ev [-> | ->]; [done|by rewrite orb_true_r]. }
  by rewrite !app_nil_r.
Qed.

Lemma run_without_cache_witness :
  calls is_cache_call
    (trace (snd (run (sample_env (Ok tt) flaky_once) 1000 (s "Retry me") 16000 None None
                   (fresh sample_controller))))
  = [].
Proof.
  apply (run_without_cache (sample_env (Ok tt) flaky_once) 1000 (s "Retry me") 16000
           None None (fresh sample_controller)).
  left. reflexivity.
Defined.

(** *** Replaying a cached phrase *)

Lemma range_step_covers (stop step : nat) :
  (0 < step)%nat -> (stop <= (stop + step - 1) / step * step)%nat.
Proof.
  intros Hstep.
  pose proof (Nat.div_mod_eq (stop + step - 1) step) as Hdiv.
  pose proof (Nat.mod_upper_bound (stop + step - 1) step ltac:(lia)) as Hmod.
  nia.
Qed.

Lemma slices_cover {A} (step n : nat) (l : list A) :
  (length l <= n * step)%nat ->
  concat (map (fun i => take step (drop (i * step) l)) (seq 0 n)) = l.
Proof.
  revert l. induction n as [|n IH]; intros l Hl.
  - simpl in *. destruct l; simpl in *; [done|lia].
  - change (seq 0 (S n)) with (0%nat :: seq 1 n).
    rewrite <- seq_shift, map_cons, map_map. simpl concat.
    rewrite (map_ext _ (fun i => take step (drop (i * step) (drop step l)))).
    + rewrite IH; [apply take_drop|]. rewrite length_drop. lia.
    + intros i. rewrite drop_drop. by do 2 f_equal.
Qed.

Lemma cached_frames_pcm (pcm : list byte) (rate : Z) (step : nat) (offsets : list nat) :
  concat (map frame_pcm
            (flat_map (fun offset =>
                         match take step (drop offset pcm) with
                         | [] => []
                         | frame_bytes => [{| frame_pcm := frame_bytes; frame_rate := rate |}]
                         end) offsets))
  = concat (map (fun offset => take step (drop offset pcm)) offsets).
Proof.
  induction offsets as [|offset offsets IH]; [done|].
  simpl. rewrite map_app, concat_app, IH. f_equal.
  destruct (take step (drop offset pcm)); [done|]. simpl. by rewrite app_nil_r.
Qed.

Lemma chunk_size_even (rate : Z) :
  Z.to_nat (Z.max 1 (py_int (inject_Z rate * (1 # 10))) * 2)
  = (2 * Z.to_nat (Z.max 1 (Z.quot rate 10)))%nat.
Proof.
  unfold py_int. simpl. rewrite Z.mul_1_r.
  change (Z.pos (1 * 10)) with 10. lia.
Qed.

Lemma play_cached_item_frames (e : env) (cached : Cache.CachedItem) (rate : Z) :
  _play_cached_item e cached rate = submit_all e (cached_frames cached rate).
Proof.
  unfold _play_cached_item, cached_frames. f_equal.
  apply flat_map_ext. intros offset.
  by destruct (take _ (drop offset (Cache.pcm cached))).
Qed.

Lemma cached_frames_concat (cached : Cache.CachedItem) (rate : Z) :
  concat (map frame_pcm (cached_frames cached rate)) = Cache.pcm cached.
Proof.
  unfold cached_frames. rewrite chunk_size_even.
  rewrite cached_frames_pcm. unfold range_step. rewrite map_map.
  apply slices_cover. apply range_step_covers. lia.
Qed.

Lemma cached_frames_shape (cached : Cache.CachedItem) (rate : Z) :
  Forall (fun f =>
            frame_rate f = rate
            /\ frame_pcm f <> []
            /\ Z.of_nat (length (frame_pcm f)) <= 2 * Z.max 1 (Z.quot rate 10))
         (cached_frames cached rate).
Proof.
  unfold cached_frames. rewrite chunk_size_even.
  set (step := (2 * Z.to_nat (Z.max 1 (Z.quot rate 10)))%nat).
  apply Forall_flat_map, Forall_forall. intros offset _.
  pose proof (length_take (drop offset (Cache.pcm cached)) step) as Hlen.
  destruct (take step (drop offset (Cache.pcm cached))) as [|b frame_bytes] eqn:E;
    [constructor|].
  repeat constructor; cbn [frame_pcm]; [done|]. rewrite Hlen. unfold step. lia.
Qed.

Lemma cached_frames_even (cached : Cache.CachedItem) (rate : Z) :
  Nat.Even (length (Cache.pcm cached)) ->
  Forall (fun f => Nat.Even (length (frame_pcm f))) (cached_frames cached rate).
Proof.
  unfold cached_frames. rewrite chunk_size_even.
  set (step := (2 * Z.to_nat (Z.max 1 (Z.quot rate 10)))%nat).
  intros [half Hhalf]. apply Forall_flat_map, Forall_forall. intros offset Hoff.
  unfold range_step in Hoff. apply list_elem_of_In, in_map_iff in Hoff as (i & <- & _).
  pose proof (length_take (drop (i * step) (Cache.pcm cached)) step) as Hlen.
  rewrite length_drop in Hlen.
  destruct (take step (drop (i * step) (Cache.pcm cached))) as [|b frame_bytes] eqn:E;
    [constructor|].
  repeat constructor. cbn [frame_pcm]. rewrite Hlen, Hhalf. unfold step.
  exists (Nat.min (Z.to_nat (Z.max 1 (Z.quot rate 10)))
                  (half - i * Z.to_nat (Z.max 1 (Z.quot rate 10)))).
  lia.
Qed.

(** X20. [_play_cached_item] cuts the cached audio into consecutive frames
    of [2 * max(1, sample_rate / 10)] bytes, the last one possibly shorter
    (the product [sample_rate * 0.1] read exactly): the frames put end to
    end are the cached bytes, none is empty, each carries the requested
    sample rate, and all hold whole 16-bit samples when the cached audio
    does. *)
Theorem cached_frames_cover (e : env) (cached : Cache.CachedItem) (rate : Z) :
  let frames := cached_frames cached rate in
  _play_cached_item e cached rate = submit_all e frames
  /\ concat (map frame_pcm frames) = Cache.pcm cached
  /\ Forall (fun f =>
               frame_rate f = rate
               /\ frame_pcm f <> []
               /\ Z.of_nat (length (frame_pcm f)) <= 2 * Z.max 1 (Z.quot rate 10)) frames
  /\ (Nat.Even (length (Cache.pcm cached)) ->
      Forall (fun f => Nat.Even (length (frame_pcm f))) frames).
Proof.
  intros frames. split; [apply play_cached_item_frames|].
  split; [apply cached_frames_concat|].
  split; [apply cached_frames_shape|apply cached_frames_even].
Qed.

Lemma cached_frames_cover_witness :
  Forall (fun f => Nat.Even (length (frame_pcm f))) (cached_frames cached_phrase 10).
Proof.
  destruct (cached_frames_cover (caching_env None ([], None)) cached_phrase 10)
    as (_ & _ & _ & H).
  apply H. by exists 3%nat.
Defined.

(** *** One chunk, step by step *)

Lemma bind_returns {A B} (m : M A) (k : A -> M B) (w w1 : world) (a : A) :
  m w = (Returns a, w1) -> bind m k w = k a w1.
Proof. intros H. unfold bind. by rewrite H. Qed.

Lemma bind_raises {A B} (m : M A) (k : A -> M B) (w w1 : world) (ex : exn) :
  m w = (Raises ex, w1) -> bind m k w = (Raises ex, w1).
Proof. intros H. unfold bind. by rewrite H. Qed.

Lemma submit_returns (e : env) (f : AudioFrame) (w : world) :
  e_submit e (trace w) f = Ok tt ->
  exists w', submit e f w = (Returns tt, w') /\ trace w' = trace w ++ [Submit f].
Proof.
  intros H. unfold submit, bind, call, register_underrun, modify, ret. rewrite H. simpl.
  destruct (e_underrun e (trace w)); eauto.
Qed.

Lemma submit_all_returns (e : env) (frames : list AudioFrame) (w : world) :
  (forall t f, e_submit e t f = Ok tt) ->
  exists w', submit_all e frames w = (Returns tt, w')
             /\ trace w' = trace w ++ map Submit frames.
Proof.
  intros Hok. revert w. induction frames as [|f frames IH]; intros w; simpl.
  - exists w. by rewrite app_nil_r.
  - destruct (submit_returns e f w (Hok _ _)) as (w1 & Hs & Ht).
    rewrite (bind_returns _ _ _ _ _ Hs).
    destruct (IH w1) as (w2 & Hs2 & Ht2). exists w2. split; [done|].
    by rewrite Ht2, Ht, <- app_assoc.
Qed.

Lemma stream_loop_returns (e : env) (frames : list AudioFrame)
    (st : option Q * option Q * list byte) (w : world) :
  (forall t f, e_submit e t f = Ok tt) ->
  exists first second w',
    stream_loop e (map Frame frames) st w
    = (Returns (first, second, snd st ++ concat (map frame_pcm frames)), w')
    /\ trace w' = trace w ++ played frames.
Proof.
  intros Hok. revert st w.
  induction frames as [|f frames IH]; intros [[first second] buf] w; simpl.
  - exists first, second, w. by rewrite !app_nil_r.
  - unfold bind at 1, clock at 1, call at 1. cbn [of_result].
    destruct (submit_returns e f (push Clock w) (Hok _ _)) as (w1 & Hs & Ht).
    rewrite (bind_returns _ _ _ _ _ Hs).
    edestruct IH as (first' & second' & w2 & Hl & Ht2).
    exists first', second', w2. rewrite Hl. cbn [snd]. split; [by rewrite <- app_assoc|].
    rewrite Ht2, Ht. unfold push. simpl. by rewrite <- !app_assoc.
Qed.

Lemma consume_returns (w : world) :
  exists w', _consume_pending_underrun w = (Returns (_pending_underrun (self w)), w')
             /\ trace w' = trace w /\ _pending_underrun (self w') = false.
Proof. by eexists. Qed.

Lemma synthesize_returns (e : env) (index : Z) (chunk : str) (rate : Z)
    (key : option string) (frames : list AudioFrame) (w : world) :
  e_stream e (trace w ++ [Clock]) chunk index = (map Frame frames, None) ->
  (forall t f, e_submit e t f = Ok tt) ->
  (forall t k b r, e_cache_put e t k b r = Ok tt) ->
  exists m u w',
    synthesize e index chunk rate key w = (Returns (m, u), w')
    /\ trace w' = trace w ++ [Clock; Stream chunk index] ++ played frames ++ [Clock]
                  ++ store key (concat (map frame_pcm frames)) rate
    /\ chunk_index m = index /\ char_len m = len chunk.
Proof.
  intros Hstream Hsubmit Hput. unfold synthesize.
  unfold bind at 1, clock at 1, call at 1. cbn [of_result].
  unfold bind at 1, call at 1. cbn [of_result push trace self]. rewrite Hstream.
  edestruct (stream_loop_returns e frames (None, None, [])) as (first & second & w1 & Hl & Ht);
    [done|].
  rewrite (bind_returns _ _ _ _ _ Hl). cbn [snd app].
  unfold bind at 1, ret at 1.
  unfold bind at 1, clock at 1, call at 1. cbn [of_result].
  set (audio := concat (map frame_pcm frames)).
  assert (exists w2,
             (match key, audio with
              | Some k, _ :: _ => call (CachePut k audio rate)
                                       (fun t => e_cache_put e t k audio rate)
              | _, _ => ret tt
              end) (push Clock w1) = (Returns tt, w2)
             /\ trace w2 = trace w1 ++ [Clock] ++ store key audio rate) as (w2 & Hc & Ht2).
  { destruct key as [k|], audio as [|b audio]; simpl; unfold ret, call;
      rewrite ?Hput; eexists; (split; [reflexivity|]); simpl;
      by rewrite ?app_nil_r, <- ?app_assoc. }
  rewrite (bind_returns _ _ _ _ _ Hc).
  do 3 eexists. split; [reflexivity|]. simpl. split; [|done].
  rewrite Ht2, Ht. cbn [trace push]. by rewrite <- !app_assoc.
Qed.

Lemma process_chunk_miss (e : env) (index : Z) (chunk : str) (rate : Z)
    (provider_settings : option settings) (key : option string) (w : world) :
  usable_key (self w)
    (_compute_cache_key e (self w) chunk (default no_settings provider_settings))
  = key ->
  (forall k, key = Some k -> e_cache_get e (trace w) k = Ok None) ->
  _process_chunk e index chunk rate provider_settings w
  = synthesize e index chunk rate key
      {| self := self w; trace := trace w ++ lookup key |}.
Proof.
  intros Hkey Hget. unfold _process_chunk, bind at 1, get_self. rewrite Hkey.
  destruct key as [k|]; simpl.
  - unfold bind at 1, call at 1. by rewrite (Hget k eq_refl).
  - rewrite app_nil_r. by destruct w.
Qed.

(** X21. On a cache hit, [_process_chunk] does not call the provider and
    writes nothing to the cache: after the lookup it reads the clock,
    submits the frames cut from the cached audio, reads the clock again and
    returns a metric whose first-frame and playback-start times are the
    request time, with the pending-underrun flag cleared. *)
Theorem cache_hit_replays (e : env) (index : Z) (chunk : str) (rate : Z)
    (provider_settings : option settings) (k : string) (hit : Cache.CachedItem)
    (w : world) :
  usable_key (self w)
    (_compute_cache_key e (self w) chunk (default no_settings provider_settings))
  = Some k ->
  e_cache_get e (trace w) k = Ok (Some hit) ->
  (forall t f, e_submit e t f = Ok tt) ->
  exists m u w',
    _process_chunk e index chunk rate provider_settings w = (Returns (m, u), w')
    /\ trace w' = trace w ++ [CacheGet k; Clock]
                  ++ map Submit (cached_frames hit rate) ++ [Clock]
    /\ chunk_index m = index /\ char_len m = len chunk
    /\ first_frame m = request_start m /\ playback_start m = request_start m
    /\ (synthesis_latency_ms m == 0)%Q
    /\ _pending_underrun (self w') = false.
Proof.
  intros Hkey Hget Hsubmit. unfold _process_chunk, bind at 1, get_self. rewrite Hkey.
  unfold bind at 1, call at 1. rewrite Hget. cbn [of_result]. unfold replay.
  unfold bind at 1, clock at 1, call at 1. cbn [of_result].
  rewrite play_cached_item_frames.
  destruct (submit_all_returns e (cached_frames hit rate) (push Clock (push (CacheGet k) w))
              Hsubmit) as (w1 & Hs & Ht).
  rewrite (bind_returns _ _ _ _ _ Hs).
  unfold bind at 1, clock at 1, call at 1. cbn [of_result].
  do 3 eexists. split; [reflexivity|]. simpl.
  split; [rewrite Ht; simpl; by rewrite <- !app_assoc|].
  repeat split; try done.
  unfold synthesis_latency_ms. cbn [first_frame request_start].
  set (t0 := e_clock e _).
  assert ((t0 - t0) * 1000 == 0)%Q as Hzero by ring.
  unfold fmax. destruct (Qle_bool _ 0) eqn:E; [done|].
  exfalso. apply not_true_iff_false in E. apply E, Qle_bool_iff. rewrite Hzero. lra.
Qed.

Lemma cache_hit_replays_witness :
  exists m u w',
    _process_chunk (caching_env (Some cached_phrase) ([], None)) 0 (s "Hi") 10 None
                   (fresh caching_controller)
    = (Returns (m, u), w')
    /\ trace w' = [CacheGet "fingerprint"; Clock;
                   Submit {| frame_pcm := [x01; x00]; frame_rate := 10 |};
                   Submit {| frame_pcm := [x02; x00]; frame_rate := 10 |};
                   Submit {| frame_pcm := [x03; x00]; frame_rate := 10 |};
                   Clock].
Proof.
  destruct (cache_hit_replays (caching_env (Some cached_phrase) ([], None)) 0 (s "Hi") 10
              None "fingerprint" cached_phrase (fresh caching_controller))
    as (m & u & w' & Hrun & Ht & _);
    [vm_compute; reflexivity | reflexivity | reflexivity |].
  exists m, u, w'. split; [exact Hrun|exact Ht].
Defined.

(** X22. On a cache miss, or without a usable key, when the provider's
    stream ends normally and the sink accepts every frame, [_process_chunk]
    reads the clock, opens one stream, submits every frame in the order
    received (reading the clock before each), reads the clock once more and
    then, if there is a key and some audio arrived, stores the frames' bytes
    put end to end under that key with the requested sample rate. *)
Theorem cache_miss_streams (e : env) (index : Z) (chunk : str) (rate : Z)
    (provider_settings : option settings) (key : option string)
    (frames : list AudioFrame) (w : world) :
  usable_key (self w)
    (_compute_cache_key e (self w) chunk (default no_settings provider_settings))
  = key ->
  (forall k, key = Some k -> e_cache_get e (trace w) k = Ok None) ->
  e_stream e (trace w ++ lookup key ++ [Clock]) chunk index = (map Frame frames, None) ->
  (forall t f, e_submit e t f = Ok tt) ->
  (forall t k b r, e_cache_put e t k b r = Ok tt) ->
  exists m u w',
    _process_chunk e index chunk rate provider_settings w = (Returns (m, u), w')
    /\ trace w' = trace w ++ lookup key ++ [Clock; Stream chunk index] ++ played frames
                  ++ [Clock] ++ store key (concat (map frame_pcm frames)) rate
    /\ chunk_index m = index /\ char_len m = len chunk.
Proof.
  intros Hkey Hget Hstream Hsubmit Hput.
  rewrite (process_chunk_miss e index chunk rate provider_settings key w Hkey Hget).
  destruct (synthesize_returns e index chunk rate key frames
              {| self := self w; trace := trace w ++ lookup key |})
    as (m & u & w' & Hrun & Ht & Hm);
    [cbn [trace]; by rewrite <- app_assoc|done|done|].
  exists m, u, w'. split; [done|]. split; [|done].
  rewrite Ht. cbn [trace]. by rewrite <- !app_assoc.
Qed.

Lemma cache_miss_streams_witness :
  exists m u w',
    _process_chunk (caching_env None ([Frame sample_frame; Frame sample_frame], None))
                   0 (s "Hi") 16000 None (fresh caching_controller)
    = (Returns (m, u), w')
    /\ trace w' = [CacheGet "fingerprint"; Clock; Stream (s "Hi") 0;
                   Clock; Submit sample_frame; Clock; Submit sample_frame; Clock;
                   CachePut "fingerprint" [x00; x00; x00; x00] 16000].
Proof.
  destruct (cache_miss_streams
              (caching_env None ([Frame sample_frame; Frame sample_frame], None))
              0 (s "Hi") 16000 None (Some "fingerprint"%string)
              [sample_frame; sample_frame] (fresh caching_controller))
    as (m & u & w' & Hrun & Ht & _);
    [vm_compute; reflexivity | reflexivity | reflexivity | reflexivity | reflexivity |].
  exists m, u, w'. split; [exact Hrun|exact Ht].
Defined.

(** *** What reaches the cache *)

Lemma no_put (p : event -> bool) (rest : list event) (k : string) (b : list byte)
    (r : Z) :
  (forall ev, p ev = true -> is_cache_put ev = false) ->
  Forall (fun ev => p ev = true) rest -> CachePut k b r ∈ rest -> False.
Proof.
  intros Hp Hall Hin. rewrite Forall_forall in Hall.
  by specialize (Hp _ (Hall _ Hin)).
Qed.

Lemma plain_not_put (rest : list event) (k : string) (b : list byte) (r : Z) :
  Forall (fun ev => is_plain_call ev = true) rest -> CachePut k b r ∈ rest -> False.
Proof. apply no_put. by intros []. Qed.

Lemma stream_loop_result (e : env) (items : list item)
    (st st' : option Q * option Q * list byte) (w w' : world) :
  stream_loop e items st w = (Returns st', w') ->
  exists frames,
    items = map Frame frames /\ snd st' = snd st ++ concat (map frame_pcm frames).
Proof.
  revert st w. induction items as [|[f|] items IH]; intros [[first second] buf] w; simpl.
  - intros [= <- _]. exists []. by rewrite app_nil_r.
  - unfold bind at 1, clock at 1, call at 1. cbn [of_result]. unfold bind at 1.
    destruct (submit e f (push Clock w)) as [[u|ex|] w1]; [|done|done].
    intros H. apply IH in H as (frames & -> & ->). exists (f :: frames).
    split; [done|]. simpl. by rewrite <- app_assoc.
  - done.
Qed.

Lemma synthesize_put (e : env) (index : Z) (chunk : str) (rate : Z)
    (key : option string) (w : world) (k : string) (b : list byte) (r : Z)
    (rest : list event) :
  trace (snd (synthesize e index chunk rate key w)) = trace w ++ rest ->
  CachePut k b r ∈ rest ->
  key = Some k /\ r = rate /\ b <> []
  /\ exists frames,
       e_stream e (trace w ++ [Clock]) chunk index = (map Frame frames, None)
       /\ b = concat (map frame_pcm frames).
Proof.
  unfold synthesize.
  unfold bind at 1, clock at 1, call at 1. cbn [of_result].
  unfold bind at 1, call at 1. cbn [of_result].
  change (trace (push Clock w)) with (trace w ++ [Clock]).
  destruct (e_stream e (trace w ++ [Clock]) chunk index) as [items failure] eqn:Es.
  set (w2 := push (Stream chunk index) (push Clock w)).
  assert (trace w2 = trace w ++ [Clock; Stream chunk index]) as Hw2
    by (unfold w2, push; simpl; by rewrite <- app_assoc).
  destruct (appends_stream_loop is_plain_call e items (None, None, []) eq_refl
              (fun _ => eq_refl) w2) as (rl & Htl & Hpl).
  rewrite Hw2 in Htl. clearbody w2.
  assert (Forall (fun ev => is_plain_call ev = true) ([Clock; Stream chunk index] ++ rl))
    as Hplain by (by repeat constructor).
  unfold bind at 1.
  destruct (stream_loop e items (None, None, []) w2) as [[[[first second] buf]|ex|] w3]
    eqn:El; cbn [fst snd] in *.
  2, 3: rewrite Htl, <- !app_assoc;
        intros <-%app_inv_head Hin; by destruct (plain_not_put _ _ _ _ Hplain Hin).
  destruct (stream_loop_result _ _ _ _ _ _ El) as (frames & -> & Hbuf).
  simpl in Hbuf. subst buf.
  destruct failure as [ex|].
  { unfold bind at 1, raise at 1. cbn [fst snd].
    rewrite Htl, <- !app_assoc.
    intros <-%app_inv_head Hin. by destruct (plain_not_put _ _ _ _ Hplain Hin). }
  unfold bind at 1, ret at 1.
  unfold bind at 1, clock at 1, call at 1. cbn [of_result].
  assert (Forall (fun ev => is_plain_call ev = true)
            ([Clock; Stream chunk index] ++ rl ++ [Clock])) as Hplain'.
  { apply Forall_app. split; [by repeat constructor|].
    apply Forall_app. split; [done|by repeat constructor]. }
  set (audio := concat (map frame_pcm frames)).
  destruct key as [k'|], audio as [|b0 audio0] eqn:Ea.
  1, 3, 4:
    cbv beta iota zeta delta [bind ret _consume_pending_underrun get_self modify];
    cbn [fst snd trace push self];
    rewrite Htl, <- !app_assoc;
    intros <-%app_inv_head Hin; by destruct (plain_not_put _ _ _ _ Hplain' Hin).
  cbv beta iota zeta delta [bind ret _consume_pending_underrun get_self modify call].
  intros Ht Hin.
  assert (rest = ([Clock; Stream chunk index] ++ rl ++ [Clock])
                 ++ [CachePut k' (b0 :: audio0) rate]) as ->.
  { apply (app_inv_head (trace w)). rewrite <- Ht.
    destruct (e_cache_put e _ k' (b0 :: audio0) rate);
      cbn [of_result fst snd trace push self]; rewrite Htl; by rewrite <- !app_assoc. }
  apply elem_of_app in Hin as [Hin|Hin];
    [by destruct (plain_not_put _ _ _ _ Hplain' Hin)|].
  apply list_elem_of_singleton in Hin. injection Hin as -> -> ->.
  repeat split; [done|]. exists frames. split; [done|]. by rewrite <- Ea.
Qed.

(** X23. Whatever the provider, the sink and the cache do, everything
    [_process_chunk] writes to the cache is the complete audio of the
    chunk: a [put] is made only under the chunk's own key, with the
    requested sample rate, after a cache miss and a stream of audio frames
    that ended without an error, and its bytes are all the frames' bytes
    put end to end, never empty. *)
Theorem stored_audio_complete (e : env) (index : Z) (chunk : str) (rate : Z)
    (provider_settings : option settings) (w : world) (k : string) (b : list byte)
    (r : Z) :
  CachePut k b r
    ∈ drop (length (trace w))
        (trace (snd (_process_chunk e index chunk rate provider_settings w))) ->
  usable_key (self w)
    (_compute_cache_key e (self w) chunk (default no_settings provider_settings))
  = Some k
  /\ e_cache_get e (trace w) k = Ok None
  /\ r = rate /\ b <> []
  /\ exists frames,
       e_stream e (trace w ++ [CacheGet k; Clock]) chunk index = (map Frame frames, None)
       /\ b = concat (map frame_pcm frames).
Proof.
  destruct (appends_process_chunk e index chunk rate provider_settings w)
    as (rest & Ht & _).
  rewrite Ht, drop_app_length. revert Ht.
  unfold _process_chunk, bind at 1, get_self.
  destruct (usable_key _ _) as [k'|].
  - unfold bind at 1, call at 1.
    destruct (e_cache_get e (trace w) k') as [[hit|]|ex] eqn:Eget; cbn [of_result fst snd].
    + destruct (appends_replay e index chunk rate hit (push (CacheGet k') w))
        as (rr & Hr & Hpr).
      rewrite Hr. cbn [push trace]. rewrite <- app_assoc.
      intros <-%app_inv_head Hin. exfalso.
      apply elem_of_cons in Hin as [|Hin]; [done|].
      eapply (no_put is_replay_call); [|exact Hpr|exact Hin]. by intros [].
    + destruct (appends_synthesize is_chunk_call e index chunk rate (Some k') eq_refl
                  (fun _ => eq_refl) (fun _ _ => eq_refl) (fun _ _ _ _ => eq_refl)
                  (push (CacheGet k') w)) as (rs & Hs & _).
      rewrite Hs. cbn [push trace]. rewrite <- app_assoc.
      intros <-%app_inv_head Hin.
      apply elem_of_cons in Hin as [|Hin]; [done|].
      destruct (synthesize_put _ _ _ _ _ _ _ _ _ _ Hs Hin)
        as ([= ->] & -> & Hb & frames & Hstream & ->).
      cbn [push trace] in Hstream. rewrite <- app_assoc in Hstream.
      repeat split; [done..|]. by exists frames.
    + cbn [push trace]. intros <-%app_inv_head Hin.
      apply elem_of_cons in Hin as [|Hin]; [done|]. by apply elem_of_nil in Hin.
  - intros Ht Hin. by destruct (synthesize_put _ _ _ _ _ _ _ _ _ _ Ht Hin).
Qed.

Lemma stored_audio_complete_witness :
  let e := caching_env None ([Frame sample_frame; Frame sample_frame], None) in
  let w := fresh caching_controller in
  usable_key (self w) (_compute_cache_key e (self w) (s "Hi") no_settings)
  = Some "fingerprint"%string
  /\ e_cache_get e (trace w) "fingerprint" = Ok None
  /\ 16000 = 16000 /\ [x00; x00; x00; x00] <> []
  /\ exists frames,
       e_stream e (trace w ++ [CacheGet "fingerprint"; Clock]) (s "Hi") 0
       = (map Frame frames, None)
       /\ [x00; x00; x00; x00] = concat (map frame_pcm frames).
Proof.
  apply (stored_audio_complete
           (caching_env None ([Frame sample_frame; Frame sample_frame], None))
           0 (s "Hi") 16000 None (fresh caching_controller)).
  apply list_elem_of_In. vm_compute. do 8 right. left. reflexivity.
Defined.

(** *** A provider that keeps failing *)

Lemma attempt_fails (e : env) (depth : nat) (index : Z) (chunk : str) (rate : Z)
    (provider_settings : option settings) (ex : exn) (w : world) :
  cache_enabled (self w) = false ->
  e_stream e (trace w ++ [Clock]) chunk index = ([], Some ex) ->
  attempt e depth index chunk rate provider_settings w
  = (Raises ex, push (Stream chunk index) (push Clock w)).
Proof.
  intros Hcache Hstream. unfold attempt.
  apply bind_raises. rewrite process_chunk_plain by (apply no_cache_key; by left).
  unfold synthesize.
  unfold bind at 1, clock at 1, call at 1. cbn [of_result].
  unfold bind at 1, call at 1. cbn [of_result].
  change (trace (push Clock w)) with (trace w ++ [Clock]). by rewrite Hstream.
Qed.

Lemma attempt_loop_fails (e : env) (depth : nat) (index : Z) (chunk : str) (rate : Z)
    (provider_settings : option settings) (ex : exn) :
  (forall t, e_stream e t chunk index = ([], Some ex)) ->
  forall (fuel : nat) (attempts : Z) (w : world),
    cache_enabled (self w) = false ->
    let n := if is_transient ex then Z.to_nat (max_retries (self w) - attempts)
             else 0%nat in
    (n < fuel)%nat ->
    exists mid,
      attempt_loop e depth fuel attempts index chunk rate provider_settings w
      = (Raises ex, {| self := self w; trace := trace w ++ mid |})
      /\ calls is_stream mid = repeat (Stream chunk index) (S n)
      /\ length (calls is_sleep mid) = n.
Proof.
  intros Hstream. induction fuel as [|fuel IH]; intros attempts w Hcache n Hfuel; [lia|].
  simpl. rewrite (attempt_fails e depth index chunk rate provider_settings ex w)
    by done.
  assert (push (Stream chunk index) (push Clock w)
          = {| self := self w; trace := trace w ++ [Clock; Stream chunk index] |}) as Hw1
    by (unfold push; simpl; by rewrite <- app_assoc).
  cbn [push self]. unfold n in *. clear n.
  destruct (is_transient ex); [|exists [Clock; Stream chunk index]; by rewrite Hw1].
  destruct (Z.gtb_spec (attempts + 1) (max_retries (self w))) as [Hgt|Hle].
  { exists [Clock; Stream chunk index]. rewrite Hw1.
    replace (Z.to_nat (max_retries (self w) - attempts)) with 0%nat by lia. done. }
  unfold bind at 1, call at 1. cbn [of_result].
  set (delay := _compute_backoff _ _ _).
  destruct (IH (attempts + 1)
              (push (Sleep delay) (push (Stream chunk index) (push Clock w))) Hcache)
    as (mid & Hrun & Hstreams & Hsleeps).
  { cbn [push self]. lia. }
  cbn [push self] in Hstreams, Hsleeps.
  exists ([Clock; Stream chunk index] ++ Sleep delay :: mid).
  split; [|split].
  - rewrite Hrun. unfold push. simpl. by rewrite <- !app_assoc.
  - rewrite calls_app.
    change (calls is_stream (Sleep delay :: mid)) with (calls is_stream mid).
    rewrite Hstreams.
    replace (Z.to_nat (max_retries (self w) - attempts))
      with (S (Z.to_nat (max_retries (self w) - (attempts + 1)))) by lia.
    done.
  - rewrite calls_app.
    change (calls is_sleep (Sleep delay :: mid)) with (Sleep delay :: calls is_sleep mid).
    simpl. rewrite Hsleeps. lia.
Qed.

(** X24. With no phrase cache and a provider whose stream for the first
    chunk always fails with the same error before any frame, [run] raises
    that error after releasing the sink and the provider.  A transient
    error (network, rate limit) is retried exactly [max_retries] times, with
    one sleep before each retry; any other error is not retried at all. *)
Theorem run_failing_provider (e : env) (depth : nat) (text : str) (rate : Z)
    (max_chars : option Z) (provider_settings : option settings) (w : world)
    (chunk : str) (rest : list str) (ex : exn) :
  cache_enabled (self w) = false ->
  e_chunker e text (default (chunk_max_chars (self w)) max_chars) = Ok (chunk :: rest) ->
  (forall t, e_connect e t = Ok tt) ->
  (forall t, e_start e t rate = Ok tt) ->
  (forall t, e_flush_and_close e t = Ok tt) ->
  (forall t, e_close e t = Ok tt) ->
  (forall t, e_stream e t chunk 0 = ([], Some ex)) ->
  let retries := if is_transient ex then Z.to_nat (max_retries (self w)) else 0%nat in
  exists mid,
    run e depth text rate max_chars provider_settings w
    = (Raises ex,
       {| self := self w;
          trace := trace w ++ [Connect; Start rate] ++ mid ++ [FlushAndClose; Close] |})
    /\ calls is_stream mid = repeat (Stream chunk 0) (S retries)
    /\ length (calls is_sleep mid) = retries.
Proof.
  intros Hcache Hchunks Hconnect Hstart Hflush Hclose Hstream retries.
  destruct (attempt_loop_fails e depth 0 chunk rate provider_settings ex Hstream
              (S (Z.to_nat (max_retries (self w)))) 0 (started rate w) Hcache)
    as (mid & Hloop & Hstreams & Hsleeps).
  { cbn [started push self]. destruct (is_transient ex); lia. }
  cbn [started push self] in Hstreams, Hsleeps.
  rewrite Z.sub_0_r in Hstreams, Hsleeps.
  exists mid. split; [|done].
  rewrite run_unfold, Hchunks, Hconnect, Hstart, chunk_loop_cons.
  change (max_retries (self (started rate w))) with (max_retries (self w)).
  rewrite Hloop.
  unfold release, bind, call. rewrite Hflush. cbn [of_result push trace self].
  rewrite Hclose. cbn [of_result]. f_equal. f_equal.
  unfold started, push. simpl. by rewrite <- !app_assoc.
Qed.

Lemma run_failing_provider_witness :
  exists mid,
    run (caching_env None ([], Some ProviderNetworkError)) 1000 (s "Hello there.") 16000
        None None (fresh sample_controller)
    = (Raises ProviderNetworkError,
       {| self := sample_controller;
          trace := [Connect; Start 16000] ++ mid ++ [FlushAndClose; Close] |})
    /\ calls is_stream mid = repeat (Stream (s "Hello there.") 0) 3
    /\ length (calls is_sleep mid) = 2%nat.
Proof.
  apply (run_failing_provider (caching_env None ([], Some ProviderNetworkError)) 1000
           (s "Hello there.") 16000 None None (fresh sample_controller)
           (s "Hello there.") [] ProviderNetworkError);
    first [reflexivity | vm_compute; reflexivity].
Defined.

End ControllerMore.

(** ** The playback engine *)

Module PlaybackFacts.

Import WavSaver Playback WavFacts.

Lemma even_mod (n : nat) : (n mod 2 =? 0)%nat = Nat.even n.
Proof.
  destruct (Nat.even n) eqn:E.
  - apply Nat.even_spec in E as [k ->]. apply Nat.eqb_eq.
    rewrite Nat.mul_comm. apply Nat.Div0.mod_mul.
  - apply Nat.eqb_neq. intros H.
    assert (Nat.even n = true); [|congruence].
    apply Nat.even_spec. exists (n / 2)%nat.
    pose proof (Nat.div_mod_eq n 2). lia.
Qed.

(** X25. [submit] either rejects its argument with [AudioDeviceError],
    leaving the engine as it was and the device untouched, or passes the
    payload to the device in exactly one write.  It rejects exactly when
    the engine is not started, a frame's sample rate differs from the
    stream's, or the payload has an odd number of bytes. *)
Theorem submit_checks (fails : list device_call -> bool) (frame : payload)
    (p : PlaybackEngine) :
  (acceptable p frame = false ->
     submit fails frame p = (Fail (Exn AudioDeviceError), p))
  /\ (acceptable p frame = true ->
        device (snd (submit fails frame p))
        = device p ++ [StreamWrite (payload_bytes frame)]
        /\ _stream (snd (submit fails frame p)) = true
        /\ stream_rate (snd (submit fails frame p)) = stream_rate p
        /\ (fails (device p ++ [StreamWrite (payload_bytes frame)]) = true ->
            fst (submit fails frame p) = Fail (Exn AudioDeviceError))
        /\ (fails (device p ++ [StreamWrite (payload_bytes frame)]) = false ->
            _wav_sink p = None -> fst (submit fails frame p) = Done tt)).
Proof.
  unfold acceptable, fits, submit. rewrite <- even_mod.
  destruct (_stream p); [|by split]. destruct (stream_rate p) as [rate|]; [|by split].
  destruct frame as [f|b]; cbn [payload_bytes andb].
  - destruct (Controller.frame_rate f =? rate); cbn [negb andb]; [|by split].
    destruct (length (Controller.frame_pcm f) mod 2 =? 0)%nat; cbn [negb]; [|by split].
    split; [done|intros _].
    destruct (fails _); [done|].
    destruct (_wav_sink p) as [sink|]; [|done].
    by destruct (WavSaver.write _ sink).
  - destruct (length b mod 2 =? 0)%nat; cbn [negb]; [|by split].
    split; [done|intros _].
    destruct (fails _); [done|].
    destruct (_wav_sink p) as [sink|]; [|done].
    by destruct (WavSaver.write _ sink).
Qed.

Lemma submit_checks_witness :
  submit sound (OfBytes [x00]) (new_engine None)
  = (Fail (Exn AudioDeviceError), new_engine None).
Proof.
  destruct (submit_checks sound (OfBytes [x00]) (new_engine None)) as [H _].
  apply H. reflexivity.
Defined.

(** A started engine that mirrors to a sink holding [audio] so far. *)
Lemma submit_recording (fails : list device_call -> bool) (rate : Z)
    (audio : list byte) (calls : list device_call) (frame : payload) :
  fits rate frame = true ->
  fails (calls ++ [StreamWrite (payload_bytes frame)]) = false ->
  submit fails frame
    {| _stream := true; stream_rate := Some rate;
       _wav_sink := Some (recording rate audio); device := calls |}
  = (Done tt,
     {| _stream := true; stream_rate := Some rate;
        _wav_sink := Some (recording rate (audio ++ payload_bytes frame));
        device := calls ++ [StreamWrite (payload_bytes frame)] |}).
Proof.
  unfold fits, submit. cbn [_stream stream_rate _wav_sink device].
  rewrite <- even_mod. intros Hok Hdev.
  destruct frame as [f|b]; cbn [payload_bytes] in *.
  - apply andb_true_iff in Hok as [Hrate Heven]. rewrite Hrate. cbn [negb].
    rewrite Heven. cbn [negb]. by rewrite Hdev, write_ok.
  - cbn [andb] in Hok. rewrite Hok. cbn [negb]. by rewrite Hdev, write_ok.
Qed.

Lemma submit_all_recording (fails : list device_call -> bool) (rate : Z)
    (frames : list payload) (audio : list byte) (calls : list device_call) :
  (forall d, fails d = false) ->
  Forall (fun frame => fits rate frame = true) frames ->
  submit_all fails frames
    {| _stream := true; stream_rate := Some rate;
       _wav_sink := Some (recording rate audio); device := calls |}
  = (Done tt,
     {| _stream := true; stream_rate := Some rate;
        _wav_sink := Some (recording rate (audio ++ concat (map payload_bytes frames)));
        device := calls ++ map (fun f => StreamWrite (payload_bytes f)) frames |}).
Proof.
  intros Hdev Hall. revert audio calls.
  induction Hall as [|frame frames Hok _ IH]; intros audio calls; simpl.
  - by rewrite !app_nil_r.
  - rewrite submit_recording by done. rewrite IH. by rewrite <- !app_assoc.
Qed.

(** X26. A whole session on an engine that mirrors to a WAV file: with a
    device that never raises and frames that all pass the checks of
    [submit], [start], the submissions and [flush_and_close] all return,
    the device sees the stream opened and started, one write per frame in
    order, then stop and close, and the WAV file holds the canonical header
    followed by the very bytes sent to the device. *)
Theorem playback_session (fails : list device_call -> bool) (rate : Z)
    (frames : list payload) (p : PlaybackEngine) (sink : WavSink) :
  let audio := concat (map payload_bytes frames) in
  let size := Z.of_nat (length audio) in
  (forall d, fails d = false) ->
  _stream p = false ->
  _wav_sink p = Some sink -> WavSaver._fh sink = None ->
  WavSaver._bytes_written sink = 0 ->
  Forall (fun frame => fits rate frame = true) frames ->
  0 <= rate -> rate * 2 < 2 ^ 32 -> 36 + size < 2 ^ 32 ->
  exists p1 p2 p3 sink',
    start fails rate p = (Done tt, p1)
    /\ submit_all fails frames p1 = (Done tt, p2)
    /\ flush_and_close fails p2 = (Done tt, p3)
    /\ device p3 = device p ++ session rate frames
    /\ _stream p3 = false
    /\ _wav_sink p3 = Some sink'
    /\ WavSaver.path sink' = Some (header rate size ++ audio)
    /\ WavSaver._fh sink' = None.
Proof.
  intros audio size Hdev Hstopped Hsink Hfh Hn Hall H0 H1 Hsize.
  do 4 eexists. split; [|split; [|split]].
  - unfold start. rewrite Hstopped, !Hdev, Hsink, start_ok by done. reflexivity.
  - by apply submit_all_recording.
  - unfold flush_and_close. cbn [_stream negb device _wav_sink]. rewrite !Hdev.
    simpl app at 1. rewrite close_ok by done. reflexivity.
  - cbn [device _stream _wav_sink WavSaver.path WavSaver._fh].
    split; [|done]. unfold session. by rewrite <- !app_assoc.
Qed.

Lemma playback_session_witness :
  exists p1 p2 p3 sink',
    start sound 16000 (new_engine (Some (new None))) = (Done tt, p1)
    /\ submit_all sound [OfBytes [x01; x00]; OfBytes [x02; x00]] p1 = (Done tt, p2)
    /\ flush_and_close sound p2 = (Done tt, p3)
    /\ device p3 = session 16000 [OfBytes [x01; x00]; OfBytes [x02; x00]]
    /\ _wav_sink p3 = Some sink'
    /\ WavSaver.path sink' = Some (header 16000 4 ++ [x01; x00; x02; x00]).
Proof.
  destruct (playback_session sound 16000 [OfBytes [x01; x00]; OfBytes [x02; x00]]
              (new_engine (Some (new None))) (new None))
    as (p1 & p2 & p3 & sink' & H1 & H2 & H3 & Hd & _ & Hs & Hp & _);
    [reflexivity | reflexivity | reflexivity | reflexivity | reflexivity
    | by repeat constructor | lia | lia | simpl; lia |].
  exists p1, p2, p3, sink'. repeat split; assumption.
Defined.

(** X27. [flush_and_close] stops the engine on every path: whether the
    device's [stop] or [close] raise or not, and whatever the WAV sink does,
    the engine ends up without a stream and without a sample rate, [stop]
    having been called once and [close] at most once after it.  On a
    stopped engine it does nothing, so that a second call returns at once,
    and every later [submit] is rejected. *)
Theorem flush_and_close_stops (fails : list device_call -> bool) (p : PlaybackEngine) :
  let p' := snd (flush_and_close fails p) in
  _stream p' = false
  /\ (_stream p = false -> flush_and_close fails p = (Done tt, p))
  /\ (_stream p = true ->
        stream_rate p' = None
        /\ (device p' = device p ++ [StreamStop]
            \/ device p' = device p ++ [StreamStop; StreamClose]))
  /\ flush_and_close fails p' = (Done tt, p')
  /\ (forall frame, submit fails frame p' = (Fail (Exn AudioDeviceError), p')).
Proof.
  intros p'.
  assert (_stream p' = false) as Hstopped.
  { unfold p', flush_and_close. destruct (_stream p) eqn:E; cbn [negb snd]; [|done].
    destruct (fails (device p ++ [StreamStop])); [|destruct (fails _)];
      destruct (_wav_sink p) as [sink|]; try done;
      by destruct (WavSaver.close sink). }
  split; [done|]. split; [|split; [|split]].
  - intros E. unfold flush_and_close. by rewrite E.
  - intros E. unfold p', flush_and_close. rewrite E. cbn [negb].
    destruct (fails (device p ++ [StreamStop])); [|destruct (fails _)];
      destruct (_wav_sink p) as [sink|]; try destruct (WavSaver.close sink);
      cbn [snd stream_rate device]; rewrite <- ?app_assoc; auto.
  - unfold flush_and_close at 1. by rewrite Hstopped.
  - intros frame. unfold submit. by rewrite Hstopped.
Qed.

Lemma flush_and_close_stops_witness :
  device (snd (flush_and_close sound (snd (start sound 16000 (new_engine None)))))
  = [RawOutputStream 16000; StreamStart; StreamStop; StreamClose].
Proof.
  destruct (flush_and_close_stops sound (snd (start sound 16000 (new_engine None))))
    as (_ & _ & H & _).
  destruct (H eq_refl) as [_ [Hd|Hd]]; rewrite Hd; [|reflexivity].
  exfalso. vm_compute in Hd. discriminate Hd.
Defined.

(** X28. A WAV sink attached after [start] has not been started itself:
    every payload that passes the checks of [submit] is then written to
    the device, after which [submit] raises [RuntimeError], and the file
    is not touched. *)
Theorem attach_wav_after_start (fails : list device_call -> bool)
    (existing : option (list byte)) (frame : payload) (p : PlaybackEngine) :
  acceptable p frame = true ->
  fails (device p ++ [StreamWrite (payload_bytes frame)]) = false ->
  exists p1 p2,
    attach_wav existing p = (Done tt, p1)
    /\ submit fails frame p1 = (Fail (Exn RuntimeError), p2)
    /\ device p2 = device p ++ [StreamWrite (payload_bytes frame)]
    /\ _wav_sink p2 = Some (WavSaver.new existing).
Proof.
  unfold acceptable, fits, attach_wav, submit. rewrite <- even_mod.
  cbn [_stream stream_rate _wav_sink device].
  destruct (_stream p); [|done]. destruct (stream_rate p) as [rate|]; [|done].
  cbn [andb]. intros Hok Hdev.
  exists {| _stream := true; stream_rate := Some rate;
            _wav_sink := Some (WavSaver.new existing); device := device p |},
         {| _stream := true; stream_rate := Some rate;
            _wav_sink := Some (WavSaver.new existing);
            device := device p ++ [StreamWrite (payload_bytes frame)] |}.
  split; [reflexivity|].
  destruct frame as [f|b]; cbn [payload_bytes] in *.
  - apply andb_true_iff in Hok as [Hrate Heven].
    cbn [_stream stream_rate _wav_sink device]. rewrite Hrate. cbn [negb].
    rewrite Heven. cbn [negb]. rewrite Hdev. by cbn.
  - cbn [andb] in Hok. cbn [_stream stream_rate _wav_sink device].
    rewrite Hok. cbn [negb]. rewrite Hdev. by cbn.
Qed.

Lemma attach_wav_after_start_witness :
  exists p1 p2,
    attach_wav None (snd (start sound 16000 (new_engine None))) = (Done tt, p1)
    /\ submit sound (OfBytes [x01; x00]) p1 = (Fail (Exn RuntimeError), p2)
    /\ device p2 = [RawOutputStream 16000; StreamStart; StreamWrite [x01; x00]]
    /\ _wav_sink p2 = Some (WavSaver.new None).
Proof.
  apply (attach_wav_after_start sound None (OfBytes [x01; x00])
           (snd (start sound 16000 (new_engine None)))); reflexivity.
Defined.

(** X29. The frames that the controller cuts from a cached phrase are
    accepted by an engine started at the same sample rate, when the cached
    audio holds whole 16-bit samples and the device does not raise: every
    [submit] returns, and the device receives the cached bytes, in order
    and nothing else. *)
Theorem replay_accepted (fails : list device_call -> bool) (cached : Cache.CachedItem)
    (rate : Z) (p : PlaybackEngine) :
  let frames := map OfFrame (Controller.cached_frames cached rate) in
  (forall d, fails d = false) ->
  _stream p = true -> stream_rate p = Some rate -> _wav_sink p = None ->
  Nat.Even (length (Cache.pcm cached)) ->
  exists p',
    submit_all fails frames p = (Done tt, p')
    /\ device p' = device p ++ map (fun f => StreamWrite (payload_bytes f)) frames
    /\ concat (map payload_bytes frames) = Cache.pcm cached.
Proof.
  intros frames Hdev Hstream Hrate Hsink Heven.
  pose proof (ControllerMore.cached_frames_shape cached rate) as Hshape.
  pose proof (ControllerMore.cached_frames_even cached rate Heven) as Hevens.
  assert (concat (map payload_bytes frames) = Cache.pcm cached) as Hcat.
  { unfold frames. rewrite map_map. apply ControllerMore.cached_frames_concat. }
  clear Heven. unfold frames in *. clear frames Hcat.
  assert (exists p',
             submit_all fails (map OfFrame (Controller.cached_frames cached rate)) p
             = (Done tt, p')
             /\ device p'
                = device p ++ map (fun f => StreamWrite (payload_bytes f))
                                  (map OfFrame (Controller.cached_frames cached rate)));
    [|destruct H as (p' & H1 & H2); exists p'; split; [done|split; [done|]];
      rewrite map_map; apply ControllerMore.cached_frames_concat].
  revert p Hstream Hrate Hsink.
  induction (Controller.cached_frames cached rate) as [|f fs IH]; intros p Hstream Hrate Hsink.
  - exists p. simpl. by rewrite app_nil_r.
  - apply Forall_cons in Hshape as [(Hf & _ & _) Hshape].
    apply Forall_cons in Hevens as [Hev Hevens].
    simpl. unfold submit at 1. rewrite Hstream, Hrate, Hf, Z.eqb_refl. cbn [negb].
    rewrite even_mod. apply Nat.even_spec in Hev. rewrite Hev. cbn [negb].
    rewrite Hdev, Hsink.
    edestruct (IH Hshape Hevens) as (p' & Hrun & Hd); [| | |exists p'; split; [exact Hrun|]];
      [done..|].
    rewrite Hd. cbn [device]. by rewrite <- app_assoc.
Qed.

Lemma replay_accepted_witness :
  exists p',
    submit_all sound (map OfFrame (Controller.cached_frames Controller.cached_phrase 10))
      (snd (start sound 10 (new_engine None)))
    = (Done tt, p')
    /\ device p' = [RawOutputStream 10; StreamStart; StreamWrite [x01; x00];
                    StreamWrite [x02; x00]; StreamWrite [x03; x00]].
Proof.
  destruct (replay_accepted sound Controller.cached_phrase 10
              (snd (start sound 10 (new_engine None))))
    as (p' & Hrun & Hd & _);
    [reflexivity | reflexivity | reflexivity | reflexivity | by exists 3%nat |].
  exists p'. split; [exact Hrun|exact Hd].
Defined.

End PlaybackFacts.
